(** * Gossip and emergent consensus: the camera nodes, the keyword search
      and the voting demo

    A shallow embedding of the Python sources:
    - [PeopleDetection]: the two camera programs (motion based and HOG
      based).  Their [Node] classes differ only in the detector that turns
      a frame into [(present, count)]; message handling and the local
      decision are the same text in both.
    - [KeywordSearch]: the two-phase QUERY/RESULT gossip.
    - [SimpleVersion]: the even/odd voting demo.
    - [CameraRuns], [MotionRuns], [KeywordRuns], [SimpleRuns]: whole runs
      of these programs (what [gossip] delivers, what all nodes hold and
      decide at the end of [main] and [simulate], the motion detector over
      successive frames).
    - [NoisyVote], [Temperature]: the noisy classification demo and the
      temperature demo.
    - [WordTest]: the word search that keeps one [seen_queries] set.

    Python dictionaries are finite maps ([gmap]), Python sets are finite
    sets ([gset]), a [Queue] is the list of its pending items, oldest
    first.  Node objects are shared by reference between the peer lists;
    here the network is a list of node states and a peer is the position
    of a node in that list. *)

From Stdlib Require Import ZArith Floats Uint63 String.
From stdpp Require Import gmap strings list fin_maps.

Set Warnings "-inexact-float,-clear-no-such-hyp".

Local Open Scope Z_scope.
Local Open Scope nat_scope.

(** Python's [a / b] on two ints is the binary64 number nearest to the exact
    quotient.  For operands below [2^53] (here: lengths of lists) both
    conversions are exact, so the IEEE division of the converted operands is
    that number. *)
Definition float_of_nat (n : nat) : float :=
  PrimFloat.of_uint63 (Uint63.of_Z (Z.of_nat n)).

Definition py_truediv (a b : nat) : float :=
  PrimFloat.div (float_of_nat a) (float_of_nat b).

(** Closes a decidable goal about concrete data by evaluating its decision
    procedure. *)
Ltac by_compute := apply (bool_decide_unpack _); by vm_compute.

(** Run of a [for] loop whose body is [f], as a left fold. *)
Definition for_each {S A} (f : S → A → S) (l : list A) (s : S) : S :=
  foldl f s l.

(** ** Peer-to-peer plumbing

    [receive] and [gossip] are the same text in the [Node] classes modelled
    below.  [gossip_with] is [gossip] for any of them: the network is the
    list of all node objects, the sender is the node at position [i], and its
    peers are positions in the list. *)

Section Plumbing.

Context {N M : Type}.
Variable node_id : N → nat.
Variable peers : N → list nat.
Variable receive : N → M → N.

(** [for p in self.peers: if p.node_id != self.node_id: p.receive(msg)] *)
Definition gossip_with (i : nat) (net : list N) (m : M) : list N :=
  match net !! i with
  | None => net
  | Some self =>
      for_each (λ (net : list N) (p : nat),
                  match net !! p with
                  | Some q =>
                      if decide (node_id q ≠ node_id self)
                      then <[p := receive q m]> net
                      else net
                  | None => net
                  end) (peers self) net
  end.

(** [gossip] hands the message to a node once for each time the node is
    listed among the peers, unless it carries the sender's id. *)
Lemma gossip_loop_lookup (sid : nat) (m : M) (ps : list nat) (net : list N) (p : nat) :
  ∃ ms,
    for_each (λ (net : list N) (p' : nat),
                match net !! p' with
                | Some q =>
                    if decide (node_id q ≠ sid)
                    then <[p' := receive q m]> net
                    else net
                | None => net
                end) ps net !! p
    = (λ n, foldl receive n ms) <$> (net !! p)
    ∧ (∀ n, net !! p = Some n → node_id n = sid → ms = [])
    ∧ (∀ n, net !! p = Some n → node_id n ≠ sid → p ∈ ps → m ∈ ms).
Proof.
  revert net. induction ps as [|p' ps IH]; intros net.
  { exists []. simpl. split_and!; [by destruct (net !! p)|done|set_solver]. }
  unfold for_each in *. simpl.
  destruct (net !! p') as [q|] eqn:Hq; [destruct (decide (node_id q ≠ sid)) as [Hne|He]|].
  - destruct (decide (p' = p)) as [->|Hp].
    + destruct (IH (<[p := receive q m]> net)) as (ms & Hl & Hid & _).
      exists (m :: ms). rewrite Hl, Hq.
      rewrite list_lookup_insert_eq by (by eapply lookup_lt_Some).
      simpl. split_and!; [done| |set_solver].
      intros n [= <-] ?. done.
    + destruct (IH (<[p' := receive q m]> net)) as (ms & Hl & Hid & Hin).
      exists ms. rewrite Hl. rewrite list_lookup_insert_ne by done.
      split_and!; [done| |].
      * intros n Hn. apply Hid. by rewrite list_lookup_insert_ne.
      * intros n Hn Hne' [->|Hps]%elem_of_cons; [done|].
        eapply Hin; [|done..]. by rewrite list_lookup_insert_ne.
  - destruct (IH net) as (ms & Hl & Hid & Hin).
    exists ms. split_and!; [done|done|].
    intros n Hn Hne' [->|Hps]%elem_of_cons; [|by eapply Hin].
    rewrite Hq in Hn. injection Hn as ->. by destruct Hne', (dec_stable He).
  - destruct (IH net) as (ms & Hl & Hid & Hin).
    exists ms. split_and!; [done|done|].
    intros n Hn Hne' [->|Hps]%elem_of_cons; [congruence|by eapply Hin].
Qed.

(** The sender itself gets nothing. *)
Lemma gossip_lookup (i : nat) (net : list N) (m : M) (p : nat) (n : N) :
  net !! p = Some n →
  ∃ ms, gossip_with i net m !! p = Some (foldl receive n ms) ∧ (p = i → ms = []).
Proof.
  intros Hn. unfold gossip_with. destruct (net !! i) as [self|] eqn:Hself.
  - destruct (gossip_loop_lookup (node_id self) m (peers self) net p)
      as (ms & Hl & Hid & _).
    exists ms. rewrite Hl, Hn. split; [done|].
    intros ->. eapply Hid; [done|]. congruence.
  - exists []. split; [done|]. intros ->. congruence.
Qed.

Lemma gossips_lookup (i : nat) (out : list M) (net : list N) (p : nat) (n : N) :
  net !! p = Some n →
  ∃ ms, for_each (gossip_with i) out net !! p = Some (foldl receive n ms)
        ∧ (p = i → ms = []).
Proof.
  revert net n. induction out as [|m out IH]; intros net n Hn.
  { exists []. done. }
  unfold for_each in *. simpl.
  destruct (gossip_lookup i net m p n Hn) as (ms1 & H1 & Hi1).
  destruct (IH _ _ H1) as (ms2 & H2 & Hi2).
  exists (ms1 ++ ms2). rewrite H2, foldl_app. split; [done|].
  intros Hp. by rewrite Hi1, Hi2.
Qed.

Lemma gossip_delivers_with (i : nat) (net : list N) (m : M) (self : N) (p : nat) (q : N) :
  net !! i = Some self → net !! p = Some q →
  p ∈ peers self → node_id q ≠ node_id self →
  ∃ ms, gossip_with i net m !! p = Some (foldl receive q ms) ∧ m ∈ ms.
Proof.
  intros Hself Hq Hp Hne. unfold gossip_with. rewrite Hself.
  destruct (gossip_loop_lookup (node_id self) m (peers self) net p)
    as (ms & Hl & _ & Hin).
  rewrite Hl, Hq. simpl. exists ms. split; [done|]. by eapply Hin.
Qed.

Lemma gossip_length (i : nat) (net : list N) (m : M) :
  length (gossip_with i net m) = length net.
Proof.
  unfold gossip_with. destruct (net !! i) as [self|]; [|done].
  generalize (peers self). intros ps. revert net.
  induction ps as [|p ps IH]; intros net; [done|].
  unfold for_each in *. simpl. rewrite IH.
  destruct (net !! p) as [q|]; [|done].
  destruct (decide (node_id q ≠ node_id self)); [|done]. apply length_insert.
Qed.

Lemma gossips_length (i : nat) (out : list M) (net : list N) :
  length (for_each (gossip_with i) out net) = length net.
Proof.
  revert net. induction out as [|m out IH]; intros net; [done|].
  unfold for_each in *. simpl. by rewrite IH, gossip_length.
Qed.

End Plumbing.

Module PeopleDetection.

(** ** Messages *)

(** The payload dictionary [{tick, from, present, count, valid}]. *)
Record Payload := mkPayload {
  tick : nat;
  from : nat;
  present : bool;
  count : nat;
  valid : bool
}.

Record Msg := mkMsg {
  kind : string;
  payload : Payload
}.

#[export] Instance Payload_eq_dec : EqDecision Payload.
Proof. solve_decision. Defined.

#[export] Instance Msg_eq_dec : EqDecision Msg.
Proof. solve_decision. Defined.

(** The key [(t, f)] under which a message is deduplicated. *)
Definition key_of (m : Msg) : nat * nat := (tick (payload m), from (payload m)).

(** An aggregate entry is the tuple [(present, count, valid)]. *)
Definition Entry : Type := bool * nat * bool.

Definition e_present (e : Entry) : bool := e.1.1.
Definition e_count (e : Entry) : nat := e.1.2.
Definition e_valid (e : Entry) : bool := e.2.

Definition entry_of (m : Msg) : Entry :=
  (present (payload m), count (payload m), valid (payload m)).

(** ** The local decision *)

(** The tuple [(present_majority, present_ratio, contributors,
    total_count_est)] that [local_decision] returns. *)
Record ConsensusResult := mkResult {
  present_majority : bool;
  present_ratio : float;
  contributors : nat;
  total_count : nat
}.

(** [self.agg[tick].values()] *)
Definition values (snap : gmap nat Entry) : list Entry := (map_to_list snap).*2.

(** The body of [local_decision] once the dictionary of the tick is at
    hand.  [None] is Python's [None]. *)
Definition decide_values (vals : list Entry) (min_quorum : Z) : option ConsensusResult :=
  let entries := List.filter e_valid vals in
  let contributors := length entries in
  if bool_decide (Z.of_nat contributors < min_quorum)%Z || bool_decide (contributors = 0)
  then None
  else
    let yes := length (List.filter e_present entries) in
    let total_count := sum_list (e_count <$> entries) in
    let ratio := py_truediv yes contributors in
    Some (mkResult
            (bool_decide (Z.of_nat yes >= Z.of_nat contributors - Z.of_nat yes)%Z)
            ratio contributors total_count).

Definition decide_snapshot (snap : gmap nat Entry) (min_quorum : Z) : option ConsensusResult :=
  decide_values (values snap) min_quorum.

(** [local_decision(self, tick, min_quorum)], as a function of [self.agg]. *)
Definition local_decision_agg (agg : gmap nat (gmap nat Entry)) (t : nat)
    (min_quorum : Z) : option ConsensusResult :=
  match agg !! t with
  | None => None
  | Some snap => decide_snapshot snap min_quorum
  end.

(** [snapshot(epoch)]: the dictionary of a tick, empty when the tick is not
    in [agg]. *)
Definition snapshot (agg : gmap nat (gmap nat Entry)) (t : nat) : gmap nat Entry :=
  default ∅ (agg !! t).

(** *** What the decision is measured against: counts over the snapshot *)

Definition is_valid (kv : nat * Entry) : Prop := e_valid kv.2 = true.
Definition is_valid_present (kv : nat * Entry) : Prop :=
  e_valid kv.2 = true ∧ e_present kv.2 = true.

#[export] Instance is_valid_dec kv : Decision (is_valid kv).
Proof. unfold is_valid. apply _. Defined.
#[export] Instance is_valid_present_dec kv : Decision (is_valid_present kv).
Proof. unfold is_valid_present. apply _. Defined.


Definition contributors_of (snap : gmap nat Entry) : nat :=
  size (filter is_valid snap).
Definition present_count_of (snap : gmap nat Entry) : nat :=
  size (filter is_valid_present snap).
Definition total_magnitude_of (snap : gmap nat Entry) : nat :=
  map_fold (λ _ e acc, if e_valid e then e_count e + acc else acc) 0 snap.

(** ** The node *)

Section Node.

(** The camera frames and the detector are the only parts in which the two
    programs differ: [detect d frame] is [detect_motion] (whose state [d] is
    the previous gray frame and the motion accumulator) or [detect_people]
    (no state).  It returns [(present, count)] and the detector's next
    state. *)
Context {Frame D : Type}.
Variable detect : D → Frame → bool * nat * D.

(** The fields of [Node] the protocol reads or writes.  [cap] is the capture
    device as the list of what its coming [read()] calls return; the [show]
    flag and the window output are left out. *)
Record Node := mkNode {
  node_id : nat;
  cap : list (bool * option Frame);
  ok : bool;
  peers : list nat;
  inbox : list Msg;
  det : D;
  seen : gset (nat * nat);
  agg : gmap nat (gmap nat Entry)
}.

Definition set_cap (n : Node) (c : list (bool * option Frame)) : Node :=
  mkNode (node_id n) c (ok n) (peers n) (inbox n) (det n) (seen n) (agg n).
Definition set_ok (n : Node) (b : bool) : Node :=
  mkNode (node_id n) (cap n) b (peers n) (inbox n) (det n) (seen n) (agg n).
Definition set_inbox (n : Node) (q : list Msg) : Node :=
  mkNode (node_id n) (cap n) (ok n) (peers n) q (det n) (seen n) (agg n).
Definition set_det (n : Node) (d : D) : Node :=
  mkNode (node_id n) (cap n) (ok n) (peers n) (inbox n) d (seen n) (agg n).
Definition set_seen (n : Node) (s : gset (nat * nat)) : Node :=
  mkNode (node_id n) (cap n) (ok n) (peers n) (inbox n) (det n) s (agg n).
Definition set_agg (n : Node) (a : gmap nat (gmap nat Entry)) : Node :=
  mkNode (node_id n) (cap n) (ok n) (peers n) (inbox n) (det n) (seen n) a.

(** [Node(node_id, cap)]: [opened] is [cap is not None and cap.isOpened()]. *)
Definition new_node (id : nat) (opened : bool) (c : list (bool * option Frame))
    (d0 : D) : Node :=
  mkNode id c opened [] [] d0 ∅ ∅.

Definition connect (n : Node) (ps : list nat) : Node :=
  mkNode (node_id n) (cap n) (ok n) ps (inbox n) (det n) (seen n) (agg n).

(** [self.cap.read()]: the next result; an exhausted device reports failure. *)
Definition cap_read (c : list (bool * option Frame))
    : (bool * option Frame) * list (bool * option Frame) :=
  match c with
  | [] => ((false, None), [])
  | r :: c' => (r, c')
  end.

(** [agg[t][f] = e] on a [defaultdict(dict)]. *)
Definition agg_set (a : gmap nat (gmap nat Entry)) (t f : nat) (e : Entry)
    : gmap nat (gmap nat Entry) :=
  <[t := <[f := e]> (default ∅ (a !! t))]> a.

Definition agg_get (a : gmap nat (gmap nat Entry)) (t f : nat) : option Entry :=
  a !! t ≫= (.!! f).

(** [seen.add(key); agg[t][f] = e] *)
Definition record_obs (n : Node) (t f : nat) (e : Entry) : Node :=
  set_agg (set_seen n ({[(t, f)]} ∪ seen n)) (agg_set (agg n) t f e).

(** The first half of [measure_and_broadcast], from [valid = False] to
    [self.ok = False]: at most one [read()], and the reading
    [(present, count, valid)] it ends with. *)
Definition acquire (self : Node) : Node * Entry :=
  if ok self then
    let '((okr, frame), cap') := cap_read (cap self) in
    match okr, frame with
    | true, Some fr =>
        let '(p, c, d') := detect (det self) fr in
        (set_det (set_cap self cap') d', (p, c, true))
    | _, _ => (set_ok (set_cap self cap') false, (false, 0, false))
    end
  else (self, (false, 0, false)).

(** The second half, from [key = (tick, self.node_id)] on, up to the call
    of [gossip]: the node and the messages handed to [gossip] (none or
    one). *)
Definition publish (self : Node) (t : nat) (r : Entry) : Node * list Msg :=
  if decide ((t, node_id self) ∈ seen self) then (self, [])
  else (record_obs self t (node_id self) r,
        [mkMsg "OBS"%string
           (mkPayload t (node_id self) (e_present r) (e_count r) (e_valid r))]).

Definition measure (self : Node) (t : nat) : Node * list Msg :=
  let '(self1, r) := acquire self in publish self1 t r.

(** The frame of the next [read()], if it yields one ([ok and frame is not
    None]). *)
Definition next_frame (c : list (bool * option Frame)) : option Frame :=
  match (cap_read c).1 with
  | (true, Some fr) => Some fr
  | _ => None
  end.

(** The measurement source gives no reading: the camera is marked broken
    (or was never open), or the read fails. *)
Definition no_reading (self : Node) : Prop :=
  ok self = false ∨ next_frame (cap self) = None.

(** One turn of the [while] loop of [process_messages], after
    [m = self.inbox.get()]: the node and the local [outbox]. *)
Definition handle (st : Node * list Msg) (m : Msg) : Node * list Msg :=
  let '(self, outbox) := st in
  if decide (kind m = "OBS"%string) then
    let t := tick (payload m) in
    let f := from (payload m) in
    if decide ((t, f) ∈ seen self) then (self, outbox)
    else (record_obs self t f (entry_of m), outbox ++ [m])
  else (self, outbox).

(** The [while] loop of [process_messages]: it runs until the inbox is
    empty, and nothing is put into the inbox meanwhile ([gossip] is called
    after the loop). *)
Definition drain (self : Node) : Node * list Msg :=
  for_each handle (inbox self) (set_inbox self [], []).

Definition local_decision (self : Node) (t : nat) (min_quorum : Z)
    : option ConsensusResult :=
  local_decision_agg (agg self) t min_quorum.

(** *** The network *)

Abbreviation Net := (list Node).

Definition receive (self : Node) (m : Msg) : Node :=
  set_inbox self (inbox self ++ [m]).

(** [self.gossip(m)] for the node at position [i]. *)
Definition gossip (i : nat) (net : Net) (m : Msg) : Net :=
  gossip_with node_id peers receive i net m.

Definition measure_and_broadcast (net : Net) (i t : nat) : Net :=
  match net !! i with
  | None => net
  | Some self =>
      let '(self', out) := measure self t in
      for_each (gossip i) out (<[i := self']> net)
  end.

Definition process_messages (net : Net) (i : nat) : Net :=
  match net !! i with
  | None => net
  | Some self =>
      let '(self', outbox) := drain self in
      for_each (gossip i) outbox (<[i := self']> net)
  end.

(** *** Runs *)

(** What the driver (or anybody holding a node) can do: let node [i] measure
    for a tick, let it process its inbox, or put a message into its inbox. *)
Inductive Op :=
  | Measure (i t : nat)
  | Process (i : nat)
  | Deliver (i : nat) (m : Msg).

(** What an observer of a run sees. *)
Inductive Event :=
  | EvBroadcast (i : nat) (m : Msg)     (* gossip of the node's own observation *)
  | EvDrain (i : nat) (m : Msg)         (* [inbox.get()] returned [m] *)
  | EvRebroadcast (i : nat) (m : Msg).  (* gossip of a message of the outbox *)

Definition step (net : Net) (op : Op) : Net * list Event :=
  match op with
  | Measure i t =>
      (measure_and_broadcast net i t,
       match net !! i with
       | Some self => EvBroadcast i <$> (measure self t).2
       | None => []
       end)
  | Process i =>
      (process_messages net i,
       match net !! i with
       | Some self =>
           (EvDrain i <$> inbox self) ++ (EvRebroadcast i <$> (drain self).2)
       | None => []
       end)
  | Deliver i m =>
      (match net !! i with
       | Some self => <[i := receive self m]> net
       | None => net
       end, [])
  end.

Fixpoint run (ops : list Op) (net : Net) : Net * list Event :=
  match ops with
  | [] => (net, [])
  | op :: ops' =>
      let '(net1, tr1) := step net op in
      let '(net2, tr2) := run ops' net1 in
      (net2, tr1 ++ tr2)
  end.

(** The loop of [main] for one tick: every node measures, then [rounds]
    rounds in which every node processes its inbox. *)
Definition tick_ops (n rounds t : nat) : list Op :=
  ((λ i, Measure i t) <$> seq 0 n)
  ++ mjoin (replicate rounds (Process <$> seq 0 n)).

Definition main_ops (n rounds steps : nat) : list Op :=
  mjoin (tick_ops n rounds <$> seq 0 steps).

(** The nodes of [main]: node [i] owns camera [i], all connected to all. *)
Definition main_net (cams : list (bool * list (bool * option Frame))) (d0 : D) : Net :=
  imap (λ i c, connect (new_node i c.1 c.2 d0) (seq 0 (length cams))) cams.

(** *** One node seen from inside *)

(** Whatever the network does, a single node only ever measures, processes
    its inbox, or has a message put into its inbox. *)
Inductive LocalOp :=
  | LMeasure (t : nat)
  | LProcess
  | LReceive (m : Msg).

Inductive LocalEvent :=
  | LBroadcast (m : Msg)
  | LDrain (m : Msg)
  | LRebroadcast (m : Msg).

Definition local_step (n : Node) (a : LocalOp) : Node * list LocalEvent :=
  match a with
  | LMeasure t => ((measure n t).1, LBroadcast <$> (measure n t).2)
  | LProcess => ((drain n).1, (LDrain <$> inbox n) ++ (LRebroadcast <$> (drain n).2))
  | LReceive m => (receive n m, [])
  end.

Fixpoint local_run (l : list LocalOp) (n : Node) : Node * list LocalEvent :=
  match l with
  | [] => (n, [])
  | a :: l' =>
      let '(n1, tr1) := local_step n a in
      let '(n2, tr2) := local_run l' n1 in
      (n2, tr1 ++ tr2)
  end.

(** The events of node [i] among the events of a run. *)
Definition events_of (i : nat) (tr : list Event) : list LocalEvent :=
  omap (λ ev, match ev with
              | EvBroadcast j m => if decide (j = i) then Some (LBroadcast m) else None
              | EvDrain j m => if decide (j = i) then Some (LDrain m) else None
              | EvRebroadcast j m => if decide (j = i) then Some (LRebroadcast m) else None
              end) tr.

(** The keys of the [OBS] messages of a list. *)
Definition obs_keys (l : list Msg) : list (nat * nat) :=
  key_of <$> filter (λ m, kind m = "OBS"%string) l.

Definition l_broadcast_keys (tr : list LocalEvent) : list (nat * nat) :=
  omap (λ ev, match ev with LBroadcast m => Some (key_of m) | _ => None end) tr.

Definition l_drained_keys (tr : list LocalEvent) : list (nat * nat) :=
  omap (λ ev, match ev with
              | LDrain m => if decide (kind m = "OBS"%string) then Some (key_of m) else None
              | _ => None
              end) tr.

Definition l_rebroadcast_keys (tr : list LocalEvent) : list (nat * nat) :=
  omap (λ ev, match ev with LRebroadcast m => Some (key_of m) | _ => None end) tr.

Definition l_sent_keys (tr : list LocalEvent) : list (nat * nat) :=
  omap (λ ev, match ev with
              | LBroadcast m | LRebroadcast m => Some (key_of m)
              | _ => None
              end) tr.

(** The keys node [i] broadcast for itself, drained as [OBS] messages, and
    sent in either way, in a run. *)
Definition broadcast_keys (i : nat) (tr : list Event) : list (nat * nat) :=
  l_broadcast_keys (events_of i tr).
Definition drained_keys (i : nat) (tr : list Event) : list (nat * nat) :=
  l_drained_keys (events_of i tr).
Definition sent_keys (i : nat) (tr : list Event) : list (nat * nat) :=
  l_sent_keys (events_of i tr).
Definition rebroadcast_keys (i : nat) (tr : list Event) : list (nat * nat) :=
  l_rebroadcast_keys (events_of i tr).

(** Every entry of the aggregate sits under a key the node has recorded. *)
Definition agg_in_seen (n : Node) : Prop :=
  ∀ t f, is_Some (agg_get (agg n) t f) → (t, f) ∈ seen n.

(** Every recorded key has its entry in the aggregate. *)
Definition seen_in_agg (n : Node) : Prop :=
  ∀ t f, (t, f) ∈ seen n → is_Some (agg_get (agg n) t f).

(** What a stretch of a node's life, from [n] to [n'] with events [tr],
    keeps true. *)
Definition node_trans (n n' : Node) (tr : list LocalEvent) : Prop :=
  node_id n' = node_id n
  ∧ (ok n = false → ok n' = false)
  ∧ seen n' = seen n ∪ list_to_set (l_broadcast_keys tr)
                     ∪ list_to_set (l_drained_keys tr)
  ∧ NoDup (l_sent_keys tr)
  ∧ (∀ k, k ∈ l_sent_keys tr → k ∉ seen n)
  ∧ (∀ k, k ∈ l_sent_keys tr → k ∈ l_broadcast_keys tr ∨ k ∈ l_drained_keys tr)
  ∧ (agg_in_seen n →
     agg_in_seen n'
     ∧ ∀ t f e, agg_get (agg n) t f = Some e → agg_get (agg n') t f = Some e)
  ∧ (ok n = false → ∀ m, LBroadcast m ∈ tr → valid (payload m) = false)
  ∧ (seen_in_agg n → seen_in_agg n').

(** A node as its constructor leaves it. *)
Definition fresh (n : Node) : Prop := seen n = ∅ ∧ agg n = ∅ ∧ inbox n = [].

End Node.

Arguments Node : clear implicits.

(** ** The two detectors *)

Section Detectors.

(** OpenCV is outside the model: a gray image, the number of pixels whose
    difference between two gray images exceeds 30, the frame resized for
    speed and the rectangles the HOG detector finds are taken as given. *)
Context {Frame Gray Rect : Type}.
Variable cvtColor : Frame → Gray.
Variable motion_pixels : Gray → Gray → nat.
Variable resized : Frame → Frame.
Variable detectMultiScale : Frame → list Rect.

Definition motion_threshold : nat := 5000.

(** [prev_frame_gray] and [motion_accumulator]. *)
Definition MotionState : Type := option Gray * nat.

(** [detect_motion], event-based program. *)
Definition detect_motion (d : MotionState) (frame : Frame) : bool * nat * MotionState :=
  let gray := cvtColor frame in
  match d.1 with
  | None => (false, 0, (Some gray, d.2))
  | Some prev =>
      let acc := d.2 + motion_pixels gray prev in
      if bool_decide (motion_threshold ≤ acc)
      then (true, acc, (Some gray, 0))
      else (false, 0, (Some gray, acc))
  end.

(** [detect_people], HOG program. *)
Definition detect_people (d : unit) (frame : Frame) : bool * nat * unit :=
  let rects := detectMultiScale (resized frame) in
  let count := length rects in
  (bool_decide (0 < count), count, d).

End Detectors.

(** ** Notions used in the statements *)

Section Notions.

Context {Frame D : Type}.
Variable detect : D → Frame → bool * nat * D.

(** The node and the local [outbox] at the moment the loop of
    [process_messages] takes the message that follows [pre] out of the
    inbox. *)
Definition loop_state (self : Node Frame D) (pre : list Msg) : Node Frame D * list Msg :=
  for_each handle pre (set_inbox self [], []).

(** The message is taken in: its key recorded, the aggregate updated, and
    the message itself queued once for re-broadcast. *)
Definition accepted (st : Node Frame D * list Msg) (m : Msg) : Node Frame D * list Msg :=
  (record_obs st.1 (tick (payload m)) (from (payload m)) (entry_of m), st.2 ++ [m]).

(** [m], which follows [pre] in the inbox of node [i] after a run with
    events [tr], is the first [OBS] message with its key that the node
    takes out of its inbox. *)
Definition first_drained (i : nat) (tr : list Event) (pre : list Msg) (m : Msg) : Prop :=
  kind m = "OBS"%string
  ∧ (key_of m ∉ drained_keys i tr)
  ∧ (key_of m ∉ obs_keys pre).

(** "The first time a message with a key is drained, it is accepted", as a
    statement about all runs of freshly made nodes. *)
Definition first_drained_is_accepted : Prop :=
  ∀ (net0 : list (Node Frame D)) (ops : list Op) i self pre m post,
    Forall fresh net0 →
    (run detect ops net0).1 !! i = Some self →
    inbox self = pre ++ m :: post →
    first_drained i (run detect ops net0).2 pre m →
    handle (loop_state self pre) m = accepted (loop_state self pre) m.

(** A failed read marks the camera broken for the rest of the run: whatever
    happens after the failed [measure_and_broadcast], the flag stays false
    and every observation the node measures afterwards is invalid. *)
Definition failure_persists : Prop :=
  ∀ (net : list (Node Frame D)) (i t : nat) self,
    net !! i = Some self →
    ok self = true → next_frame (cap self) = None →
    ∀ ops : list Op,
      ∃ n1 n2,
        measure_and_broadcast detect net i t !! i = Some n1 ∧ ok n1 = false
        ∧ (run detect ops (measure_and_broadcast detect net i t)).1 !! i = Some n2
        ∧ ok n2 = false
        ∧ ∀ m, (EvBroadcast i m
                  ∈ (run detect ops (measure_and_broadcast detect net i t)).2) →
               valid (payload m) = false.

End Notions.

(** ** A small network to run *)

(** Cameras whose frame is the number of people in view; the detector finds
    one rectangle per person. *)
Definition count_people : unit → nat → bool * nat * unit :=
  detect_people (Rect := unit) (λ fr, fr) (λ fr, replicate fr ()).

(** Two nodes; the camera of node 0 delivers two frames, that of node 1 one
    frame and then fails. *)
Definition two_nodes : list (Node nat unit) :=
  main_net [(true, [(true, Some 2); (true, Some 0)]);
            (true, [(true, Some 1); (false, None)])] ().

(** ** Facts about one node *)

Section NodeFacts.

Context {Frame D : Type}.
Variable detect : D → Frame → bool * nat * D.

Implicit Types (n self : Node Frame D) (m : Msg) (out : list Msg).
Implicit Types (st : Node Frame D * list Msg) (k : nat * nat).

(** *** The aggregate *)

Lemma agg_get_set (a : gmap nat (gmap nat Entry)) t f e t' f' :
  agg_get (agg_set a t f e) t' f'
  = if decide ((t', f') = (t, f)) then Some e else agg_get a t' f'.
Proof.
  unfold agg_get, agg_set. destruct (decide (t' = t)) as [->|Ht].
  - rewrite lookup_insert_eq. simpl. destruct (decide (f' = f)) as [->|Hf].
    + rewrite lookup_insert_eq. by rewrite decide_True.
    + rewrite lookup_insert_ne by done. rewrite decide_False by congruence.
      destruct (a !! t); simpl; [done|]. by rewrite lookup_empty.
  - rewrite lookup_insert_ne by done. by rewrite decide_False by congruence.
Qed.

(** *** One turn of the loop *)

Lemma handle_seen self out m :
  key_of m ∈ seen self → handle (self, out) m = (self, out).
Proof.
  intros Hk. unfold handle. destruct (decide (kind m = _)); [|done].
  by rewrite decide_True.
Qed.

Lemma handle_not_obs self out m :
  kind m ≠ "OBS"%string → handle (self, out) m = (self, out).
Proof. intros Hk. unfold handle. by rewrite decide_False. Qed.

Lemma handle_accept self out m :
  kind m = "OBS"%string → key_of m ∉ seen self →
  handle (self, out) m
  = (record_obs self (tick (payload m)) (from (payload m)) (entry_of m), out ++ [m]).
Proof.
  intros Hk Hs. unfold handle. rewrite decide_True by done.
  by rewrite decide_False.
Qed.

Lemma handle_cases self out m :
  (handle (self, out) m = (self, out)
   ∧ (kind m ≠ "OBS"%string ∨ key_of m ∈ seen self))
  ∨ (handle (self, out) m
     = (record_obs self (tick (payload m)) (from (payload m)) (entry_of m), out ++ [m])
     ∧ kind m = "OBS"%string ∧ key_of m ∉ seen self).
Proof.
  destruct (decide (kind m = "OBS"%string)) as [Hk|Hk].
  - destruct (decide (key_of m ∈ seen self)) as [Hs|Hs].
    + left. split; [by apply handle_seen|by right].
    + right. split; [by apply handle_accept|done].
  - left. split; [by apply handle_not_obs|by left].
Qed.

Lemma handle_idem st m : handle (handle st m) m = handle st m.
Proof.
  destruct st as [self out].
  destruct (handle_cases self out m) as [[Heq _]|(-> & Hk & Hs)].
  - by rewrite !Heq.
  - apply handle_seen. simpl. unfold key_of. set_solver.
Qed.

(** *** The loop: what it leaves in the node and in the outbox *)

Lemma for_each_handle_cons m (l : list Msg) st :
  for_each handle (m :: l) st = for_each handle l (handle st m).
Proof. done. Qed.

Lemma for_each_handle_app (l1 l2 : list Msg) st :
  for_each handle (l1 ++ l2) st = for_each handle l2 (for_each handle l1 st).
Proof. unfold for_each. apply foldl_app. Qed.

Lemma obs_keys_cons m (l : list Msg) :
  obs_keys (m :: l)
  = if decide (kind m = "OBS"%string) then key_of m :: obs_keys l else obs_keys l.
Proof.
  unfold obs_keys. rewrite filter_cons. by destruct (decide (kind m = _)).
Qed.

Lemma handle_fold_seen (l : list Msg) self out :
  seen (for_each handle l (self, out)).1 = seen self ∪ list_to_set (obs_keys l).
Proof.
  revert self out. induction l as [|m l IH]; intros self out.
  - simpl. set_solver.
  - rewrite for_each_handle_cons, obs_keys_cons.
    destruct (handle_cases self out m) as [[-> Hc]|(-> & Hk & Hs)]; rewrite IH.
    + destruct (decide (kind m = _)); [|done].
      destruct Hc as [?|?]; [done|]. set_solver.
    + rewrite decide_True by done. simpl. unfold key_of. set_solver.
Qed.

(** The outbox gains the first message of every key that the node had not
    recorded, and nothing else. *)
Lemma handle_fold_outbox (l : list Msg) self out :
  ∃ new, (for_each handle l (self, out)).2 = out ++ new
         ∧ NoDup (key_of <$> new)
         ∧ (∀ k, k ∈ key_of <$> new ↔ k ∈ obs_keys l ∧ k ∉ seen self)
         ∧ new ⊆ l.
Proof.
  revert self out. induction l as [|m l IH]; intros self out.
  - exists []. simpl. rewrite (right_id_L [] (++)).
    split_and!; [done|constructor|set_solver|done].
  - rewrite for_each_handle_cons, obs_keys_cons.
    destruct (handle_cases self out m) as [[-> Hc]|(-> & Hk & Hs)].
    + destruct (IH self out) as (new & -> & Hnd & Hin & Hsub).
      exists new. split_and!; [done|done| |set_solver].
      intros k. rewrite Hin. destruct (decide (kind m = _)); [|done].
      destruct Hc as [?|?]; [done|]. set_solver.
    + destruct (IH (record_obs self (tick (payload m)) (from (payload m)) (entry_of m))
                  (out ++ [m])) as (new & -> & Hnd & Hin & Hsub).
      exists (m :: new). rewrite <-(assoc_L (++)). simpl.
      split_and!; [done| | |set_solver].
      * constructor; [|done]. rewrite Hin. simpl. unfold key_of.
        clear IH Hin. set_solver.
      * intros k. rewrite decide_True by done. rewrite elem_of_cons, Hin.
        simpl. unfold key_of in *. clear IH Hin Hnd Hsub.
        rewrite elem_of_cons, not_elem_of_union, elem_of_singleton.
        destruct (decide (k = (tick (payload m), from (payload m)))) as [->|];
          tauto.
Qed.

(** *** Fields the loop does not touch *)

Lemma record_obs_fields self t f e :
  node_id (record_obs self t f e) = node_id self
  ∧ ok (record_obs self t f e) = ok self
  ∧ cap (record_obs self t f e) = cap self
  ∧ det (record_obs self t f e) = det self
  ∧ peers (record_obs self t f e) = peers self
  ∧ inbox (record_obs self t f e) = inbox self.
Proof. done. Qed.

Lemma handle_fields self out m :
  let self' := (handle (self, out) m).1 in
  node_id self' = node_id self ∧ ok self' = ok self ∧ cap self' = cap self
  ∧ det self' = det self ∧ peers self' = peers self ∧ inbox self' = inbox self.
Proof.
  destruct (handle_cases self out m) as [[-> _]|(-> & _)]; simpl; done.
Qed.

Lemma handle_fold_fields (l : list Msg) self out :
  let self' := (for_each handle l (self, out)).1 in
  node_id self' = node_id self ∧ ok self' = ok self ∧ cap self' = cap self
  ∧ det self' = det self ∧ peers self' = peers self ∧ inbox self' = inbox self.
Proof.
  revert self out. induction l as [|m l IH]; intros self out; [done|].
  rewrite for_each_handle_cons.
  destruct (handle (self, out) m) as [s1 o1] eqn:Hh.
  pose proof (handle_fields self out m) as Hf. rewrite Hh in Hf. simpl in Hf.
  specialize (IH s1 o1). simpl in *.
  destruct Hf as (<- & <- & <- & <- & <- & <-). exact IH.
Qed.

(** *** The aggregate never holds an entry under a key that is not recorded,
    and an entry once written stays. *)

Lemma record_obs_agg self t f e :
  agg_in_seen self → (t, f) ∉ seen self →
  agg_in_seen (record_obs self t f e)
  ∧ ∀ t' f' e', agg_get (agg self) t' f' = Some e' →
               agg_get (agg (record_obs self t f e)) t' f' = Some e'.
Proof.
  intros Hinv Hk. split.
  - intros t' f'. simpl. rewrite agg_get_set.
    destruct (decide ((t', f') = (t, f))) as [[= -> ->]|Hne]; [set_solver|].
    intros Hs. apply Hinv in Hs. clear Hinv. set_solver.
  - intros t' f' e' Hg. simpl. rewrite agg_get_set.
    rewrite decide_False; [done|]. intros [= -> ->]. apply Hk, Hinv. by rewrite Hg.
Qed.

Lemma handle_agg self out m :
  agg_in_seen self →
  agg_in_seen (handle (self, out) m).1
  ∧ ∀ t f e, agg_get (agg self) t f = Some e →
             agg_get (agg (handle (self, out) m).1) t f = Some e.
Proof.
  intros Hinv.
  destruct (handle_cases self out m) as [[-> _]|(-> & _ & Hs)]; simpl; [done|].
  by apply record_obs_agg.
Qed.

Lemma handle_fold_agg (l : list Msg) self out :
  agg_in_seen self →
  agg_in_seen (for_each handle l (self, out)).1
  ∧ ∀ t f e, agg_get (agg self) t f = Some e →
             agg_get (agg (for_each handle l (self, out)).1) t f = Some e.
Proof.
  revert self out. induction l as [|m l IH]; intros self out Hinv; [done|].
  rewrite for_each_handle_cons.
  destruct (handle_agg self out m Hinv) as [Hinv1 Hkeep1].
  destruct (handle (self, out) m) as [s1 o1]. simpl in *.
  destruct (IH s1 o1 Hinv1) as [Hinv2 Hkeep2]. split; [done|].
  intros t f e Hg. by apply Hkeep2, Hkeep1.
Qed.

Lemma record_obs_seen_in_agg self t f e :
  seen_in_agg self → seen_in_agg (record_obs self t f e).
Proof.
  intros Hinv t' f'. simpl. rewrite agg_get_set.
  destruct (decide ((t', f') = (t, f))) as [|Hne]; [by eexists|].
  intros Hin. apply Hinv. clear Hinv. set_solver.
Qed.

Lemma handle_fold_seen_in_agg (l : list Msg) self out :
  seen_in_agg self → seen_in_agg (for_each handle l (self, out)).1.
Proof.
  revert self out. induction l as [|m l IH]; intros self out Hinv; [done|].
  rewrite for_each_handle_cons.
  destruct (handle_cases self out m) as [[-> _]|(-> & _)]; apply IH; [done|].
  by apply record_obs_seen_in_agg.
Qed.

(** *** Measuring *)

Lemma acquire_fields self :
  let self1 := (acquire detect self).1 in
  node_id self1 = node_id self ∧ peers self1 = peers self
  ∧ inbox self1 = inbox self ∧ seen self1 = seen self ∧ agg self1 = agg self
  ∧ (ok self = false → ok self1 = false).
Proof.
  cbv zeta. unfold acquire. destruct (ok self) eqn:Hok; [|by simpl].
  destruct (cap_read (cap self)) as [[okr frame] cap'].
  destruct okr, frame as [fr|]; try (by simpl).
  destruct (detect (det self) fr) as [[p c] d']. by simpl.
Qed.

(** Without a reading, the detector is not run, the reading is
    [(False, 0, False)], the node is marked broken, and the device was read
    once if it was thought to work and not at all otherwise. *)
Lemma acquire_no_reading self :
  no_reading self →
  (acquire detect self).2 = (false, 0, false)
  ∧ ok (acquire detect self).1 = false
  ∧ det (acquire detect self).1 = det self
  ∧ cap (acquire detect self).1
    = (if ok self then (cap_read (cap self)).2 else cap self).
Proof.
  unfold no_reading, next_frame, acquire. intros Hno.
  destruct (ok self) eqn:Hok; [|by simpl].
  destruct Hno as [?|Hno]; [done|].
  destruct (cap_read (cap self)) as [[okr frame] cap']. simpl in *.
  destruct okr, frame as [fr|]; by simpl.
Qed.

(** With a reading, it is what the detector says of the frame, and valid. *)
Lemma acquire_reading self fr :
  ok self = true → next_frame (cap self) = Some fr →
  (acquire detect self).2
  = ((detect (det self) fr).1.1, (detect (det self) fr).1.2, true)
  ∧ ok (acquire detect self).1 = true.
Proof.
  unfold next_frame, acquire. intros Hok Hfr. rewrite Hok.
  destruct (cap_read (cap self)) as [[okr frame] cap']. simpl in *.
  destruct okr, frame as [fr'|]; try done. injection Hfr as ->.
  destruct (detect (det self) fr) as [[p c] d']. by simpl.
Qed.

Lemma publish_cases self t r :
  (publish self t r = (self, []) ∧ (t, node_id self) ∈ seen self)
  ∨ (publish self t r
     = (record_obs self t (node_id self) r,
        [mkMsg "OBS"%string
           (mkPayload t (node_id self) (e_present r) (e_count r) (e_valid r))])
     ∧ (t, node_id self) ∉ seen self).
Proof.
  unfold publish. destruct (decide (_ ∈ _)); [by left|by right].
Qed.

Lemma measure_unfold self t :
  measure detect self t = publish (acquire detect self).1 t (acquire detect self).2.
Proof. unfold measure. by destruct (acquire detect self). Qed.

(** *** Keys of the events of one call *)

Lemma l_keys_drain (l : list Msg) :
  l_broadcast_keys (LDrain <$> l) = [] ∧ l_drained_keys (LDrain <$> l) = obs_keys l
  ∧ l_sent_keys (LDrain <$> l) = [] ∧ l_rebroadcast_keys (LDrain <$> l) = [].
Proof.
  induction l as [|m l (IH1 & IH2 & IH3 & IH4)]; [done|].
  rewrite obs_keys_cons.
  unfold l_broadcast_keys, l_drained_keys, l_sent_keys, l_rebroadcast_keys in *.
  csimpl. rewrite IH1, IH2, IH3, IH4. by destruct (decide (kind m = _)).
Qed.

Lemma l_keys_rebroadcast (l : list Msg) :
  l_broadcast_keys (LRebroadcast <$> l) = []
  ∧ l_drained_keys (LRebroadcast <$> l) = []
  ∧ l_sent_keys (LRebroadcast <$> l) = key_of <$> l
  ∧ l_rebroadcast_keys (LRebroadcast <$> l) = key_of <$> l.
Proof.
  induction l as [|m l (IH1 & IH2 & IH3 & IH4)]; [done|].
  unfold l_broadcast_keys, l_drained_keys, l_sent_keys, l_rebroadcast_keys in *.
  csimpl. by rewrite IH1, IH2, IH3, IH4.
Qed.

Lemma l_keys_app (tr1 tr2 : list LocalEvent) :
  l_broadcast_keys (tr1 ++ tr2) = l_broadcast_keys tr1 ++ l_broadcast_keys tr2
  ∧ l_drained_keys (tr1 ++ tr2) = l_drained_keys tr1 ++ l_drained_keys tr2
  ∧ l_sent_keys (tr1 ++ tr2) = l_sent_keys tr1 ++ l_sent_keys tr2
  ∧ l_rebroadcast_keys (tr1 ++ tr2)
    = l_rebroadcast_keys tr1 ++ l_rebroadcast_keys tr2.
Proof.
  unfold l_broadcast_keys, l_drained_keys, l_sent_keys, l_rebroadcast_keys.
  by rewrite !omap_app.
Qed.

(** *** [node_trans] holds along every local run *)

Lemma node_trans_refl n : node_trans n n [].
Proof.
  unfold node_trans. simpl. split_and!; try done.
  - set_solver.
  - constructor.
  - set_solver.
  - set_solver.
  - set_solver.
Qed.

Lemma node_trans_trans n n1 n2 tr1 tr2 :
  node_trans n n1 tr1 → node_trans n1 n2 tr2 → node_trans n n2 (tr1 ++ tr2).
Proof.
  intros (Hid1 & Hok1 & Hs1 & Hnd1 & Hfresh1 & Hin1 & Hagg1 & Hv1 & Hsa1)
         (Hid2 & Hok2 & Hs2 & Hnd2 & Hfresh2 & Hin2 & Hagg2 & Hv2 & Hsa2).
  destruct (l_keys_app tr1 tr2) as (Hb & Hd & Hsent & _).
  unfold node_trans. rewrite Hb, Hd, Hsent, !list_to_set_app_L.
  assert (∀ k, k ∈ l_sent_keys tr1 → k ∈ seen n1) as Hseen1.
  { intros k Hk. rewrite Hs1. destruct (Hin1 k Hk); set_solver. }
  split_and!.
  - congruence.
  - auto.
  - rewrite Hs2, Hs1. clear. set_solver.
  - apply NoDup_app. split_and!; [done| |done].
    intros k Hk1 Hk2. by apply (Hfresh2 k Hk2), Hseen1.
  - intros k [Hk|Hk]%elem_of_app; [by apply Hfresh1|].
    apply Hfresh2 in Hk. rewrite Hs1 in Hk. clear -Hk. set_solver.
  - intros k [Hk|Hk]%elem_of_app.
    + destruct (Hin1 k Hk); [left|right]; apply elem_of_app; by left.
    + destruct (Hin2 k Hk); [left|right]; apply elem_of_app; by right.
  - intros Ha. destruct (Hagg1 Ha) as [Ha1 Hk1].
    destruct (Hagg2 Ha1) as [Ha2 Hk2]. split; [done|].
    intros t f e Hg. by apply Hk2, Hk1.
  - intros Hok m [Hm|Hm]%elem_of_app; [by apply Hv1|]. apply Hv2; auto.
  - auto.
Qed.

Lemma node_trans_receive n m : node_trans n (receive n m) [].
Proof.
  unfold node_trans. simpl. split_and!; try done.
  - set_solver.
  - constructor.
  - set_solver.
  - set_solver.
  - set_solver.
Qed.

Lemma node_trans_process n :
  node_trans n (drain n).1 ((LDrain <$> inbox n) ++ (LRebroadcast <$> (drain n).2)).
Proof.
  unfold drain.
  pose proof (handle_fold_fields (inbox n) (set_inbox n []) []) as Hf.
  pose proof (handle_fold_seen (inbox n) (set_inbox n []) []) as Hs.
  destruct (handle_fold_outbox (inbox n) (set_inbox n []) [])
    as (new & Hout & Hnd & Hin & _).
  pose proof (handle_fold_agg (inbox n) (set_inbox n []) []) as Ha.
  pose proof (handle_fold_seen_in_agg (inbox n) (set_inbox n []) []) as Hsia.
  destruct (for_each handle (inbox n) (set_inbox n [], [])) as [n' out].
  simpl in *. subst out.
  destruct Hf as (Hid & Hok & _).
  destruct (l_keys_app (LDrain <$> inbox n) (LRebroadcast <$> new))
    as (Hb & Hd & Hsent & _).
  destruct (l_keys_drain (inbox n)) as (Hb1 & Hd1 & Hs1 & _).
  destruct (l_keys_rebroadcast new) as (Hb2 & Hd2 & Hs2 & _).
  unfold node_trans.
  rewrite Hb, Hd, Hsent, Hb1, Hd1, Hs1, Hb2, Hd2, Hs2. simpl.
  rewrite (right_id_L [] (++)).
  split_and!.
  - done.
  - congruence.
  - rewrite Hs. clear. set_solver.
  - done.
  - intros k Hk. by apply Hin.
  - intros k Hk. right. by apply Hin.
  - intros Hinv. by apply Ha.
  - intros _ m [Hm|Hm]%elem_of_app;
      apply list_elem_of_fmap in Hm as (x & Hx & _); done.
  - intros Hsa. by apply Hsia.
Qed.

Lemma node_trans_measure n t :
  node_trans n (measure detect n t).1 (LBroadcast <$> (measure detect n t).2).
Proof.
  rewrite measure_unfold.
  destruct (acquire_fields n) as (Hid & _ & _ & Hseen & Hagg & Hok).
  assert (ok n = false → (acquire detect n).2 = (false, 0, false)) as Hinv.
  { intros Hn. apply acquire_no_reading. by left. }
  destruct (acquire detect n) as [n1 r]. simpl in *.
  assert (agg_in_seen n → agg_in_seen n1) as Hai.
  { unfold agg_in_seen. by rewrite Hseen, Hagg. }
  destruct (publish_cases n1 t r) as [[-> Hk]|[-> Hk]]; simpl.
  - unfold node_trans. simpl. split_and!; try done.
    + rewrite Hseen. clear. set_solver.
    + constructor.
    + set_solver.
    + set_solver.
    + intros Ha. split; [auto|]. by rewrite Hagg.
    + set_solver.
    + unfold seen_in_agg. by rewrite Hseen, Hagg.
  - unfold node_trans. simpl. unfold key_of. simpl. split_and!; try done.
    + rewrite Hseen. clear. set_solver.
    + apply NoDup_singleton.
    + intros k ->%list_elem_of_singleton. by rewrite <-Hseen.
    + intros k Hk'. by left.
    + intros Ha. destruct (record_obs_agg n1 t (node_id n1) r (Hai Ha) Hk) as [? Hkeep].
      split; [done|]. intros t' f' e' Hg. apply Hkeep. by rewrite Hagg.
    + intros Hn m [= ->]%list_elem_of_singleton. simpl. by rewrite (Hinv Hn).
    + intros Hsa. apply record_obs_seen_in_agg.
      unfold seen_in_agg. by rewrite Hseen, Hagg.
Qed.

Lemma local_step_trans n a :
  node_trans n (local_step detect n a).1 (local_step detect n a).2.
Proof.
  destruct a as [t| |m]; simpl.
  - apply node_trans_measure.
  - apply node_trans_process.
  - apply node_trans_receive.
Qed.

Lemma local_run_trans (l : list LocalOp) n :
  node_trans n (local_run detect l n).1 (local_run detect l n).2.
Proof.
  revert n. induction l as [|a l IH]; intros n; simpl.
  - apply node_trans_refl.
  - pose proof (local_step_trans n a) as H1.
    destruct (local_step detect n a) as [n1 tr1].
    pose proof (IH n1) as H2.
    destruct (local_run detect l n1) as [n2 tr2]. simpl in *.
    by eapply node_trans_trans.
Qed.

(** ** Facts about the network *)

Implicit Types (net : list (Node Frame D)).

Lemma local_run_app (l1 l2 : list LocalOp) n :
  local_run detect (l1 ++ l2) n
  = ((local_run detect l2 (local_run detect l1 n).1).1,
     (local_run detect l1 n).2 ++ (local_run detect l2 (local_run detect l1 n).1).2).
Proof.
  revert n. induction l1 as [|a l1 IH]; intros n; simpl.
  - by destruct (local_run detect l2 n).
  - destruct (local_step detect n a) as [n1 tr1]. rewrite IH.
    destruct (local_run detect l1 n1) as [n2 tr2]. simpl.
    destruct (local_run detect l2 n2) as [n3 tr3]. simpl.
    by rewrite (assoc_L (++)).
Qed.

Lemma local_run_receives (ms : list Msg) n :
  local_run detect (LReceive <$> ms) n = (foldl receive n ms, []).
Proof.
  revert n. induction ms as [|m ms IH]; intros n; [done|].
  csimpl. by rewrite IH.
Qed.

(** *** Every run is, for each node, a local run of that node *)

Lemma events_of_app i (tr1 tr2 : list Event) :
  events_of i (tr1 ++ tr2) = events_of i tr1 ++ events_of i tr2.
Proof. unfold events_of. apply omap_app. Qed.

Lemma events_of_fmap i j (c : nat → Msg → Event) (lc : Msg → LocalEvent)
    (l : list Msg) :
  (∀ m, events_of i [c j m] = if decide (j = i) then [lc m] else []) →
  events_of i (c j <$> l) = if decide (j = i) then lc <$> l else [].
Proof.
  intros Hc. induction l as [|m l IH]; [by destruct (decide (j = i))|].
  change (c j <$> m :: l) with ([c j m] ++ (c j <$> l)).
  rewrite events_of_app, Hc, IH. by destruct (decide (j = i)).
Qed.

Lemma step_project net op i n :
  net !! i = Some n →
  ∃ lops, (step detect net op).1 !! i = Some (local_run detect lops n).1
          ∧ events_of i (step detect net op).2 = (local_run detect lops n).2.
Proof.
  intros Hn. destruct op as [j t|j|j m]; simpl.
  - unfold measure_and_broadcast.
    destruct (net !! j) as [self|] eqn:Hself; [|by exists []].
    destruct (measure detect self t) as [self' out] eqn:Hm. simpl.
    rewrite (events_of_fmap i j EvBroadcast LBroadcast)
      by (intros; unfold events_of; simpl; by destruct (decide (j = i))).
    destruct (decide (j = i)) as [->|Hji].
    + assert (self = n) as -> by congruence.
      destruct (gossips_lookup node_id peers receive i out (<[i := self']> net) i self')
        as (ms & Hl & Hi).
      { apply list_lookup_insert_eq. by eapply lookup_lt_Some. }
      rewrite (Hi eq_refl) in Hl. exists [LMeasure t]. simpl.
      rewrite Hm. simpl. by rewrite (right_id_L [] (++)).
    + destruct (gossips_lookup node_id peers receive j out (<[j := self']> net) i n)
        as (ms & Hl & _).
      { by rewrite list_lookup_insert_ne. }
      exists (LReceive <$> ms). by rewrite local_run_receives.
  - unfold process_messages.
    destruct (net !! j) as [self|] eqn:Hself; [|by exists []].
    destruct (drain self) as [self' out] eqn:Hd. simpl.
    rewrite events_of_app.
    rewrite (events_of_fmap i j EvDrain LDrain)
      by (intros; unfold events_of; simpl; by destruct (decide (j = i))).
    rewrite (events_of_fmap i j EvRebroadcast LRebroadcast)
      by (intros; unfold events_of; simpl; by destruct (decide (j = i))).
    destruct (decide (j = i)) as [->|Hji].
    + assert (self = n) as -> by congruence.
      destruct (gossips_lookup node_id peers receive i out (<[i := self']> net) i self')
        as (ms & Hl & Hi).
      { apply list_lookup_insert_eq. by eapply lookup_lt_Some. }
      rewrite (Hi eq_refl) in Hl. exists [LProcess]. simpl.
      rewrite Hd. simpl. by rewrite (right_id_L [] (++)).
    + destruct (gossips_lookup node_id peers receive j out (<[j := self']> net) i n)
        as (ms & Hl & _).
      { by rewrite list_lookup_insert_ne. }
      exists (LReceive <$> ms). by rewrite local_run_receives.
  - destruct (net !! j) as [self|] eqn:Hself; [|by exists []].
    destruct (decide (j = i)) as [->|Hji].
    + assert (self = n) as -> by congruence.
      exists [LReceive m]. simpl.
      by rewrite list_lookup_insert_eq by (by eapply lookup_lt_Some).
    + exists []. simpl. by rewrite list_lookup_insert_ne.
Qed.

Lemma run_project (ops : list Op) net i n :
  net !! i = Some n →
  ∃ lops, (run detect ops net).1 !! i = Some (local_run detect lops n).1
          ∧ events_of i (run detect ops net).2 = (local_run detect lops n).2.
Proof.
  revert net n. induction ops as [|op ops IH]; intros net n Hn; simpl.
  { by exists []. }
  destruct (step_project net op i n Hn) as (l1 & Hn1 & Htr1).
  destruct (step detect net op) as [net1 tr1]. simpl in *.
  destruct (IH net1 _ Hn1) as (l2 & Hn2 & Htr2).
  destruct (run detect ops net1) as [net2 tr2]. simpl in *.
  exists (l1 ++ l2). rewrite local_run_app. simpl.
  by rewrite events_of_app, Htr1, Htr2.
Qed.

(** Hence [node_trans] holds for every node along every run. *)
Lemma run_node_trans (ops : list Op) net i n :
  net !! i = Some n →
  ∃ n', (run detect ops net).1 !! i = Some n'
        ∧ node_trans n n' (events_of i (run detect ops net).2).
Proof.
  intros Hn. destruct (run_project ops net i n Hn) as (lops & Hl & Htr).
  eexists. split; [done|]. rewrite Htr. apply local_run_trans.
Qed.

Lemma step_length net op : length (step detect net op).1 = length net.
Proof.
  destruct op as [j t|j|j m]; simpl.
  - unfold measure_and_broadcast. destruct (net !! j) as [self|]; [|done].
    destruct (measure detect self t) as [self' out].
    unfold gossip. by rewrite gossips_length, length_insert.
  - unfold process_messages. destruct (net !! j) as [self|]; [|done].
    destruct (drain self) as [self' out].
    unfold gossip. by rewrite gossips_length, length_insert.
  - destruct (net !! j); [apply length_insert|done].
Qed.

Lemma run_length (ops : list Op) net : length (run detect ops net).1 = length net.
Proof.
  revert net. induction ops as [|op ops IH]; intros net; simpl; [done|].
  pose proof (step_length net op) as H1.
  destruct (step detect net op) as [net1 tr1].
  specialize (IH net1). destruct (run detect ops net1) as [net2 tr2].
  simpl in *. congruence.
Qed.

(** A node that is there after a run was there before it. *)
Lemma run_lookup_inv (ops : list Op) net i n' :
  (run detect ops net).1 !! i = Some n' →
  ∃ n, net !! i = Some n ∧ node_trans n n' (events_of i (run detect ops net).2).
Proof.
  intros Hn'. destruct (net !! i) as [n|] eqn:Hn.
  - destruct (run_node_trans ops net i n Hn) as (n'' & Hl & Ht).
    exists n. split; [done|]. congruence.
  - apply lookup_lt_Some in Hn'. apply lookup_ge_None in Hn.
    rewrite run_length in Hn'. lia.
Qed.

Lemma fresh_agg_in_seen n : fresh n → agg_in_seen n.
Proof.
  intros (_ & Ha & _) t f. unfold agg_get. rewrite Ha, lookup_empty. simpl.
  by intros [? ?].
Qed.

Lemma fresh_seen_in_agg n : fresh n → seen_in_agg n.
Proof. intros (Hs & _) t f. rewrite Hs. set_solver. Qed.

Lemma inbox_receives (ms : list Msg) n : inbox (foldl receive n ms) = inbox n ++ ms.
Proof.
  revert n. induction ms as [|m ms IH]; intros n; simpl.
  - by rewrite (right_id_L [] (++)).
  - rewrite IH. simpl. by rewrite <-(assoc_L (++)).
Qed.

Lemma gossip_delivers i net m self p q :
  net !! i = Some self → net !! p = Some q →
  p ∈ peers self → node_id q ≠ node_id self →
  ∃ q', gossip i net m !! p = Some q' ∧ m ∈ inbox q'.
Proof.
  intros Hself Hq Hp Hne.
  destruct (gossip_delivers_with node_id peers receive i net m self p q)
    as (ms & Hl & Hin); try done.
  eexists. split; [exact Hl|].
  rewrite inbox_receives. apply elem_of_app. by right.
Qed.

Lemma l_rebroadcast_sublist (tr : list LocalEvent) :
  l_rebroadcast_keys tr `sublist_of` l_sent_keys tr.
Proof.
  unfold l_rebroadcast_keys, l_sent_keys.
  induction tr as [|[m|m|m] tr IH]; csimpl; [constructor| |done|].
  - by apply sublist_cons.
  - by apply sublist_skip.
Qed.

Lemma elem_of_events_broadcast i (tr : list Event) m :
  EvBroadcast i m ∈ tr → LBroadcast m ∈ events_of i tr.
Proof.
  intros Hm. unfold events_of. apply list_elem_of_omap.
  exists (EvBroadcast i m). split; [done|]. by rewrite decide_True.
Qed.

(** After a run of freshly made nodes, a node has recorded exactly the keys
    it broadcast for itself and the keys of the [OBS] messages it took out of
    its inbox. *)
Lemma run_seen (ops : list Op) net0 i n :
  Forall fresh net0 →
  (run detect ops net0).1 !! i = Some n →
  ∀ k, k ∈ seen n ↔ k ∈ broadcast_keys i (run detect ops net0).2
                    ∨ k ∈ drained_keys i (run detect ops net0).2.
Proof.
  intros Hfresh Hn k.
  destruct (run_lookup_inv ops net0 i n Hn) as (n0 & Hn0 & Ht).
  destruct Ht as (_ & _ & Hs & _).
  rewrite Forall_lookup in Hfresh. destruct (Hfresh i n0 Hn0) as (Hs0 & _).
  rewrite Hs, Hs0. unfold broadcast_keys, drained_keys. clear. set_solver.
Qed.

End NodeFacts.

(** ** Deduplication, aggregation and failed measurements *)

Section NodeClaims.

Context {Frame D : Type}.
Variable detect : D → Frame → bool * nat * D.

Implicit Types (n self : Node Frame D) (m : Msg) (out : list Msg).
Implicit Types (st : Node Frame D * list Msg) (net : list (Node Frame D)).

Lemma step_events_none net op i :
  net !! i = None → events_of i (step detect net op).2 = [].
Proof.
  intros Hi. destruct op as [j t|j|j m]; simpl; [| |done].
  - destruct (net !! j) as [self|] eqn:Hj; [|done].
    rewrite (events_of_fmap i j EvBroadcast LBroadcast)
      by (intros; unfold events_of; simpl; by destruct (decide (j = i))).
    rewrite decide_False; [done|]. congruence.
  - destruct (net !! j) as [self|] eqn:Hj; [|done].
    rewrite events_of_app.
    rewrite (events_of_fmap i j EvDrain LDrain)
      by (intros; unfold events_of; simpl; by destruct (decide (j = i))).
    rewrite (events_of_fmap i j EvRebroadcast LRebroadcast)
      by (intros; unfold events_of; simpl; by destruct (decide (j = i))).
    by destruct (decide (j = i)) as [->|]; [congruence|].
Qed.

Lemma run_events_none (ops : list Op) net i :
  net !! i = None → events_of i (run detect ops net).2 = [].
Proof.
  revert net. induction ops as [|op ops IH]; intros net Hi; simpl; [done|].
  pose proof (step_events_none net op i Hi) as H1.
  pose proof (step_length detect net op) as Hl.
  destruct (step detect net op) as [net1 tr1]. simpl in *.
  assert (net1 !! i = None) as Hi1.
  { apply lookup_ge_None. apply lookup_ge_None in Hi. lia. }
  specialize (IH net1 Hi1). destruct (run detect ops net1) as [net2 tr2].
  simpl in *. by rewrite events_of_app, H1, IH.
Qed.

Lemma run_sent_NoDup (ops : list Op) net i : NoDup (sent_keys i (run detect ops net).2).
Proof.
  unfold sent_keys. destruct (net !! i) as [n|] eqn:Hn.
  - destruct (run_node_trans detect ops net i n Hn) as (n' & _ & Ht).
    by destruct Ht as (_ & _ & _ & Hnd & _).
  - rewrite run_events_none by done. constructor.
Qed.

Lemma loop_state_seen self (pre : list Msg) :
  seen (loop_state self pre).1 = seen self ∪ list_to_set (obs_keys pre).
Proof. unfold loop_state. by rewrite handle_fold_seen. Qed.

(** C1, as the code has it.  Over a run of freshly made nodes, a node sends
    (broadcasts for itself or re-broadcasts) no key twice.  When the loop of
    [process_messages] takes an [OBS] message out of the inbox and it is the
    first with its key to be taken out, the message is accepted (key
    recorded, aggregate updated, one copy queued for re-broadcast), provided
    the key is not that of an observation the node measured itself; every
    message whose key was drained before, or measured by the node itself, is
    dropped and changes nothing. *)
Theorem rebroadcast_at_most_once (net0 : list (Node Frame D)) (ops : list Op) (i : nat) :
  Forall fresh net0 →
  let net := (run detect ops net0).1 in
  let tr := (run detect ops net0).2 in
  NoDup (rebroadcast_keys i tr)
  ∧ NoDup (sent_keys i tr)
  ∧ ∀ self pre m post,
      net !! i = Some self → inbox self = pre ++ m :: post →
      let st := loop_state self pre in
      (first_drained i tr pre m → key_of m ∉ broadcast_keys i tr →
       handle st m = accepted st m)
      ∧ (key_of m ∈ drained_keys i tr ∨ key_of m ∈ obs_keys pre
         ∨ key_of m ∈ broadcast_keys i tr →
         handle st m = st).
Proof.
  intros Hfresh net tr.
  pose proof (run_sent_NoDup ops net0 i) as Hnd. fold tr in Hnd.
  split_and!.
  - unfold rebroadcast_keys.
    exact (sublist_NoDup _ _ Hnd (l_rebroadcast_sublist _)).
  - done.
  - intros self pre m post Hself Hinbox st.
    pose proof (run_seen detect ops net0 i self Hfresh Hself) as Hseen.
    fold tr in Hseen.
    pose proof (loop_state_seen self pre) as Hst.
    destruct (loop_state self pre) as [s1 o1] eqn:Hls. subst st. simpl in Hst.
    split.
    + intros (Hk & Hd & Hp) Hb. unfold accepted. simpl.
      apply handle_accept; [done|]. rewrite Hst, not_elem_of_union, Hseen.
      split; [tauto|]. by rewrite elem_of_list_to_set.
    + intros Hor. apply handle_seen. rewrite Hst, elem_of_union, Hseen.
      rewrite elem_of_list_to_set. tauto.
Qed.

(** C2. Handling a message twice leaves the node (and the outbox) as
    handling it once does, also when other messages come in between; a
    message whose key is recorded changes nothing, whatever it carries, and
    so does a second measurement for a tick the node has measured; an
    accepted message puts its own entry under its key; over any run of
    freshly made nodes the aggregate holds an entry exactly for the recorded
    keys, and an entry, once in the aggregate, stays as it is. *)
Theorem merge_idempotent :
  (∀ st m, handle (handle st m) m = handle st m)
  ∧ (∀ st m (l1 l2 : list Msg),
       for_each handle (l1 ++ m :: l2 ++ [m]) st = for_each handle (l1 ++ m :: l2) st)
  ∧ (∀ self out m, key_of m ∈ seen self → handle (self, out) m = (self, out))
  ∧ (∀ self t r r', publish (publish self t r).1 t r' = ((publish self t r).1, []))
  ∧ (∀ self out m,
       kind m = "OBS"%string → key_of m ∉ seen self →
       agg_get (agg (handle (self, out) m).1) (tick (payload m)) (from (payload m))
       = Some (entry_of m))
  ∧ (∀ net0 (ops : list Op) i n t f,
       Forall fresh net0 →
       (run detect ops net0).1 !! i = Some n →
       is_Some (agg_get (agg n) t f) ↔ (t, f) ∈ seen n)
  ∧ (∀ net0 (ops ops' : list Op) i n t f e,
       Forall fresh net0 →
       (run detect ops net0).1 !! i = Some n →
       agg_get (agg n) t f = Some e →
       ∃ n', (run detect ops' (run detect ops net0).1).1 !! i = Some n'
             ∧ agg_get (agg n') t f = Some e).
Proof.
  split_and!.
  - apply handle_idem.
  - intros [self out] m l1 l2.
    change (l1 ++ m :: l2 ++ [m]) with (l1 ++ (m :: l2) ++ [m]).
    rewrite (assoc_L (++) l1 (m :: l2) [m]), for_each_handle_app.
    pose proof (handle_fold_seen (l1 ++ m :: l2) self out) as Hs.
    destruct (for_each handle (l1 ++ m :: l2) (self, out)) as [s1 o1].
    simpl in Hs. change (for_each handle [m] (s1, o1)) with (handle (s1, o1) m).
    destruct (decide (kind m = "OBS"%string)) as [Hk|Hk].
    + apply handle_seen. rewrite Hs. apply elem_of_union. right.
      apply elem_of_list_to_set. unfold obs_keys.
      apply list_elem_of_fmap_2, list_elem_of_filter. split; [done|].
      set_solver.
    + by apply handle_not_obs.
  - apply handle_seen.
  - intros self t r r'.
    destruct (publish_cases self t r) as [[-> Hk]|[-> Hk]]; simpl.
    + unfold publish. by rewrite decide_True.
    + unfold publish. simpl. rewrite decide_True; [done|set_solver].
  - intros self out m Hk Hs. rewrite handle_accept by done. simpl.
    rewrite agg_get_set. by rewrite decide_True.
  - intros net0 ops i n t f Hfresh Hn.
    destruct (run_lookup_inv detect ops net0 i n Hn) as (n0 & Hn0 & Ht).
    rewrite Forall_lookup in Hfresh. specialize (Hfresh i n0 Hn0).
    destruct Ht as (_ & _ & _ & _ & _ & _ & Hagg & _ & Hsa).
    split.
    + by apply Hagg, fresh_agg_in_seen.
    + by apply Hsa, fresh_seen_in_agg.
  - intros net0 ops ops' i n t f e Hfresh Hn Hg.
    destruct (run_lookup_inv detect ops net0 i n Hn) as (n0 & Hn0 & Ht).
    rewrite Forall_lookup in Hfresh.
    pose proof (fresh_agg_in_seen _ (Hfresh i n0 Hn0)) as Ha0.
    destruct Ht as (_ & _ & _ & _ & _ & _ & Hagg & _).
    destruct (Hagg Ha0) as [Ha _].
    destruct (run_node_trans detect ops' _ i n Hn) as (n' & Hn' & Ht').
    destruct Ht' as (_ & _ & _ & _ & _ & _ & Hagg' & _).
    destruct (Hagg' Ha) as [_ Hkeep]. exists n'. split; [done|]. by apply Hkeep.
Qed.

(** C9. When the source gives no reading, [measure_and_broadcast] reads the
    device once at most (not at all when the camera is already marked
    broken), does not run the detector, and hands the reading
    [(False, 0, False)] to the same code a valid reading goes through: if
    the key [(tick, node_id)] is recorded nothing happens, otherwise the key
    is recorded, the entry stored and one [OBS] message with [valid = False],
    [present = False], [count = 0] is put into the inbox of every peer that
    has another id. *)
Theorem failed_reading_is_data (self : Node Frame D) (t : nat) :
  no_reading self →
  let self' := (measure detect self t).1 in
  let out := (measure detect self t).2 in
  let obs := mkMsg "OBS"%string (mkPayload t (node_id self) false 0 false) in
  cap self' = (if ok self then (cap_read (cap self)).2 else cap self)
  ∧ det self' = det self
  ∧ ok self' = false
  ∧ measure detect self t = publish (acquire detect self).1 t (false, 0, false)
  ∧ (∀ self2 fr,
       ok self2 = true → next_frame (cap self2) = Some fr →
       measure detect self2 t
       = publish (acquire detect self2).1 t
           ((detect (det self2) fr).1.1, (detect (det self2) fr).1.2, true))
  ∧ ((t, node_id self) ∈ seen self →
     out = [] ∧ seen self' = seen self ∧ agg self' = agg self)
  ∧ ((t, node_id self) ∉ seen self →
     out = [obs]
     ∧ seen self' = {[(t, node_id self)]} ∪ seen self
     ∧ agg_get (agg self') t (node_id self) = Some (false, 0, false)
     ∧ ∀ net i p q,
         net !! i = Some self → p ∈ peers self → net !! p = Some q →
         node_id q ≠ node_id self →
         ∃ q', measure_and_broadcast detect net i t !! p = Some q'
               ∧ obs ∈ inbox q').
Proof.
  intros Hno self' out obs.
  destruct (acquire_no_reading detect self Hno) as (Hr & Hok & Hdet & Hcap).
  destruct (acquire_fields detect self) as (Hid & Hpeers & _ & Hseen & Hagg & _).
  assert (measure detect self t = publish (acquire detect self).1 t (false, 0, false))
    as Hm by (by rewrite measure_unfold, Hr).
  assert (∀ self2 fr,
            ok self2 = true → next_frame (cap self2) = Some fr →
            measure detect self2 t
            = publish (acquire detect self2).1 t
                ((detect (det self2) fr).1.1, (detect (det self2) fr).1.2, true))
    as Hvalid.
  { intros self2 fr Hok2 Hfr. rewrite measure_unfold.
    by destruct (acquire_reading detect self2 fr Hok2 Hfr) as [-> _]. }
  assert (publish (acquire detect self).1 t (false, 0, false)
          = (if decide ((t, node_id self) ∈ seen self)
             then ((acquire detect self).1, [])
             else (record_obs (acquire detect self).1 t (node_id self) (false, 0, false),
                   [obs]))) as Hpub.
  { unfold publish. by rewrite Hid, Hseen. }
  subst self' out. rewrite Hm, Hpub.
  destruct (decide ((t, node_id self) ∈ seen self)) as [Hk|Hk]; simpl.
  - split_and!; try done.
  - split_and!; try done.
    intros _. split_and!; [done|by rewrite Hseen| |].
    + rewrite agg_get_set. by rewrite decide_True.
    + intros net i p q Hself Hpeer Hq Hne.
      unfold measure_and_broadcast. rewrite Hself, Hm, Hpub.
      unfold for_each. simpl.
      assert (p ≠ i) as Hpi by (intros ->; congruence).
      eapply (gossip_delivers i (<[i:=_]> net) _ _ p q).
      * apply list_lookup_insert_eq. by eapply lookup_lt_Some.
      * by rewrite list_lookup_insert_ne.
      * simpl. by rewrite Hpeers.
      * simpl. by rewrite Hid.
Qed.

(** The flag [ok], once false, is never set again, whatever the detector. *)
Lemma failure_persists_any : failure_persists detect.
Proof.
  intros net i t self Hself Hok Hfr ops.
  assert (ok (measure detect self t).1 = false) as Hok1.
  { rewrite measure_unfold.
    destruct (acquire_no_reading detect self (or_intror Hfr)) as (_ & Ha & _).
    destruct (publish_cases (acquire detect self).1 t (acquire detect self).2)
      as [[-> _]|[-> _]]; done. }
  assert (measure_and_broadcast detect net i t !! i = Some (measure detect self t).1)
    as Hn1.
  { unfold measure_and_broadcast. rewrite Hself.
    destruct (measure detect self t) as [self' out]. simpl.
    destruct (gossips_lookup node_id peers receive i out (<[i := self']> net) i self')
        as (ms & Hl & Hi).
    { apply list_lookup_insert_eq. by eapply lookup_lt_Some. }
    by rewrite (Hi eq_refl) in Hl. }
  destruct (run_node_trans detect ops _ i _ Hn1) as (n2 & Hn2 & Ht).
  destruct Ht as (_ & Hokk & _ & _ & _ & _ & _ & Hv & _).
  exists (measure detect self t).1, n2. split_and!; try done.
  - by apply Hokk.
  - intros m Hm. apply Hv; [done|]. by apply elem_of_events_broadcast.
Qed.

End NodeClaims.

(** C10. In both camera programs: when a read fails, the node's [ok] flag
    becomes false and stays false through everything that follows, and every
    observation the node measures and broadcasts afterwards, in whatever
    tick, has [valid = False]. *)
Theorem camera_failure_persists {Frame Gray Rect : Type}
    (cvtColor : Frame → Gray) (motion_pixels : Gray → Gray → nat)
    (resized : Frame → Frame) (detectMultiScale : Frame → list Rect) :
  failure_persists (detect_motion cvtColor motion_pixels)
  ∧ failure_persists (detect_people resized detectMultiScale).
Proof.
  split.
  - apply (failure_persists_any (detect_motion cvtColor motion_pixels)).
  - apply (failure_persists_any (detect_people resized detectMultiScale)).
Qed.

(** *** The theorems at work on the two-node network *)

Lemma two_nodes_fresh : Forall fresh two_nodes.
Proof. repeat constructor. Qed.

(** Node 0 measures tick 0; node 1 processes its inbox and so sends the
    observation back to node 0. *)
Definition echo_ops : list Op := [Measure 0 0; Process 1].

Definition echo : Msg := mkMsg "OBS"%string (mkPayload 0 0 true 2 true).

(** Node 1 with its camera about to fail: after it measured tick 0. *)
Definition before_failure : list (Node nat unit) :=
  (run count_people [Measure 1 0] two_nodes).1.

(** A node whose camera never opened. *)
Definition never_opened : Node nat unit :=
  connect (new_node 1 false [] ()) [0; 1].

Lemma rebroadcast_at_most_once_witness :
  NoDup (rebroadcast_keys 1 (run count_people (main_ops 2 2 2) two_nodes).2).
Proof.
  apply (rebroadcast_at_most_once count_people two_nodes (main_ops 2 2 2) 1).
  exact two_nodes_fresh.
Defined.

(** C1 as stated fails on the copy of a node's own observation that comes
    back from a peer: it is the first message with its key that the node
    takes out of its inbox, and it is dropped, the key having been recorded
    when the node measured. *)
Lemma own_echo_is_dropped :
  (∃ self, (run count_people echo_ops two_nodes).1 !! 0 = Some self
           ∧ inbox self = [echo]
           ∧ first_drained 0 (run count_people echo_ops two_nodes).2 [] echo
           ∧ handle (loop_state self []) echo = loop_state self [])
  ∧ ¬ first_drained_is_accepted count_people.
Proof.
  assert (first_drained 0 (run count_people echo_ops two_nodes).2 [] echo) as Hfirst.
  { split_and!; [done|by_compute|by_compute]. }
  split.
  - eexists. split_and!; [by vm_compute|done|done|by vm_compute].
  - intros Hclaim.
    assert (∃ self, (run count_people echo_ops two_nodes).1 !! 0 = Some self
                    ∧ inbox self = [] ++ echo :: []
                    ∧ (handle (loop_state self []) echo).2 = [])
      as (self & Hself & Hinbox & Hout).
    { eexists. split_and!; [by vm_compute|done|by vm_compute]. }
    pose proof (Hclaim two_nodes echo_ops 0 self [] echo [] two_nodes_fresh
                  Hself Hinbox Hfirst) as Heq.
    rewrite Heq in Hout. discriminate Hout.
Qed.

Lemma merge_idempotent_witness :
  ∃ n', (run count_people (tick_ops 2 2 1)
           (run count_people (tick_ops 2 2 0) two_nodes).1).1 !! 1 = Some n'
        ∧ agg_get (agg n') 0 0 = Some (true, 2, true).
Proof.
  eapply (proj2 (proj2 (proj2 (proj2 (proj2 (proj2
            (merge_idempotent count_people))))))
            two_nodes (tick_ops 2 2 0) (tick_ops 2 2 1) 1).
  - exact two_nodes_fresh.
  - by vm_compute.
  - by vm_compute.
Defined.

Lemma failed_reading_is_data_witness :
  (measure count_people never_opened 3).2
  = [mkMsg "OBS"%string (mkPayload 3 1 false 0 false)]
  ∧ ok (measure count_people never_opened 3).1 = false.
Proof.
  split.
  - apply (failed_reading_is_data count_people never_opened 3); [by left|].
    by_compute.
  - apply (failed_reading_is_data count_people never_opened 3). by left.
Defined.

Lemma camera_failure_persists_witness :
  ∃ n1 n2,
    measure_and_broadcast count_people before_failure 1 1 !! 1 = Some n1
    ∧ ok n1 = false
    ∧ (run count_people (tick_ops 2 2 2)
         (measure_and_broadcast count_people before_failure 1 1)).1 !! 1 = Some n2
    ∧ ok n2 = false
    ∧ ∀ m, (EvBroadcast 1 m
              ∈ (run count_people (tick_ops 2 2 2)
                   (measure_and_broadcast count_people before_failure 1 1)).2) →
           valid (payload m) = false.
Proof.
  eapply (proj2 (camera_failure_persists (Gray := unit) (λ _, ()) (λ _ _, 0)
                   (λ fr : nat, fr) (λ fr, replicate fr ()))
            before_failure 1 1).
  - by vm_compute.
  - by vm_compute.
  - by vm_compute.
Defined.

(** ** Facts about the local decision *)

Section DecisionFacts.

Implicit Types (snap extra : gmap nat Entry) (q : Z) (e : Entry).

Lemma filter_Permutation (f : Entry → bool) (l l' : list Entry) :
  l ≡ₚ l' → List.filter f l ≡ₚ List.filter f l'.
Proof.
  induction 1 as [|x l l' _ IH|x y l|l l' l'' _ IH1 _ IH2]; simpl.
  - done.
  - destruct (f x); by rewrite IH.
  - destruct (f x), (f y); try done. apply perm_swap.
  - by etrans.
Qed.

Lemma decide_values_perm (l l' : list Entry) q :
  l ≡ₚ l' → decide_values l q = decide_values l' q.
Proof.
  intros Hp. unfold decide_values.
  pose proof (filter_Permutation e_valid _ _ Hp) as Hv.
  pose proof (filter_Permutation e_present _ _ Hv) as Hy.
  by rewrite (Permutation_length Hv), (Permutation_length Hy), Hv.
Qed.

Lemma values_empty : values ∅ = [].
Proof. unfold values. by rewrite map_to_list_empty. Qed.

Lemma values_insert snap i e :
  snap !! i = None → values (<[i:=e]> snap) ≡ₚ e :: values snap.
Proof.
  intros Hi. unfold values. by rewrite (map_to_list_insert _ _ _ Hi).
Qed.

Lemma values_union snap extra :
  snap ##ₘ extra → values (snap ∪ extra) ≡ₚ values extra ++ values snap.
Proof.
  induction extra as [|i e extra Hi IH] using map_ind; intros Hd.
  - by rewrite (right_id_L ∅ (∪)), values_empty.
  - apply map_disjoint_insert_r in Hd as [Hs Hd].
    rewrite <-insert_union_r by done.
    rewrite values_insert by (apply lookup_union_None; done).
    rewrite values_insert by done. simpl. by rewrite IH.
Qed.

(** Counting over the map and counting over the list of its values agree. *)
Lemma size_filter_values (P : nat * Entry → Prop) `{!∀ kv, Decision (P kv)}
    (f : Entry → bool) snap :
  (∀ i e, P (i, e) ↔ f e = true) →
  size (filter P snap) = length (List.filter f (values snap)).
Proof.
  intros HP. induction snap as [|i e snap Hi IH] using map_ind.
  - by rewrite map_filter_empty, map_size_empty, values_empty.
  - rewrite (Permutation_length (filter_Permutation f _ _ (values_insert _ _ e Hi))).
    simpl. destruct (f e) eqn:Hf.
    + rewrite map_filter_insert_True by (by apply HP).
      rewrite map_size_insert_None by (by rewrite map_lookup_filter_None; left).
      simpl. by rewrite IH.
    + rewrite map_filter_insert_not'.
      * done.
      * rewrite HP. congruence.
      * intros y. rewrite Hi. done.
Qed.

Lemma contributors_of_values snap :
  contributors_of snap = length (List.filter e_valid (values snap)).
Proof. apply size_filter_values. intros i e. done. Qed.

Lemma filter_filter_andb (f g : Entry → bool) (l : list Entry) :
  List.filter g (List.filter f l) = List.filter (λ e, f e && g e) l.
Proof.
  induction l as [|x l IH]; simpl; [done|].
  destruct (f x); simpl; [destruct (g x)|]; by rewrite IH.
Qed.

Lemma present_count_of_values snap :
  present_count_of snap
  = length (List.filter e_present (List.filter e_valid (values snap))).
Proof.
  rewrite filter_filter_andb. apply size_filter_values.
  intros i e. unfold is_valid_present. simpl. by rewrite andb_true_iff.
Qed.

Lemma total_magnitude_of_values snap :
  total_magnitude_of snap = sum_list (e_count <$> List.filter e_valid (values snap)).
Proof.
  unfold total_magnitude_of, values. rewrite map_fold_foldr.
  induction (map_to_list snap) as [|[i e] l IH]; simpl; [done|].
  rewrite IH. by destruct (e_valid e).
Qed.

(** The decision, in terms of the counts over the snapshot. *)
Lemma decide_snapshot_counts snap q :
  decide_snapshot snap q =
  if bool_decide (Z.of_nat (contributors_of snap) < q)%Z
     || bool_decide (contributors_of snap = 0)
  then None
  else Some (mkResult
               (bool_decide (Z.of_nat (present_count_of snap)
                             >= Z.of_nat (contributors_of snap)
                                - Z.of_nat (present_count_of snap))%Z)
               (py_truediv (present_count_of snap) (contributors_of snap))
               (contributors_of snap)
               (total_magnitude_of snap)).
Proof.
  unfold decide_snapshot, decide_values.
  by rewrite contributors_of_values, present_count_of_values,
    total_magnitude_of_values.
Qed.

Lemma present_le_contributors snap : present_count_of snap ≤ contributors_of snap.
Proof.
  rewrite contributors_of_values, present_count_of_values.
  generalize (List.filter e_valid (values snap)). intros l.
  induction l as [|x l IH]; simpl; [done|]. destruct (e_present x); simpl; lia.
Qed.

(** Entries that are not valid leave all three counts as they are. *)
Lemma counts_union_invalid snap extra :
  snap ##ₘ extra →
  map_Forall (λ _ e, e_valid e = false) extra →
  contributors_of (snap ∪ extra) = contributors_of snap
  ∧ present_count_of (snap ∪ extra) = present_count_of snap
  ∧ total_magnitude_of (snap ∪ extra) = total_magnitude_of snap.
Proof.
  intros Hd Hinv.
  assert (List.filter e_valid (values (snap ∪ extra))
          ≡ₚ List.filter e_valid (values snap)) as Hp.
  { rewrite (filter_Permutation _ _ _ (values_union _ _ Hd)).
    rewrite List.filter_app.
    assert (List.filter e_valid (values extra) = []) as ->; [|done].
    unfold values. apply map_Forall_to_list in Hinv.
    induction Hinv as [|[i e] l He _ IH]; simpl; [done|].
    simpl in He. by rewrite He. }
  rewrite !contributors_of_values, !present_count_of_values,
    !total_magnitude_of_values.
  by rewrite (Permutation_length Hp),
    (Permutation_length (filter_Permutation e_present _ _ Hp)), Hp.
Qed.

Lemma local_decision_agg_snapshot (agg : gmap nat (gmap nat Entry)) t q :
  local_decision_agg agg t q = decide_snapshot (snapshot agg t) q.
Proof.
  unfold local_decision_agg, snapshot. destruct (agg !! t) as [snap|]; simpl; [done|].
  unfold decide_snapshot, decide_values. rewrite values_empty. simpl.
  by rewrite orb_true_r.
Qed.

Lemma local_decision_agg_counts (agg : gmap nat (gmap nat Entry)) t q :
  local_decision_agg agg t q =
  let snap := snapshot agg t in
  if bool_decide (Z.of_nat (contributors_of snap) < q)%Z
     || bool_decide (contributors_of snap = 0)
  then None
  else Some (mkResult
               (bool_decide (Z.of_nat (present_count_of snap)
                             >= Z.of_nat (contributors_of snap)
                                - Z.of_nat (present_count_of snap))%Z)
               (py_truediv (present_count_of snap) (contributors_of snap))
               (contributors_of snap)
               (total_magnitude_of snap)).
Proof. by rewrite local_decision_agg_snapshot, decide_snapshot_counts. Qed.

Lemma local_decision_agg_None (agg : gmap nat (gmap nat Entry)) t q :
  local_decision_agg agg t q = None
  ↔ (Z.of_nat (contributors_of (snapshot agg t)) < q)%Z
    ∨ contributors_of (snapshot agg t) = 0.
Proof.
  rewrite local_decision_agg_counts. simpl.
  destruct (bool_decide _ || bool_decide _) eqn:Hg.
  - split; [intros _|done].
    apply orb_true_iff in Hg as [Hg|Hg]; apply bool_decide_eq_true in Hg; auto.
  - split; [done|]. apply orb_false_iff in Hg as [Hq Hz].
    apply bool_decide_eq_false in Hq, Hz. intros [?|?]; done.
Qed.

(** Storing an entry that is not valid under a key that has none yet leaves
    every decision as it is. *)
Lemma local_decision_agg_set_invalid (agg : gmap nat (gmap nat Entry)) t' f' e t q :
  agg_get agg t' f' = None → e_valid e = false →
  local_decision_agg (agg_set agg t' f' e) t q = local_decision_agg agg t q.
Proof.
  intros Hnone He. rewrite !local_decision_agg_snapshot.
  unfold agg_set, snapshot at 1. destruct (decide (t = t')) as [->|Hne].
  - rewrite lookup_insert_eq. simpl. fold (snapshot agg t').
    assert (snapshot agg t' !! f' = None) as Hf.
    { unfold agg_get in Hnone. unfold snapshot.
      destruct (agg !! t') as [snap|]; simpl in *; [done|apply lookup_empty]. }
    unfold decide_snapshot.
    rewrite (decide_values_perm _ _ q (values_insert _ _ e Hf)).
    unfold decide_values. simpl. by rewrite He.
  - by rewrite lookup_insert_ne.
Qed.

End DecisionFacts.

(** ** The decision rule *)

(** Snapshots used to exercise the theorems: tick 7 with one present and one
    absent valid contributor; tick 7 with three present and two absent. *)
Definition agg_tie : gmap nat (gmap nat Entry) :=
  {[ 7 := <[0 := (true, 3, true)]> {[ 1 := (false, 0, true) ]} ]}.

Definition snap_3_of_5 : gmap nat Entry :=
  <[0 := (true, 2, true)]> (<[1 := (true, 1, true)]> (<[2 := (false, 0, true)]>
  (<[3 := (true, 4, true)]> {[ 4 := (false, 0, true) ]}))).

Definition agg_3_of_5 : gmap nat (gmap nat Entry) := {[ 7 := snap_3_of_5 ]}.

Definition extra_invalid : gmap nat Entry :=
  <[5 := (false, 0, false)]> {[ 6 := (true, 9, false) ]}.

(** C3. Whenever the decision is a result, its majority flag is
    [present_count >= contributors - present_count] over the valid entries
    of the snapshot; with two valid contributors, one present and one absent,
    every threshold up to 2 gives a result whose majority flag is true. *)
Theorem majority_rule (agg : gmap nat (gmap nat Entry)) (t : nat) (q : Z) :
  let snap := snapshot agg t in
  (∀ d, local_decision_agg agg t q = Some d →
     contributors d = contributors_of snap
     ∧ present_majority d
       = bool_decide (Z.of_nat (present_count_of snap)
                      >= Z.of_nat (contributors_of snap)
                         - Z.of_nat (present_count_of snap))%Z)
  ∧ (contributors_of snap = 2 → present_count_of snap = 1 → (q ≤ 2)%Z →
     ∃ d, local_decision_agg agg t q = Some d ∧ present_majority d = true).
Proof.
  intros snap. rewrite local_decision_agg_counts. fold snap. simpl. split.
  - intros d Hd. destruct (_ || _); [done|]. by injection Hd as <-.
  - intros Hc Hp Hq. rewrite Hc, Hp.
    rewrite bool_decide_false by lia. rewrite bool_decide_false by lia.
    simpl. eexists. split; done.
Qed.

Lemma majority_rule_tie_witness :
  ∃ d, local_decision_agg agg_tie 7 2 = Some d ∧ present_majority d = true.
Proof.
  apply (proj2 (majority_rule agg_tie 7 2)); [by vm_compute | by vm_compute | lia].
Defined.

(** C5. The decision is [None] exactly when the number of valid contributors
    is below [min_quorum] or zero; with no valid contributor it is [None]
    for every [min_quorum]. *)
Theorem no_quorum_iff (agg : gmap nat (gmap nat Entry)) (t : nat) :
  let snap := snapshot agg t in
  (∀ q, local_decision_agg agg t q = None
        ↔ (Z.of_nat (contributors_of snap) < q)%Z ∨ contributors_of snap = 0)
  ∧ (contributors_of snap = 0 → ∀ q, local_decision_agg agg t q = None).
Proof.
  intros snap. split.
  - intros q. apply local_decision_agg_None.
  - intros Hz q. apply local_decision_agg_None. by right.
Qed.

Lemma no_quorum_iff_witness :
  local_decision_agg {[ 7 := extra_invalid ]} 7 0 = None.
Proof. apply (proj2 (no_quorum_iff {[ 7 := extra_invalid ]} 7)). by vm_compute. Defined.

(** C6. Raising the threshold keeps a missing quorum missing, and two
    thresholds that both give a result give the same result. *)
Theorem quorum_monotone (agg : gmap nat (gmap nat Entry)) (t : nat) :
  (∀ k, local_decision_agg agg t k = None →
        local_decision_agg agg t (k + 1) = None)
  ∧ (∀ k1 k2 d1 d2,
       local_decision_agg agg t k1 = Some d1 →
       local_decision_agg agg t k2 = Some d2 → d1 = d2).
Proof.
  split.
  - intros k. rewrite !local_decision_agg_None. intros [?|?]; [left; lia|by right].
  - intros k1 k2 d1 d2. rewrite !local_decision_agg_counts. simpl.
    do 2 destruct (_ || _); try done. congruence.
Qed.

Lemma quorum_monotone_witness : local_decision_agg agg_tie 7 (3 + 1) = None.
Proof. apply (proj1 (quorum_monotone agg_tie 7) 3%Z). by vm_compute. Defined.

(** C4. Adding entries that are not valid, under originators the snapshot
    does not hold yet, changes neither the decision (be it a result or
    [None]) nor the counts behind it.  So it is when the node itself takes
    in a message with [valid = False]: every decision of the node, for every
    tick and threshold, stays what it was. *)
Theorem invalid_excluded (a : gmap nat (gmap nat Entry)) (t : nat)
    (extra : gmap nat Entry) (q : Z) :
  snapshot a t ##ₘ extra →
  map_Forall (λ _ e, e_valid e = false) extra →
  local_decision_agg (<[t := snapshot a t ∪ extra]> a) t q
  = local_decision_agg a t q
  ∧ contributors_of (snapshot a t ∪ extra) = contributors_of (snapshot a t)
  ∧ present_count_of (snapshot a t ∪ extra) = present_count_of (snapshot a t)
  ∧ ∀ (Frame D : Type) (self : Node Frame D) (out : list Msg) (m : Msg) t' q',
      agg_in_seen self → valid (payload m) = false →
      local_decision (handle (self, out) m).1 t' q' = local_decision self t' q'.
Proof.
  intros Hd Hinv.
  destruct (counts_union_invalid _ _ Hd Hinv) as (Hc & Hp & Ht).
  split_and!; [|done|done|].
  - rewrite !local_decision_agg_counts. simpl.
    assert (snapshot (<[t:=snapshot a t ∪ extra]> a) t = snapshot a t ∪ extra)
      as -> by (unfold snapshot at 1; by rewrite lookup_insert_eq).
    by rewrite Hc, Hp, Ht.
  - intros Frame D self out m t' q' Hais Hm. unfold local_decision.
    destruct (handle_cases self out m) as [[-> _]|(-> & _ & Hk)]; [done|].
    simpl. apply local_decision_agg_set_invalid; [|done].
    destruct (agg_get (agg self) (tick (payload m)) (from (payload m)))
      as [e|] eqn:He; [|done].
    destruct Hk. apply Hais. by rewrite He.
Qed.

Lemma invalid_excluded_witness :
  local_decision_agg (<[7 := snapshot agg_3_of_5 7 ∪ extra_invalid]> agg_3_of_5) 7 2
  = local_decision_agg agg_3_of_5 7 2
  ∧ contributors_of (snapshot agg_3_of_5 7 ∪ extra_invalid)
    = contributors_of (snapshot agg_3_of_5 7)
  ∧ present_count_of (snapshot agg_3_of_5 7 ∪ extra_invalid)
    = present_count_of (snapshot agg_3_of_5 7).
Proof.
  destruct (invalid_excluded agg_3_of_5 7 extra_invalid 2) as (H1 & H2 & H3 & _).
  - by_compute.
  - by_compute.
  - done.
Defined.

(** C7. Five entries, all valid, three present: with [min_quorum = 1] the
    result is [contributors = 5], ratio [3 / 5 = 0.6], majority true (and
    [present_count = 3]); and whenever there is a result, its total is the sum
    of the counts of the valid entries and its ratio is [present_count]
    divided by [contributors]. *)
Theorem scenario_three_of_five (agg : gmap nat (gmap nat Entry)) (t : nat) :
  let snap := snapshot agg t in
  (∀ q d, local_decision_agg agg t q = Some d →
     total_count d = total_magnitude_of snap
     ∧ present_ratio d = py_truediv (present_count_of snap) (contributors_of snap))
  ∧ (size snap = 5 →
     map_Forall (λ _ e, e_valid e = true) snap →
     size (filter (λ kv, e_present kv.2 = true) snap) = 3 →
     present_count_of snap = 3
     ∧ local_decision_agg agg t 1
       = Some (mkResult true 0.6%float 5 (total_magnitude_of snap))).
Proof.
  intros snap. split.
  - intros q d. rewrite local_decision_agg_counts. fold snap. simpl.
    destruct (_ || _); [done|]. intros Hd. by injection Hd as <-.
  - intros Hsz Hall Hyes.
    assert (contributors_of snap = 5) as Hc.
    { unfold contributors_of. by rewrite map_filter_id. }
    assert (present_count_of snap = 3) as Hp.
    { unfold present_count_of. rewrite <-Hyes. f_equal.
      apply map_filter_ext. intros i e Hie. unfold is_valid_present. simpl.
      specialize (Hall i e Hie). simpl in Hall. tauto. }
    split; [done|].
    rewrite local_decision_agg_counts. fold snap. simpl. rewrite Hc, Hp.
    rewrite bool_decide_false by lia. rewrite bool_decide_false by lia.
    simpl. f_equal.
Qed.

Lemma scenario_three_of_five_witness :
  present_count_of (snapshot agg_3_of_5 7) = 3
  ∧ local_decision_agg agg_3_of_5 7 1 = Some (mkResult true 0.6%float 5 7).
Proof.
  apply (proj2 (scenario_three_of_five agg_3_of_5 7)).
  - by vm_compute.
  - by_compute.
  - by vm_compute.
Defined.

End PeopleDetection.

(** * The keyword search: QUERY and RESULT gossip *)

Module KeywordSearch.

(** [Message(kind, payload)]: a ['QUERY'] carries [query_id] and [term], a
    ['RESULT'] carries [query_id], [from], [has] and [count]; a message of
    any other kind is taken out of the inbox and ignored.  [has] is the int
    1 or 0 used as a truth value. *)
Inductive Message :=
  | QUERY (query_id term : string)
  | RESULT (query_id : string) (from : nat) (has : bool) (count : nat)
  | Other (kind : string).

(** The default value of [aggregates]: three sets and a counter. *)
Record Aggregate := mkAggregate {
  nodes_total : gset nat;
  nodes_hit : gset nat;
  hit_count : nat;
  contributors : gset nat
}.

Definition empty_aggregate : Aggregate := mkAggregate ∅ ∅ 0 ∅.

Record Node := mkNode {
  node_id : nat;
  peers : list nat;
  inbox : list Message;
  seen_queries : gset string;
  rebroadcasted_results : gset (string * nat);
  docs : list string;
  faulty : bool;
  aggregates : gmap string Aggregate
}.

Definition set_inbox (n : Node) (q : list Message) : Node :=
  mkNode (node_id n) (peers n) q (seen_queries n) (rebroadcasted_results n)
    (docs n) (faulty n) (aggregates n).
Definition set_seen_queries (n : Node) (s : gset string) : Node :=
  mkNode (node_id n) (peers n) (inbox n) s (rebroadcasted_results n)
    (docs n) (faulty n) (aggregates n).
Definition set_rebroadcasted_results (n : Node) (s : gset (string * nat)) : Node :=
  mkNode (node_id n) (peers n) (inbox n) (seen_queries n) s
    (docs n) (faulty n) (aggregates n).
Definition set_aggregates (n : Node) (a : gmap string Aggregate) : Node :=
  mkNode (node_id n) (peers n) (inbox n) (seen_queries n) (rebroadcasted_results n)
    (docs n) (faulty n) a.

Definition new_node (id : nat) (is_faulty : bool) (words : list string)
    (ps : list nat) : Node :=
  mkNode id ps [] ∅ ∅ words is_faulty ∅.

Definition receive (self : Node) (m : Message) : Node :=
  set_inbox self (inbox self ++ [m]).

Definition gossip (i : nat) (net : list Node) (m : Message) : list Node :=
  gossip_with node_id peers receive i net m.

(** [local_keyword_stats]: [(has, count)]. *)
Definition local_keyword_stats (self : Node) (term : string) : bool * nat :=
  let count := length (filter (λ w, w = term) (docs self)) in
  let count := if faulty self then count + 3 else count in
  (bool_decide (0 < count), count).

(** [agg['contributors'].add(c); agg['nodes_total'].add(c); if has: ...] *)
Definition tally (a : Aggregate) (c : nat) (has : bool) (count : nat) : Aggregate :=
  mkAggregate ({[c]} ∪ nodes_total a)
    (if has then {[c]} ∪ nodes_hit a else nodes_hit a)
    (if has then hit_count a + count else hit_count a)
    ({[c]} ∪ contributors a).

(** [self.aggregates[query_id]] on the [defaultdict]. *)
Definition aggregate_of (self : Node) (query_id : string) : Aggregate :=
  default empty_aggregate (aggregates self !! query_id).

(** [handle_query]: the node afterwards and the messages it gossips, in
    order. *)
Definition handle_query (self : Node) (query_id term : string) : Node * list Message :=
  if decide (query_id ∈ seen_queries self) then (self, [])
  else
    let self1 := set_seen_queries self ({[query_id]} ∪ seen_queries self) in
    let '(has, count) := local_keyword_stats self1 term in
    let agg := tally (aggregate_of self1 query_id) (node_id self1) has count in
    (set_aggregates self1 (<[query_id := agg]> (aggregates self1)),
     [RESULT query_id (node_id self1) has count; QUERY query_id term]).

(** [handle_result]. *)
Definition handle_result (self : Node) (query_id : string) (from_node : nat)
    (has : bool) (count : nat) : Node * list Message :=
  let agg := aggregate_of self query_id in
  if decide (from_node ∈ contributors agg)
  then (set_aggregates self (<[query_id := agg]> (aggregates self)), [])
  else
    let self1 :=
      set_aggregates self
        (<[query_id := tally agg from_node has count]> (aggregates self)) in
    if decide ((query_id, from_node) ∈ rebroadcasted_results self1)
    then (self1, [])
    else (set_rebroadcasted_results self1
            ({[(query_id, from_node)]} ∪ rebroadcasted_results self1),
          [RESULT query_id from_node has count]).

(** The body of the loop of [process_messages] after [m = self.inbox.get()]. *)
Definition dispatch (self : Node) (m : Message) : Node * list Message :=
  match m with
  | QUERY query_id term => handle_query self query_id term
  | RESULT query_id from_node has count =>
      handle_result self query_id from_node has count
  | Other _ => (self, [])
  end.

(** What a node sends, as an observer names it. *)
Inductive Sent :=
  | OwnResult (query_id : string)
  | ForwardedQuery (query_id : string)
  | RelayedResult (query_id : string) (contributor : nat).

(** The sends of one turn of the loop: a turn on a QUERY sends the node's
    own RESULT and forwards the QUERY, a turn on a RESULT relays it. *)
Definition sends_of (m : Message) (out : list Message) : list Sent :=
  match m with
  | QUERY _ _ =>
      omap (λ o, match o with
                 | RESULT q _ _ _ => Some (OwnResult q)
                 | QUERY q _ => Some (ForwardedQuery q)
                 | Other _ => None
                 end) out
  | RESULT _ _ _ _ =>
      omap (λ o, match o with
                 | RESULT q c _ _ => Some (RelayedResult q c)
                 | _ => None
                 end) out
  | Other _ => []
  end.

(** One turn of the loop of [process_messages] of the node at position [i]:
    take a message out of the inbox, handle it, gossip what it sends. *)
Definition pop_one (i : nat) (net : list Node) : list Node * list (nat * Sent) :=
  match net !! i with
  | Some self =>
      match inbox self with
      | m :: rest =>
          let '(self', out) := dispatch (set_inbox self rest) m in
          (for_each (gossip i) out (<[i := self']> net), (i,.) <$> sends_of m out)
      | [] => (net, [])
      end
  | None => (net, [])
  end.

Fixpoint turns (k : nat) (i : nat) (net : list Node) : list Node * list (nat * Sent) :=
  match k with
  | 0 => (net, [])
  | S k' =>
      let '(net1, tr1) := pop_one i net in
      let '(net2, tr2) := turns k' i net1 in
      (net2, tr1 ++ tr2)
  end.

(** [process_messages]: the loop runs while the inbox is not empty.  A node's
    own gossip never reaches its own inbox, so the loop makes as many turns
    as the inbox holds messages when it starts ([process_messages_empties]). *)
Definition process_messages (i : nat) (net : list Node) : list Node * list (nat * Sent) :=
  match net !! i with
  | Some self => turns (length (inbox self)) i net
  | None => (net, [])
  end.

Inductive Op :=
  | Process (i : nat)
  | Deliver (i : nat) (m : Message).

Definition step (net : list Node) (op : Op) : list Node * list (nat * Sent) :=
  match op with
  | Process i => process_messages i net
  | Deliver i m =>
      (match net !! i with
       | Some self => <[i := receive self m]> net
       | None => net
       end, [])
  end.

Fixpoint run (ops : list Op) (net : list Node) : list Node * list (nat * Sent) :=
  match ops with
  | [] => (net, [])
  | op :: ops' =>
      let '(net1, tr1) := step net op in
      let '(net2, tr2) := run ops' net1 in
      (net2, tr1 ++ tr2)
  end.

(** The sends of node [i] in a run. *)
Definition sends_by (i : nat) (tr : list (nat * Sent)) : list Sent :=
  omap (λ ev, if decide (ev.1 = i) then Some ev.2 else None) tr.

Definition forwarded (l : list Sent) : list string :=
  omap (λ e, match e with ForwardedQuery q => Some q | _ => None end) l.

Definition relayed (l : list Sent) : list (string * nat) :=
  omap (λ e, match e with RelayedResult q c => Some (q, c) | _ => None end) l.

(** One node seen from inside: it takes a turn of its loop or has a message
    put into its inbox. *)
Inductive LocalOp :=
  | LPop
  | LReceive (m : Message).

Definition local_step (n : Node) (a : LocalOp) : Node * list Sent :=
  match a with
  | LPop =>
      match inbox n with
      | m :: rest =>
          ((dispatch (set_inbox n rest) m).1,
           sends_of m (dispatch (set_inbox n rest) m).2)
      | [] => (n, [])
      end
  | LReceive m => (receive n m, [])
  end.

Fixpoint local_run (l : list LocalOp) (n : Node) : Node * list Sent :=
  match l with
  | [] => (n, [])
  | a :: l' =>
      let '(n1, tr1) := local_step n a in
      let '(n2, tr2) := local_run l' n1 in
      (n2, tr1 ++ tr2)
  end.

(** What a stretch of a node's life keeps true: the two sets only grow, and
    what was forwarded or relayed in the stretch was not in them before, is
    in them after, and was sent once. *)
Definition node_trans (n n' : Node) (tr : list Sent) : Prop :=
  seen_queries n ⊆ seen_queries n'
  ∧ rebroadcasted_results n ⊆ rebroadcasted_results n'
  ∧ NoDup (forwarded tr)
  ∧ (∀ q, q ∈ forwarded tr → (q ∉ seen_queries n) ∧ (q ∈ seen_queries n'))
  ∧ NoDup (relayed tr)
  ∧ (∀ k, k ∈ relayed tr →
          (k ∉ rebroadcasted_results n) ∧ (k ∈ rebroadcasted_results n')).

(** Three nodes, all connected to all; node 1 over-reports. *)
Definition three_nodes : list Node :=
  [new_node 0 false ["ai"; "gossip"]%string [0; 1; 2];
   new_node 1 true ["ml"]%string [0; 1; 2];
   new_node 2 false ["cv"; "data"]%string [0; 1; 2]].

(** The initiator gets the query, then two rounds of processing. *)
Definition search_ops : list Op :=
  Deliver 0 (QUERY "q1" "gossip") :: mjoin (replicate 2 (Process <$> seq 0 3)).

(** ** Facts about one node *)

Lemma ks_handle_query_seen self q term :
  q ∈ seen_queries self → handle_query self q term = (self, []).
Proof. intros Hq. unfold handle_query. by rewrite decide_True. Qed.

Lemma ks_handle_query_new self q term :
  q ∉ seen_queries self →
  (handle_query self q term).2
  = [RESULT q (node_id self) (local_keyword_stats self term).1
       (local_keyword_stats self term).2;
     QUERY q term]
  ∧ seen_queries (handle_query self q term).1 = {[q]} ∪ seen_queries self
  ∧ rebroadcasted_results (handle_query self q term).1 = rebroadcasted_results self
  ∧ inbox (handle_query self q term).1 = inbox self.
Proof. intros Hq. unfold handle_query. by rewrite decide_False. Qed.

Lemma ks_handle_result_cases self q c h k :
  seen_queries (handle_result self q c h k).1 = seen_queries self
  ∧ inbox (handle_result self q c h k).1 = inbox self
  ∧ c ∈ contributors (aggregate_of (handle_result self q c h k).1 q)
  ∧ (((handle_result self q c h k).2 = []
      ∧ rebroadcasted_results (handle_result self q c h k).1
        = rebroadcasted_results self)
     ∨ ((handle_result self q c h k).2 = [RESULT q c h k]
        ∧ ((q, c) ∉ rebroadcasted_results self)
        ∧ rebroadcasted_results (handle_result self q c h k).1
          = {[(q, c)]} ∪ rebroadcasted_results self)).
Proof.
  unfold handle_result.
  destruct (decide (c ∈ contributors (aggregate_of self q))) as [Hc|Hc]; simpl.
  { split_and!; [done|done| |by left].
    unfold aggregate_of. simpl. by rewrite lookup_insert_eq. }
  destruct (decide ((q, c) ∈ rebroadcasted_results self)) as [Hr|Hr]; simpl.
  - split_and!; [done|done| |by left].
    unfold aggregate_of. simpl. rewrite lookup_insert_eq. simpl. set_solver.
  - split_and!; [done|done| |by right].
    unfold aggregate_of. simpl. rewrite lookup_insert_eq. simpl. set_solver.
Qed.

Lemma ks_node_trans_refl n : node_trans n n [].
Proof.
  unfold node_trans. simpl. split_and!; try done; try constructor; set_solver.
Qed.

Lemma ks_keys_app (tr1 tr2 : list Sent) :
  forwarded (tr1 ++ tr2) = forwarded tr1 ++ forwarded tr2
  ∧ relayed (tr1 ++ tr2) = relayed tr1 ++ relayed tr2.
Proof. unfold forwarded, relayed. by rewrite !omap_app. Qed.

Lemma ks_node_trans_trans n n1 n2 tr1 tr2 :
  node_trans n n1 tr1 → node_trans n1 n2 tr2 → node_trans n n2 (tr1 ++ tr2).
Proof.
  intros (Hq1 & Hr1 & Hnf1 & Hf1 & Hnr1 & Hrel1)
         (Hq2 & Hr2 & Hnf2 & Hf2 & Hnr2 & Hrel2).
  unfold node_trans. destruct (ks_keys_app tr1 tr2) as [-> ->].
  split_and!.
  - by etrans.
  - by etrans.
  - apply NoDup_app. split_and!; [done| |done].
    intros q H1 H2. destruct (Hf1 q H1) as [_ ?]. destruct (Hf2 q H2) as [? _]. done.
  - intros q [H|H]%elem_of_app.
    + destruct (Hf1 q H) as [? ?]. split; [done|]. by apply Hq2.
    + destruct (Hf2 q H) as [Hn ?]. split; [|done]. intros ?. by apply Hn, Hq1.
  - apply NoDup_app. split_and!; [done| |done].
    intros k H1 H2. destruct (Hrel1 k H1) as [_ ?]. destruct (Hrel2 k H2) as [? _]. done.
  - intros k [H|H]%elem_of_app.
    + destruct (Hrel1 k H) as [? ?]. split; [done|]. by apply Hr2.
    + destruct (Hrel2 k H) as [Hn ?]. split; [|done]. intros ?. by apply Hn, Hr1.
Qed.

Lemma ks_dispatch_trans n m :
  node_trans n (dispatch n m).1 (sends_of m (dispatch n m).2).
Proof.
  destruct m as [q term|q c h k|kd]; simpl.
  - destruct (decide (q ∈ seen_queries n)) as [Hq|Hq].
    + rewrite ks_handle_query_seen by done. apply ks_node_trans_refl.
    + destruct (ks_handle_query_new n q term Hq) as (-> & Hs & Hr & _).
      unfold node_trans, forwarded, relayed. simpl. rewrite Hs, Hr.
      split_and!; [set_solver|done|apply NoDup_singleton| |constructor|set_solver].
      intros q' ->%list_elem_of_singleton. set_solver.
  - destruct (ks_handle_result_cases n q c h k)
      as (Hs & _ & _ & [[-> Hr]|(-> & Hnew & Hr)]);
      unfold node_trans, forwarded, relayed; simpl; rewrite Hs, Hr.
    + split_and!; try done; try constructor; set_solver.
    + split_and!; [done|set_solver|constructor|set_solver|apply NoDup_singleton|].
      intros k' ->%list_elem_of_singleton. set_solver.
  - apply ks_node_trans_refl.
Qed.

Lemma ks_local_step_trans n a :
  node_trans n (local_step n a).1 (local_step n a).2.
Proof.
  destruct a as [|m]; simpl.
  - destruct (inbox n) as [|m rest] eqn:Hin; [apply ks_node_trans_refl|]. simpl.
    apply (ks_dispatch_trans (set_inbox n rest) m).
  - unfold node_trans. simpl. split_and!; try done; try constructor; set_solver.
Qed.

Lemma ks_local_run_trans (l : list LocalOp) n :
  node_trans n (local_run l n).1 (local_run l n).2.
Proof.
  revert n. induction l as [|a l IH]; intros n; simpl.
  - apply ks_node_trans_refl.
  - pose proof (ks_local_step_trans n a) as H1.
    destruct (local_step n a) as [n1 tr1].
    pose proof (IH n1) as H2.
    destruct (local_run l n1) as [n2 tr2]. simpl in *.
    by eapply ks_node_trans_trans.
Qed.

(** ** Facts about the network *)

Lemma ks_local_run_app (l1 l2 : list LocalOp) n :
  local_run (l1 ++ l2) n
  = ((local_run l2 (local_run l1 n).1).1,
     (local_run l1 n).2 ++ (local_run l2 (local_run l1 n).1).2).
Proof.
  revert n. induction l1 as [|a l1 IH]; intros n; simpl.
  - by destruct (local_run l2 n).
  - destruct (local_step n a) as [n1 tr1]. rewrite IH.
    destruct (local_run l1 n1) as [n2 tr2]. simpl.
    destruct (local_run l2 n2) as [n3 tr3]. simpl.
    by rewrite (assoc_L (++)).
Qed.

Lemma ks_local_run_receives (ms : list Message) n :
  local_run (LReceive <$> ms) n = (foldl receive n ms, []).
Proof.
  revert n. induction ms as [|m ms IH]; intros n; [done|].
  csimpl. by rewrite IH.
Qed.

Lemma ks_sends_by_app i (tr1 tr2 : list (nat * Sent)) :
  sends_by i (tr1 ++ tr2) = sends_by i tr1 ++ sends_by i tr2.
Proof. unfold sends_by. apply omap_app. Qed.

Lemma ks_sends_by_tagged i j (l : list Sent) :
  sends_by i ((j,.) <$> l) = if decide (j = i) then l else [].
Proof.
  unfold sends_by. induction l as [|e l IH]; csimpl.
  - by destruct (decide (j = i)).
  - rewrite IH. by destruct (decide (j = i)).
Qed.

Lemma ks_pop_project net j i n :
  net !! i = Some n →
  ∃ lops, (pop_one j net).1 !! i = Some (local_run lops n).1
          ∧ sends_by i (pop_one j net).2 = (local_run lops n).2.
Proof.
  intros Hn. unfold pop_one.
  destruct (net !! j) as [self|] eqn:Hself; [|by exists []].
  destruct (inbox self) as [|m rest] eqn:Hin; [by exists []|].
  destruct (dispatch (set_inbox self rest) m) as [self' out] eqn:Hd. simpl.
  rewrite ks_sends_by_tagged.
  destruct (decide (j = i)) as [->|Hji].
  - assert (self = n) as -> by congruence.
    destruct (gossips_lookup node_id peers receive i out (<[i := self']> net) i self')
      as (ms & Hl & Hi).
    { apply list_lookup_insert_eq. by eapply lookup_lt_Some. }
    rewrite (Hi eq_refl) in Hl. exists [LPop]. simpl.
    rewrite Hin, Hd. simpl. by rewrite (right_id_L [] (++)).
  - destruct (gossips_lookup node_id peers receive j out (<[j := self']> net) i n)
      as (ms & Hl & _).
    { by rewrite list_lookup_insert_ne. }
    exists (LReceive <$> ms). by rewrite ks_local_run_receives.
Qed.

Lemma ks_turns_project (k : nat) net j i n :
  net !! i = Some n →
  ∃ lops, (turns k j net).1 !! i = Some (local_run lops n).1
          ∧ sends_by i (turns k j net).2 = (local_run lops n).2.
Proof.
  revert net n. induction k as [|k IH]; intros net n Hn; simpl.
  { by exists []. }
  destruct (ks_pop_project net j i n Hn) as (l1 & Hn1 & Htr1).
  destruct (pop_one j net) as [net1 tr1]. simpl in *.
  destruct (IH net1 _ Hn1) as (l2 & Hn2 & Htr2).
  destruct (turns k j net1) as [net2 tr2]. simpl in *.
  exists (l1 ++ l2). rewrite ks_local_run_app. simpl.
  by rewrite ks_sends_by_app, Htr1, Htr2.
Qed.

Lemma ks_step_project net op i n :
  net !! i = Some n →
  ∃ lops, (step net op).1 !! i = Some (local_run lops n).1
          ∧ sends_by i (step net op).2 = (local_run lops n).2.
Proof.
  intros Hn. destruct op as [j|j m]; simpl.
  - unfold process_messages. destruct (net !! j) as [self|]; [|by exists []].
    by apply ks_turns_project.
  - destruct (net !! j) as [self|] eqn:Hself; [|by exists []].
    destruct (decide (j = i)) as [->|Hji].
    + assert (self = n) as -> by congruence.
      exists [LReceive m]. simpl.
      by rewrite list_lookup_insert_eq by (by eapply lookup_lt_Some).
    + exists []. simpl. by rewrite list_lookup_insert_ne.
Qed.

Lemma ks_run_project (ops : list Op) net i n :
  net !! i = Some n →
  ∃ lops, (run ops net).1 !! i = Some (local_run lops n).1
          ∧ sends_by i (run ops net).2 = (local_run lops n).2.
Proof.
  revert net n. induction ops as [|op ops IH]; intros net n Hn; simpl.
  { by exists []. }
  destruct (ks_step_project net op i n Hn) as (l1 & Hn1 & Htr1).
  destruct (step net op) as [net1 tr1]. simpl in *.
  destruct (IH net1 _ Hn1) as (l2 & Hn2 & Htr2).
  destruct (run ops net1) as [net2 tr2]. simpl in *.
  exists (l1 ++ l2). rewrite ks_local_run_app. simpl.
  by rewrite ks_sends_by_app, Htr1, Htr2.
Qed.

(** A position that holds no node sends nothing. *)
Lemma ks_pop_none net j i :
  net !! i = None →
  (pop_one j net).1 !! i = None ∧ sends_by i (pop_one j net).2 = [].
Proof.
  intros Hi. unfold pop_one.
  destruct (net !! j) as [self|] eqn:Hself; [|done].
  destruct (inbox self) as [|m rest]; [done|].
  destruct (dispatch (set_inbox self rest) m) as [self' out]. simpl. split.
  - apply lookup_ge_None. unfold gossip.
    rewrite gossips_length, length_insert. by apply lookup_ge_None.
  - rewrite ks_sends_by_tagged. rewrite decide_False; [done|]. congruence.
Qed.

Lemma ks_turns_none (k : nat) net j i :
  net !! i = None →
  (turns k j net).1 !! i = None ∧ sends_by i (turns k j net).2 = [].
Proof.
  revert net. induction k as [|k IH]; intros net Hi; simpl; [done|].
  destruct (ks_pop_none net j i Hi) as [Hi1 Htr1].
  destruct (pop_one j net) as [net1 tr1]. simpl in *.
  destruct (IH net1 Hi1) as [Hi2 Htr2].
  destruct (turns k j net1) as [net2 tr2]. simpl in *.
  by rewrite ks_sends_by_app, Htr1, Htr2.
Qed.

Lemma ks_run_none (ops : list Op) net i :
  net !! i = None →
  (run ops net).1 !! i = None ∧ sends_by i (run ops net).2 = [].
Proof.
  revert net. induction ops as [|op ops IH]; intros net Hi; simpl; [done|].
  assert ((step net op).1 !! i = None ∧ sends_by i (step net op).2 = [])
    as [Hi1 Htr1].
  { destruct op as [j|j m]; simpl.
    - unfold process_messages. destruct (net !! j); [|done].
      by apply ks_turns_none.
    - split; [|done]. destruct (net !! j); [|done].
      apply lookup_ge_None. rewrite length_insert. by apply lookup_ge_None. }
  destruct (step net op) as [net1 tr1]. simpl in *.
  destruct (IH net1 Hi1) as [Hi2 Htr2].
  destruct (run ops net1) as [net2 tr2]. simpl in *.
  by rewrite ks_sends_by_app, Htr1, Htr2.
Qed.

Lemma ks_run_node_trans (ops : list Op) net i n :
  net !! i = Some n →
  ∃ n', (run ops net).1 !! i = Some n' ∧ node_trans n n' (sends_by i (run ops net).2).
Proof.
  intros Hn. destruct (ks_run_project ops net i n Hn) as (lops & Hl & Htr).
  eexists. split; [done|]. rewrite Htr. apply ks_local_run_trans.
Qed.

(** The loop of [process_messages] ends with the inbox empty. *)
Lemma ks_dispatch_inbox n m : inbox (dispatch n m).1 = inbox n.
Proof.
  destruct m as [q term|q c h k|kd]; simpl; [|by apply ks_handle_result_cases|done].
  destruct (decide (q ∈ seen_queries n)) as [Hq|Hq].
  - by rewrite ks_handle_query_seen.
  - by apply ks_handle_query_new.
Qed.

Lemma ks_turns_inbox (k : nat) net i self :
  net !! i = Some self →
  ∃ self', (turns k i net).1 !! i = Some self' ∧ inbox self' = drop k (inbox self).
Proof.
  revert net self. induction k as [|k IH]; intros net self Hself; simpl.
  { exists self. by rewrite drop_0. }
  unfold pop_one. rewrite Hself.
  destruct (inbox self) as [|m rest] eqn:Hin.
  - destruct (IH net self Hself) as (self' & Hl & Hi).
    destruct (turns k i net) as [net2 tr2]. simpl in *.
    exists self'. split; [done|]. rewrite Hi, Hin. by rewrite drop_nil.
  - pose proof (ks_dispatch_inbox (set_inbox self rest) m) as Hd.
    destruct (dispatch (set_inbox self rest) m) as [self1 out]. simpl in *.
    destruct (gossips_lookup node_id peers receive i out (<[i := self1]> net) i self1)
      as (ms & Hl & Hi).
    { apply list_lookup_insert_eq. by eapply lookup_lt_Some. }
    rewrite (Hi eq_refl) in Hl. simpl in Hl.
    destruct (IH _ _ Hl) as (self' & Hl' & Hi'). unfold gossip.
    destruct (turns k i (for_each (gossip_with node_id peers receive i) out
                           (<[i:=self1]> net))) as [net2 tr2].
    simpl in *. exists self'. split; [done|]. by rewrite Hi', Hd.
Qed.

Lemma process_messages_empties net i self :
  net !! i = Some self →
  ∃ self', (process_messages i net).1 !! i = Some self' ∧ inbox self' = [].
Proof.
  intros Hself. unfold process_messages. rewrite Hself.
  destruct (ks_turns_inbox (length (inbox self)) net i self Hself) as (self' & Hl & Hi).
  exists self'. split; [done|]. by rewrite Hi, drop_all.
Qed.

(** ** Each query forwarded once, each contributor's result relayed once *)

(** C8. In every run, from whatever state, a node forwards no query id
    twice and relays no (query, contributor) pair twice.  A node that has
    not seen the query sends its own RESULT and then the QUERY, whatever its
    documents hold; one that has seen it sends nothing.  A second RESULT of
    the same contributor for the same query is not relayed, whatever it
    carries. *)
Theorem query_and_result_once (net : list Node) (ops : list Op) (i : nat) :
  NoDup (forwarded (sends_by i (run ops net).2))
  ∧ NoDup (relayed (sends_by i (run ops net).2))
  ∧ (∀ self q term,
       q ∉ seen_queries self →
       (handle_query self q term).2
       = [RESULT q (node_id self) (local_keyword_stats self term).1
            (local_keyword_stats self term).2;
          QUERY q term])
  ∧ (∀ self q term, q ∈ seen_queries self → handle_query self q term = (self, []))
  ∧ (∀ self q c h k h' k',
       (handle_result (handle_result self q c h k).1 q c h' k').2 = []).
Proof.
  split_and!.
  - destruct (net !! i) as [n|] eqn:Hn.
    + destruct (ks_run_node_trans ops net i n Hn) as (n' & _ & Ht).
      by destruct Ht as (_ & _ & Hnd & _).
    + destruct (ks_run_none ops net i Hn) as [_ ->]. constructor.
  - destruct (net !! i) as [n|] eqn:Hn.
    + destruct (ks_run_node_trans ops net i n Hn) as (n' & _ & Ht).
      by destruct Ht as (_ & _ & _ & _ & Hnd & _).
    + destruct (ks_run_none ops net i Hn) as [_ ->]. constructor.
  - intros self q term Hq. by apply ks_handle_query_new.
  - intros self q term Hq. by apply ks_handle_query_seen.
  - intros self q c h k h' k'.
    destruct (ks_handle_result_cases self q c h k) as (_ & _ & Hc & _).
    unfold handle_result at 1. by rewrite decide_True.
Qed.

Lemma query_and_result_once_witness :
  NoDup (forwarded (sends_by 1 (run search_ops three_nodes).2))
  ∧ NoDup (relayed (sends_by 1 (run search_ops three_nodes).2)).
Proof.
  split; apply (query_and_result_once three_nodes search_ops 1).
Defined.

(** What node 1 sends in that run: the result of node 0 (which reaches it
    before the query), its own result and the query, then the result of
    node 2, each once. *)
Example search_sends_of_node_1 :
  sends_by 1 (run search_ops three_nodes).2
  = [RelayedResult "q1" 0; OwnResult "q1"; ForwardedQuery "q1"; RelayedResult "q1" 2].
Proof. by vm_compute. Qed.

End KeywordSearch.

(** * The even/odd voting demo *)

Module SimpleVersion.

(** A message is the tuple [(number, vote)]; it names no originator.
    [known_numbers] maps a number to the list of the votes received for
    it. *)
Record Node := mkNode {
  node_id : nat;
  peers : list nat;
  inbox : list (nat * nat);
  known_numbers : gmap nat (list nat)
}.

Definition receive (self : Node) (m : nat * nat) : Node :=
  mkNode (node_id self) (peers self) (inbox self ++ [m]) (known_numbers self).

Definition gossip (i : nat) (net : list Node) (m : nat * nat) : list Node :=
  gossip_with node_id peers receive i net m.

(** One turn of the loop of [process_messages]: the vote is appended, with
    no test of what is already there. *)
Definition handle (known : gmap nat (list nat)) (m : nat * nat) : gmap nat (list nat) :=
  <[m.1 := default [] (known !! m.1) ++ [m.2]]> known.

Definition process_messages (self : Node) : Node :=
  mkNode (node_id self) (peers self) [] (for_each handle (inbox self) (known_numbers self)).

(** [vote]: 1 for an even number, 0 for an odd one, stored and gossiped. *)
Definition vote (i : nat) (net : list Node) (number : nat) : list Node :=
  match net !! i with
  | None => net
  | Some self =>
      let v := if bool_decide (number `mod` 2 = 0) then 1 else 0 in
      let self' :=
        mkNode (node_id self) (peers self) (inbox self)
          (handle (known_numbers self) (number, v)) in
      gossip i (<[i := self']> net) (number, v)
  end.

Inductive Parity := even | odd.

(** [check_consensus]: with enough votes, "even" if the votes 1 outnumber
    the votes 0, "odd" otherwise. *)
Definition check_consensus (self : Node) (number : nat) (threshold : Z) : option Parity :=
  match known_numbers self !! number with
  | None => None
  | Some votes =>
      if bool_decide (threshold ≤ Z.of_nat (length votes))%Z
      then
        if bool_decide (length (filter (λ v, v = 0) votes)
                        < length (filter (λ v, v = 1) votes))
        then Some even else Some odd
      else None
  end.

(** This program has no set of seen keys: a vote that arrives twice is
    counted twice. *)
Remark vote_counted_twice (known : gmap nat (list nat)) (number v : nat) :
  handle (handle known (number, v)) (number, v) !! number
  = Some (default [] (known !! number) ++ [v; v])
  ∧ handle (handle known (number, v)) (number, v) ≠ handle known (number, v).
Proof.
  unfold handle. simpl. rewrite !lookup_insert_eq. simpl.
  rewrite <-(assoc_L (++)). split; [done|].
  intros Heq. apply (f_equal (λ k, length <$> k !! number)) in Heq.
  rewrite !lookup_insert_eq in Heq. simpl in Heq.
  rewrite !length_app in Heq. simpl in Heq. injection Heq. lia.
Qed.

(** Its majority is strict: with as many votes 1 as votes 0 the answer is
    "odd". *)
Remark tie_is_odd (self : Node) (number : nat) (votes : list nat) (threshold : Z) :
  known_numbers self !! number = Some votes →
  (threshold ≤ Z.of_nat (length votes))%Z →
  length (filter (λ v, v = 1) votes) = length (filter (λ v, v = 0) votes) →
  check_consensus self number threshold = Some odd.
Proof.
  intros Hk Ht Htie. unfold check_consensus. rewrite Hk.
  rewrite bool_decide_true by done. rewrite bool_decide_false by lia. done.
Qed.

End SimpleVersion.

(** * How [gossip] delivers *)

Section Delivery.

Context {N M : Type}.
Variable node_id : N → nat.
Variable peers : N → list nat.
Variable receive : N → M → N.

(** [receive] puts a message into the inbox and leaves the id alone. *)
Hypothesis receive_id : ∀ n m, node_id (receive n m) = node_id n.

(** The number of copies of one gossiped message that the node [n] at
    position [p] gets from the sender [self]: one for each time [p] is listed
    among the sender's peers, none if [n] carries the sender's id. *)
Definition copies (self : N) (p : nat) (n : N) : nat :=
  if decide (node_id n ≠ node_id self)
  then length (filter (λ x, x = p) (peers self))
  else 0.

Lemma foldl_receive_id (ms : list M) (n : N) :
  node_id (foldl receive n ms) = node_id n.
Proof.
  revert n. induction ms as [|m ms IH]; intros n; simpl; [done|].
  by rewrite IH, receive_id.
Qed.

Lemma gossip_loop_exact (sid : nat) (m : M) (ps : list nat) (net : list N)
    (p : nat) (n : N) :
  net !! p = Some n →
  for_each (λ (net : list N) (p' : nat),
              match net !! p' with
              | Some q =>
                  if decide (node_id q ≠ sid)
                  then <[p' := receive q m]> net
                  else net
              | None => net
              end) ps net !! p
  = Some (foldl receive n
            (replicate (if decide (node_id n ≠ sid)
                        then length (filter (λ x, x = p) ps) else 0) m)).
Proof.
  revert net n. induction ps as [|p' ps IH]; intros net n Hn.
  { simpl. by destruct (decide (node_id n ≠ sid)). }
  unfold for_each in *. simpl. rewrite filter_cons.
  destruct (net !! p') as [q|] eqn:Hq;
    [destruct (decide (node_id q ≠ sid)) as [Hne|He]|].
  - destruct (decide (p' = p)) as [->|Hp].
    + assert (q = n) as -> by congruence.
      rewrite (IH _ (receive n m)).
      2:{ apply list_lookup_insert_eq. by eapply lookup_lt_Some. }
      rewrite receive_id. by rewrite !decide_True by done.
    + rewrite (IH _ n) by (by rewrite list_lookup_insert_ne). done.
  - rewrite (IH _ n Hn). destruct (decide (p' = p)) as [->|Hp]; [|done].
    assert (q = n) as -> by congruence. by rewrite !decide_False by done.
  - rewrite (IH _ n Hn). destruct (decide (p' = p)) as [->|Hp]; [|done].
    congruence.
Qed.

(** X1. One call of [gossip]: every node of the network gets exactly
    [copies] copies of the message at the end of its inbox (as many
    [receive] calls), the sender none. *)
Theorem gossip_exact (i : nat) (net : list N) (m : M) (self : N) (p : nat) (n : N) :
  net !! i = Some self → net !! p = Some n →
  gossip_with node_id peers receive i net m !! p
  = Some (foldl receive n (replicate (copies self p n) m))
  ∧ copies self i self = 0.
Proof.
  intros Hself Hn. unfold gossip_with, copies. rewrite Hself. split.
  - by apply gossip_loop_exact.
  - by rewrite decide_False by (by intros []).
Qed.

Lemma copies_receives (self : N) (p : nat) (n : N) (ms : list M) :
  copies self p (foldl receive n ms) = copies self p n.
Proof. unfold copies. by rewrite foldl_receive_id. Qed.

(** A list of messages gossiped one after the other. *)
Lemma gossips_exact (i : nat) (out : list M) (net : list N) (self : N) (p : nat) (n : N) :
  net !! i = Some self → net !! p = Some n →
  for_each (gossip_with node_id peers receive i) out net !! p
  = Some (foldl receive n (out ≫= replicate (copies self p n)))
  ∧ for_each (gossip_with node_id peers receive i) out net !! i = Some self.
Proof.
  revert net n. induction out as [|m out IH]; intros net n Hself Hn.
  { done. }
  unfold for_each in *. simpl.
  assert (gossip_with node_id peers receive i net m !! p
          = Some (foldl receive n (replicate (copies self p n) m))) as Hp.
  { unfold gossip_with, copies. rewrite Hself. by apply gossip_loop_exact. }
  assert (gossip_with node_id peers receive i net m !! i = Some self) as Hi.
  { unfold gossip_with. rewrite Hself.
    rewrite (gossip_loop_exact _ _ _ _ i self Hself).
    by rewrite decide_False by (by intros []). }
  destruct (IH _ _ Hi Hp) as [IHp IHi]. split; [|done].
  rewrite IHp, copies_receives. csimpl. by rewrite foldl_app.
Qed.

End Delivery.

(** * Runs of the camera network: agreement and flooding *)

Module CameraRuns.

Import PeopleDetection.

Section Runs.

Context {Frame D : Type}.
Variable detect : D → Frame → bool * nat * D.

Implicit Types (n o self : Node Frame D) (m : Msg) (out : list Msg).
Implicit Types (net : list (Node Frame D)).

(** Every node carries its position as id, as [enumerate] gives them in
    [main]. *)
Definition ids_are_positions net : Prop :=
  ∀ i n, net !! i = Some n → node_id n = i.

(** Every node lists every node among its peers ([n.connect(nodes)]). *)
Definition fully_connected net : Prop :=
  ∀ i n j, net !! i = Some n → j < length net → j ∈ peers n.

(** The operations of the driver loop: nothing is put into an inbox from
    outside. *)
Definition driver_op (op : Op) : Prop :=
  match op with
  | Deliver _ _ => False
  | _ => True
  end.

(** The originator [i] holds the entry [e] for tick [t]. *)
Definition origin_has net (t i : nat) (e : Entry) : Prop :=
  ∃ o, net !! i = Some o ∧ agg_get (agg o) t i = Some e.

(** Everything in the network comes from a measurement: a message in an
    inbox and an entry in an aggregate repeat what their originator stored
    for itself. *)
Definition genuine net : Prop :=
  (∀ j n m, net !! j = Some n → m ∈ inbox n →
     kind m = "OBS"%string
     ∧ origin_has net (tick (payload m)) (from (payload m)) (entry_of m))
  ∧ (∀ j n t i e, net !! j = Some n → agg_get (agg n) t i = Some e →
       origin_has net t i e)
  ∧ (∀ j n, net !! j = Some n → node_id n = j ∧ agg_in_seen n ∧ seen_in_agg n).

(** What an originator has measured is, at every node, recorded or waiting
    in the inbox. *)
Definition on_its_way net : Prop :=
  ∀ i o j n t, net !! i = Some o → net !! j = Some n → (t, i) ∈ seen o →
    (t, i) ∈ seen n ∨ ∃ m, m ∈ inbox n ∧ kind m = "OBS"%string ∧ key_of m = (t, i).

(** Node [j] has recorded everything any originator has measured. *)
Definition complete (j : nat) net : Prop :=
  ∀ i o n t, net !! i = Some o → net !! j = Some n → (t, i) ∈ seen o → (t, i) ∈ seen n.

(** The acting node of a driver operation: its position, its state before,
    its state after, and what it gossips. *)
Definition act net (op : Op) : option (nat * Node Frame D * Node Frame D * list Msg) :=
  match op with
  | Measure i t =>
      (λ self, (i, self, (measure detect self t).1, (measure detect self t).2))
        <$> net !! i
  | Process i => (λ self, (i, self, (drain self).1, (drain self).2)) <$> net !! i
  | Deliver _ _ => None
  end.

(** The loop at the end of [main]: the votes of the nodes that decide, ['P']
    as [true] and ['A'] as [false]. *)
Definition final_votes net (last_t : nat) (min_quorum : Z) : list bool :=
  omap (λ n, present_majority <$> local_decision n last_t min_quorum) net.

(** [max(tally, key=tally.get)] over [tally = {k: votes.count(k) for k in
    set(votes)}]: the first key, in the order [keys] in which the set is
    gone through, whose count no other key exceeds; [None] stands for the
    branch "No quorum on last tick". *)
Definition votes_count (votes : list bool) (k : bool) : nat :=
  length (filter (λ v, v = k) votes).

Definition winner (keys : list bool) (votes : list bool) : option bool :=
  foldl (λ best k,
           match best with
           | None => Some k
           | Some b => if bool_decide (votes_count votes b < votes_count votes k)
                       then Some k else Some b
           end) None keys.

(** ** What one operation does to the acting node *)

Lemma mesh_receives_fields (ms : list Msg) n :
  node_id (foldl receive n ms) = node_id n
  ∧ peers (foldl receive n ms) = peers n
  ∧ seen (foldl receive n ms) = seen n
  ∧ agg (foldl receive n ms) = agg n
  ∧ inbox (foldl receive n ms) = inbox n ++ ms.
Proof.
  revert n. induction ms as [|m ms IH]; intros n; simpl.
  - by rewrite (right_id_L [] (++)).
  - destruct (IH (receive n m)) as (-> & -> & -> & -> & ->). simpl.
    by rewrite <-(assoc_L (++)).
Qed.

(** The acting node changes as [local_ok] says: its id and peers stay, what
    it had recorded and stored stays, what it sends was in its inbox or is
    its own fresh observation, what it newly stores it took from its inbox
    or measured itself, and a message that left its inbox is recorded. *)
Definition local_ok (self self' : Node Frame D) (out : list Msg) : Prop :=
  node_id self' = node_id self
  ∧ peers self' = peers self
  ∧ seen self ⊆ seen self'
  ∧ (agg_in_seen self →
     agg_in_seen self'
     ∧ ∀ t k e, agg_get (agg self) t k = Some e → agg_get (agg self') t k = Some e)
  ∧ (seen_in_agg self → seen_in_agg self')
  ∧ (∀ m, m ∈ out →
       m ∈ inbox self
       ∨ (kind m = "OBS"%string ∧ from (payload m) = node_id self
          ∧ agg_get (agg self') (tick (payload m)) (node_id self) = Some (entry_of m)))
  ∧ (∀ t k e, agg_get (agg self') t k = Some e →
       agg_get (agg self) t k = Some e ∨ k = node_id self
       ∨ ∃ m, m ∈ inbox self ∧ key_of m = (t, k) ∧ entry_of m = e)
  ∧ inbox self' ⊆ inbox self
  ∧ (∀ k, k ∈ seen self' →
       k ∈ seen self
       ∨ (∃ m, m ∈ out ∧ kind m = "OBS"%string ∧ key_of m = k)
       ∨ (∃ m, m ∈ inbox self ∧ key_of m = k))
  ∧ (∀ m, m ∈ inbox self → kind m = "OBS"%string →
       key_of m ∈ seen self' ∨ m ∈ inbox self').

Lemma mesh_handle_fold_entries (l : list Msg) self out t k e :
  agg_get (agg (for_each handle l (self, out)).1) t k = Some e →
  agg_get (agg self) t k = Some e
  ∨ ∃ m, m ∈ l ∧ key_of m = (t, k) ∧ entry_of m = e.
Proof.
  revert self out. induction l as [|m l IH]; intros self out; [by left|].
  rewrite for_each_handle_cons.
  destruct (handle_cases self out m) as [[-> _]|(-> & _)]; intros Hg.
  - destruct (IH _ _ Hg) as [?|(m' & ? & ?)]; [by left|].
    right. exists m'. split; [by apply elem_of_cons; right|done].
  - destruct (IH _ _ Hg) as [Hg'|(m' & ? & ?)].
    + simpl in Hg'. rewrite agg_get_set in Hg'.
      destruct (decide ((t, k) = (tick (payload m), from (payload m)))) as [Heq|];
        [|by left].
      right. exists m. split; [by apply elem_of_cons; left|].
      split; [done|congruence].
    + right. exists m'. split; [by apply elem_of_cons; right|done].
Qed.

Lemma mesh_drain_ok self : local_ok self (drain self).1 (drain self).2.
Proof.
  unfold drain.
  pose proof (handle_fold_fields (inbox self) (set_inbox self []) []) as Hf.
  pose proof (handle_fold_seen (inbox self) (set_inbox self []) []) as Hs.
  destruct (handle_fold_outbox (inbox self) (set_inbox self []) [])
    as (new & Hout & _ & Hin & Hsub).
  pose proof (handle_fold_agg (inbox self) (set_inbox self []) []) as Ha.
  pose proof (handle_fold_seen_in_agg (inbox self) (set_inbox self []) []) as Hsa.
  pose proof (λ t k e, mesh_handle_fold_entries (inbox self) (set_inbox self []) [] t k e)
    as He.
  destruct (for_each handle (inbox self) (set_inbox self [], [])) as [self' out].
  simpl in *. subst out. destruct Hf as (Hid & _ & _ & _ & Hp & Hi).
  unfold local_ok. split_and!; try done.
  - rewrite Hs. clear. set_solver.
  - intros m Hm. left. by apply Hsub.
  - intros t k e Hg. destruct (He t k e Hg) as [?|?]; [by left|by right; right].
  - rewrite Hi. apply list_subseteq_nil.
  - intros k. rewrite Hs, elem_of_union, elem_of_list_to_set.
    intros [?|Hk]; [by left|]. right. right. unfold obs_keys in Hk.
    apply list_elem_of_fmap in Hk as (m & -> & Hm).
    apply list_elem_of_filter in Hm as [_ Hm]. by exists m.
  - intros m Hm Hk. left. rewrite Hs, elem_of_union, elem_of_list_to_set.
    right. unfold obs_keys. apply list_elem_of_fmap_2.
    by apply list_elem_of_filter.
Qed.

Lemma mesh_publish_ok self t r :
  local_ok self (publish self t r).1 (publish self t r).2.
Proof.
  destruct (publish_cases self t r) as [[-> Hk]|[-> Hk]]; simpl.
  - unfold local_ok. split_and!; try done.
    + set_solver.
    + intros t' k e. by left.
    + intros k ?. by left.
    + intros m ? ?. by right.
  - unfold local_ok. simpl. split_and!; try done.
    + set_solver.
    + intros Ha. by apply record_obs_agg.
    + apply record_obs_seen_in_agg.
    + intros m ->%list_elem_of_singleton. right. simpl.
      split_and!; [done|done|]. rewrite agg_get_set. rewrite decide_True by done.
      by destruct r as [[? ?] ?].
    + intros t' k e. rewrite agg_get_set.
      destruct (decide ((t', k) = (t, node_id self))) as [[= -> ->]|]; [|by left].
      intros _. right. by left.
    + intros k [->%elem_of_singleton|?]%elem_of_union; [|by left].
      right. left. eexists. split; [by apply list_elem_of_singleton|done].
    + intros m ? ?. by right.
Qed.

Lemma mesh_measure_ok self t :
  local_ok self (measure detect self t).1 (measure detect self t).2.
Proof.
  rewrite measure_unfold.
  destruct (acquire_fields detect self) as (Hid & Hpeers & Hinbox & Hseen & Hagg & _).
  pose proof (mesh_publish_ok (acquire detect self).1 t (acquire detect self).2) as Hp.
  unfold local_ok, agg_in_seen, seen_in_agg in *.
  by rewrite Hid, Hpeers, Hinbox, Hseen, Hagg in Hp.
Qed.

Lemma mesh_act_ok net op i self self' out :
  act net op = Some (i, self, self', out) →
  net !! i = Some self ∧ local_ok self self' out.
Proof.
  destruct op as [j t|j|j m]; simpl; [| |done].
  - destruct (net !! j) as [s|] eqn:Hs; [|done]. simpl. intros [= <- <- <- <-].
    split; [done|apply mesh_measure_ok].
  - destruct (net !! j) as [s|] eqn:Hs; [|done]. simpl. intros [= <- <- <- <-].
    split; [done|apply mesh_drain_ok].
Qed.

(** ** What one operation does to the network *)

Lemma mesh_step_none net op :
  driver_op op → act net op = None → (step detect net op).1 = net.
Proof.
  destruct op as [j t|j|j m]; simpl; [| |done]; intros _.
  - unfold measure_and_broadcast. by destruct (net !! j).
  - unfold process_messages. by destruct (net !! j).
Qed.

Lemma mesh_step_lookup net op i self self' out p n :
  act net op = Some (i, self, self', out) →
  net !! p = Some n →
  (step detect net op).1 !! p
  = Some (if decide (p = i) then self'
          else foldl receive n (out ≫= replicate (copies node_id peers self' p n))).
Proof.
  intros Hact Hn.
  assert ((step detect net op).1 = for_each (gossip i) out (<[i := self']> net)
          ∧ net !! i = Some self) as [-> Hself].
  { destruct op as [j t|j|j m]; simpl in *; [| |done].
    - unfold measure_and_broadcast.
      destruct (net !! j) as [s|] eqn:Hs; [|done]. simpl in Hact.
      injection Hact as <- <- <- <-. split; [|done].
      by destruct (measure detect s t).
    - unfold process_messages.
      destruct (net !! j) as [s|] eqn:Hs; [|done]. simpl in Hact.
      injection Hact as <- <- <- <-. split; [|done].
      by destruct (drain s). }
  assert (<[i := self']> net !! i = Some self') as Hi.
  { apply list_lookup_insert_eq. by eapply lookup_lt_Some. }
  destruct (decide (p = i)) as [->|Hpi].
  - assert (n = self) as -> by congruence.
    exact (proj2 (gossips_exact node_id peers receive (λ _ _, eq_refl) i out
                    (<[i := self']> net) self' i self' Hi Hi)).
  - assert (<[i := self']> net !! p = Some n) as Hp
      by (by rewrite list_lookup_insert_ne).
    exact (proj1 (gossips_exact node_id peers receive (λ _ _, eq_refl) i out
                    (<[i := self']> net) self' p n Hi Hp)).
Qed.

(** The messages a node gets in one operation are among those the acting
    node sends. *)
Lemma mesh_delivered_sent (out : list Msg) (c : nat) m :
  m ∈ out ≫= replicate c → m ∈ out.
Proof.
  intros (m' & Hm & ?)%list_elem_of_bind.
  by apply elem_of_replicate in Hm as [-> _].
Qed.

Lemma mesh_sent_delivered (out : list Msg) (c : nat) m :
  0 < c → m ∈ out → m ∈ out ≫= replicate c.
Proof.
  intros Hc Hm. apply list_elem_of_bind. exists m. split; [|done].
  apply elem_of_replicate. split; [done|lia].
Qed.

Lemma mesh_step_inv net op i self self' out p n' :
  act net op = Some (i, self, self', out) →
  (step detect net op).1 !! p = Some n' →
  ∃ n, net !! p = Some n
       ∧ n' = (if decide (p = i) then self'
               else foldl receive n (out ≫= replicate (copies node_id peers self' p n))).
Proof.
  intros Hact Hn'. destruct (net !! p) as [n|] eqn:Hn.
  - exists n. split; [done|].
    rewrite (mesh_step_lookup net op i self self' out p n Hact Hn) in Hn'.
    congruence.
  - apply lookup_lt_Some in Hn'. apply lookup_ge_None in Hn.
    rewrite step_length in Hn'. lia.
Qed.

(** ** The three invariants of a driver run *)

Lemma mesh_origin_kept net op i self self' out t k e :
  act net op = Some (i, self, self', out) →
  genuine net → origin_has net t k e → origin_has (step detect net op).1 t k e.
Proof.
  intros Hact (_ & _ & G3) (o & Ho & Hg).
  destruct (mesh_act_ok net op i self self' out Hact) as [Hself Hok].
  unfold origin_has.
  rewrite (mesh_step_lookup net op i self self' out k o Hact Ho).
  eexists. split; [done|]. destruct (decide (k = i)) as [->|Hki].
  - assert (o = self) as -> by congruence.
    destruct Hok as (_ & _ & _ & Hkeep & _).
    destruct (G3 i self Hself) as (_ & Ha & _). by apply Hkeep.
  - by destruct (mesh_receives_fields
                   (out ≫= replicate (copies node_id peers self' k o)) o)
      as (_ & _ & _ & -> & _).
Qed.

Lemma mesh_step_genuine net op :
  driver_op op → genuine net → genuine (step detect net op).1.
Proof.
  intros Hop Hgen.
  destruct (act net op) as [[[[i self] self'] out]|] eqn:Hact;
    [|by rewrite mesh_step_none].
  pose proof (λ t k e, mesh_origin_kept net op i self self' out t k e Hact Hgen)
    as Hkept.
  destruct (mesh_act_ok net op i self self' out Hact) as [Hself Hok].
  destruct Hgen as (G1 & G2 & G3).
  destruct (G3 i self Hself) as (Hidi & Hai & Hsi).
  destruct Hok as (Hid & _ & _ & Hkeep & Hsa & Hout & Hent & Hinb & _).
  assert (origin_has (step detect net op).1 = origin_has (step detect net op).1)
    as _ by done.
  assert ((step detect net op).1 !! i = Some self') as Hi'.
  { rewrite (mesh_step_lookup net op i self self' out i self Hact Hself).
    by rewrite decide_True. }
  split_and!.
  - intros j n' m Hn' Hm.
    destruct (mesh_step_inv net op i self self' out j n' Hact Hn') as (n & Hn & ->).
    destruct (decide (j = i)) as [->|Hji].
    + destruct (G1 i self m Hself (Hinb m Hm)) as [? ?]. split; [done|by apply Hkept].
    + destruct (mesh_receives_fields
                  (out ≫= replicate (copies node_id peers self' j n)) n)
        as (_ & _ & _ & _ & Hin).
      rewrite Hin in Hm. apply elem_of_app in Hm as [Hm|Hm].
      * destruct (G1 j n m Hn Hm) as [? ?]. split; [done|by apply Hkept].
      * apply mesh_delivered_sent in Hm.
        destruct (Hout m Hm) as [Hmi|(Hk & Hfrom & Hg)].
        -- destruct (G1 i self m Hself Hmi) as [? ?]. split; [done|by apply Hkept].
        -- split; [done|]. rewrite Hfrom, Hidi. exists self'.
           split; [done|]. by rewrite <-Hidi.
  - intros j n' t k e Hn' Hg.
    destruct (mesh_step_inv net op i self self' out j n' Hact Hn') as (n & Hn & ->).
    destruct (decide (j = i)) as [->|Hji].
    + destruct (Hent t k e Hg) as [Hold|[->|(m & Hm & Hkey & He)]].
      * apply Hkept. exact (G2 i self t k e Hself Hold).
      * rewrite Hidi. exists self'. split; [done|]. by rewrite <-Hidi.
      * apply Hkept. destruct (G1 i self m Hself Hm) as [_ Ho].
        unfold key_of in Hkey. injection Hkey as <- <-. by rewrite <-He.
    + destruct (mesh_receives_fields
                  (out ≫= replicate (copies node_id peers self' j n)) n)
        as (_ & _ & _ & Hagg & _).
      rewrite Hagg in Hg. apply Hkept. exact (G2 j n t k e Hn Hg).
  - intros j n' Hn'.
    destruct (mesh_step_inv net op i self self' out j n' Hact Hn') as (n & Hn & ->).
    destruct (decide (j = i)) as [->|Hji].
    + split_and!; [congruence|by apply Hkeep|by apply Hsa].
    + destruct (G3 j n Hn) as (? & ? & ?).
      destruct (mesh_receives_fields
                  (out ≫= replicate (copies node_id peers self' j n)) n)
        as (Hid' & _ & Hseen & Hagg & _).
      unfold agg_in_seen, seen_in_agg. by rewrite Hid', Hseen, Hagg.
Qed.

Lemma mesh_step_connected net op :
  driver_op op → fully_connected net → fully_connected (step detect net op).1.
Proof.
  intros Hop Hfc.
  destruct (act net op) as [[[[i self] self'] out]|] eqn:Hact;
    [|by rewrite mesh_step_none].
  destruct (mesh_act_ok net op i self self' out Hact) as [Hself Hok].
  destruct Hok as (_ & Hpeers & _).
  intros p n' j Hn' Hj. rewrite step_length in Hj.
  destruct (mesh_step_inv net op i self self' out p n' Hact Hn') as (n & Hn & ->).
  destruct (decide (p = i)) as [->|Hpi].
  - rewrite Hpeers. by eapply Hfc.
  - destruct (mesh_receives_fields
                (out ≫= replicate (copies node_id peers self' p n)) n)
      as (_ & -> & _). by eapply Hfc.
Qed.

Lemma mesh_filter_pos (l : list nat) (x : nat) :
  x ∈ l → 0 < length (filter (λ y, y = x) l).
Proof.
  induction l as [|y l IH]; [by intros ?%elem_of_nil|].
  rewrite filter_cons. intros [->|Hx]%elem_of_cons.
  - rewrite decide_True by done. simpl. lia.
  - destruct (decide (y = x)); simpl; [lia|by apply IH].
Qed.

(** What is recorded or waiting at a node before an operation is recorded
    or waiting after it. *)
Lemma mesh_step_still_waiting net op i self self' out j n n' k :
  act net op = Some (i, self, self', out) →
  net !! j = Some n → (step detect net op).1 !! j = Some n' →
  k ∈ seen n ∨ (∃ m, m ∈ inbox n ∧ kind m = "OBS"%string ∧ key_of m = k) →
  k ∈ seen n' ∨ (∃ m, m ∈ inbox n' ∧ kind m = "OBS"%string ∧ key_of m = k).
Proof.
  intros Hact Hn Hn' Hw.
  destruct (mesh_act_ok net op i self self' out Hact) as [Hself Hok].
  rewrite (mesh_step_lookup net op i self self' out j n Hact Hn) in Hn'.
  injection Hn' as <-. destruct (decide (j = i)) as [->|Hji].
  - assert (n = self) as -> by congruence.
    destruct Hok as (_ & _ & Hsub & _ & _ & _ & _ & _ & _ & Hgone).
    destruct Hw as [?|(m & Hm & Hk & <-)]; [left; by apply Hsub|].
    destruct (Hgone m Hm Hk) as [?|?]; [by left|right; by exists m].
  - destruct (mesh_receives_fields
                (out ≫= replicate (copies node_id peers self' j n)) n)
      as (_ & _ & -> & _ & ->).
    destruct Hw as [?|(m & Hm & ?)]; [by left|].
    right. exists m. split; [apply elem_of_app; by left|done].
Qed.

Lemma mesh_step_on_its_way net op :
  driver_op op → genuine net → fully_connected net →
  on_its_way net → on_its_way (step detect net op).1.
Proof.
  intros Hop Hgen Hfc Hway.
  destruct (act net op) as [[[[a self] self'] out]|] eqn:Hact;
    [|by rewrite mesh_step_none].
  destruct (mesh_act_ok net op a self self' out Hact) as [Hself Hok].
  intros i o' j n' t Ho' Hn' Hin.
  destruct (decide (j = i)) as [->|Hji]; [left; congruence|].
  destruct (mesh_step_inv net op a self self' out i o' Hact Ho') as (o & Ho & Heqo).
  destruct (mesh_step_inv net op a self self' out j n' Hact Hn') as (n & Hn & Heqn).
  pose proof (mesh_step_still_waiting net op a self self' out j n n' (t, i)
                Hact Hn Hn') as Hstill.
  destruct Hgen as (G1 & _ & G3).
  destruct (decide (i = a)) as [->|Hia].
  - assert (o = self) as -> by congruence. subst o'.
    destruct Hok as (Hid & Hpeers & _ & _ & _ & _ & _ & _ & Hnew & _).
    destruct (G3 a self Hself) as (Hida & Hais & _).
    destruct (Hnew _ Hin) as [Hold|[(m & Hm & Hk & Hkey)|(m & Hm & Hkey)]].
    + apply Hstill. by eapply Hway.
    + right. exists m. split; [|done]. subst n'. rewrite decide_False by done.
      destruct (mesh_receives_fields
                  (out ≫= replicate (copies node_id peers self' j n)) n)
        as (_ & _ & _ & _ & ->).
      apply elem_of_app. right. apply mesh_sent_delivered; [|done].
      unfold copies. destruct (G3 j n Hn) as (Hidj & _).
      rewrite decide_True by congruence. apply mesh_filter_pos.
      rewrite Hpeers. eapply Hfc; [done|]. by eapply lookup_lt_Some.
    + apply Hstill. eapply Hway; [done..|].
      destruct (G1 a self m Hself Hm) as [_ (o2 & Ho2 & Hg)].
      unfold key_of in Hkey. injection Hkey as Ht Hf. rewrite Hf in Ho2, Hg.
      assert (o2 = self) as -> by congruence.
      apply Hais. rewrite <-Ht. by rewrite Hg.
  - subst o'.
    destruct (mesh_receives_fields
                (out ≫= replicate (copies node_id peers self' i o)) o)
      as (_ & _ & Hs & _). rewrite Hs in Hin.
    apply Hstill. by eapply Hway.
Qed.

(** ** Along a run *)

Definition mesh_inv net : Prop := genuine net ∧ fully_connected net ∧ on_its_way net.

Lemma mesh_run_cons (op : Op) (ops : list Op) net :
  (run detect (op :: ops) net).1 = (run detect ops (step detect net op).1).1.
Proof.
  simpl. destruct (step detect net op) as [net1 tr1]. simpl.
  by destruct (run detect ops net1).
Qed.

Lemma mesh_run_app (a b : list Op) net :
  (run detect (a ++ b) net).1 = (run detect b (run detect a net).1).1.
Proof.
  revert net. induction a as [|op a IH]; intros net; [done|].
  change ((op :: a) ++ b) with (op :: (a ++ b)). by rewrite !mesh_run_cons, IH.
Qed.

Lemma mesh_run_genuine (ops : list Op) net :
  Forall driver_op ops → genuine net → genuine (run detect ops net).1.
Proof.
  revert net. induction ops as [|op ops IH]; intros net Hops Hg; [done|].
  apply Forall_cons in Hops as [Hop Hops]. rewrite mesh_run_cons.
  by apply IH, mesh_step_genuine.
Qed.

Lemma mesh_run_inv (ops : list Op) net :
  Forall driver_op ops → mesh_inv net → mesh_inv (run detect ops net).1.
Proof.
  revert net. induction ops as [|op ops IH]; intros net Hops Hi; [done|].
  apply Forall_cons in Hops as [Hop Hops]. rewrite mesh_run_cons.
  destruct Hi as (Hg & Hc & Hw). apply IH; [done|]. split_and!.
  - by apply mesh_step_genuine.
  - by apply mesh_step_connected.
  - by apply mesh_step_on_its_way.
Qed.

Lemma mesh_fresh_genuine net :
  Forall fresh net → ids_are_positions net → genuine net.
Proof.
  intros Hf Hid. rewrite Forall_lookup in Hf. split_and!.
  - intros j n m Hn Hm. destruct (Hf j n Hn) as (_ & _ & Hi).
    rewrite Hi in Hm. by apply elem_of_nil in Hm.
  - intros j n t i e Hn Hg. destruct (Hf j n Hn) as (_ & Ha & _).
    unfold agg_get in Hg. by rewrite Ha, lookup_empty in Hg.
  - intros j n Hn. split_and!; [by apply Hid| |].
    + by apply fresh_agg_in_seen, (Hf j n Hn).
    + by apply fresh_seen_in_agg, (Hf j n Hn).
Qed.

Lemma mesh_fresh_on_its_way net : Forall fresh net → on_its_way net.
Proof.
  intros Hf i o j n t Ho _ Hin. rewrite Forall_lookup in Hf.
  destruct (Hf i o Ho) as (Hs & _). rewrite Hs in Hin. set_solver.
Qed.

(** ** One round of processing *)

Lemma mesh_drain_inbox self : inbox (drain self).1 = [].
Proof.
  unfold drain.
  by destruct (handle_fold_fields (inbox self) (set_inbox self []) [])
    as (_ & _ & _ & _ & _ & ->).
Qed.

Lemma mesh_drain_out self m : m ∈ (drain self).2 → m ∈ inbox self.
Proof.
  unfold drain.
  destruct (handle_fold_outbox (inbox self) (set_inbox self []) [])
    as (new & -> & _ & _ & Hsub). simpl. apply Hsub.
Qed.

Lemma mesh_process_complete net j :
  genuine net → on_its_way net → complete j (step detect net (Process j)).1.
Proof.
  intros Hgen Hway i o' n' t Ho' Hn' Hin.
  destruct (net !! j) as [self|] eqn:Hself.
  2:{ rewrite mesh_step_none in Hn' by (by simpl; try rewrite Hself). congruence. }
  assert (act net (Process j) = Some (j, self, (drain self).1, (drain self).2))
    as Hact by (simpl; by rewrite Hself).
  destruct (decide (i = j)) as [->|Hij]; [congruence|].
  destruct (mesh_step_inv _ _ _ _ _ _ i o' Hact Ho') as (o & Ho & ->).
  rewrite (mesh_step_lookup _ _ _ _ _ _ j self Hact Hself) in Hn'.
  rewrite decide_True in Hn' by done. injection Hn' as <-.
  rewrite decide_False in Hin by done.
  destruct (mesh_receives_fields
              ((drain self).2 ≫= replicate (copies node_id peers (drain self).1 i o)) o)
    as (_ & _ & Hs & _). rewrite Hs in Hin.
  destruct (mesh_drain_ok self) as (_ & _ & Hsub & _ & _ & _ & _ & _ & _ & Hgone).
  destruct (Hway i o j self t Ho Hself Hin) as [?|(m & Hm & Hk & <-)];
    [by apply Hsub|].
  destruct (Hgone m Hm Hk) as [?|Hm']; [done|].
  rewrite mesh_drain_inbox in Hm'. by apply elem_of_nil in Hm'.
Qed.

(** Processing adds no key of the node's own to what it has recorded. *)
Lemma mesh_process_own net a i o o' t :
  genuine net → net !! i = Some o →
  (step detect net (Process a)).1 !! i = Some o' →
  (t, i) ∈ seen o' → (t, i) ∈ seen o.
Proof.
  intros Hgen Ho Ho' Hin.
  destruct (net !! a) as [self|] eqn:Hself.
  2:{ rewrite mesh_step_none in Ho' by (by simpl; try rewrite Hself). congruence. }
  assert (act net (Process a) = Some (a, self, (drain self).1, (drain self).2))
    as Hact by (simpl; by rewrite Hself).
  rewrite (mesh_step_lookup _ _ _ _ _ _ i o Hact Ho) in Ho'. injection Ho' as <-.
  destruct (decide (i = a)) as [->|Hia].
  - assert (o = self) as -> by congruence.
    destruct Hgen as (G1 & _ & G3). destruct (G3 a self Hself) as (_ & Hais & _).
    destruct (mesh_drain_ok self) as (_ & _ & _ & _ & _ & _ & _ & _ & Hnew & _).
    assert (∀ m, m ∈ inbox self → key_of m = (t, a) → (t, a) ∈ seen self) as Hmine.
    { intros m Hm Hkey. destruct (G1 a self m Hself Hm) as [_ (o2 & Ho2 & Hg)].
      unfold key_of in Hkey. injection Hkey as Ht Hf. rewrite Hf in Ho2, Hg.
      assert (o2 = self) as -> by congruence.
      apply Hais. rewrite <-Ht. by rewrite Hg. }
    destruct (Hnew _ Hin) as [?|[(m & Hm & _ & Hkey)|(m & Hm & Hkey)]]; [done| |].
    + eapply Hmine; [|done]. by apply mesh_drain_out.
    + by eapply Hmine.
  - by destruct (mesh_receives_fields
                   ((drain self).2
                      ≫= replicate (copies node_id peers (drain self).1 i o)) o)
      as (_ & _ & <- & _).
Qed.

Lemma mesh_step_seen_mono net op j n n' :
  net !! j = Some n → (step detect net op).1 !! j = Some n' → seen n ⊆ seen n'.
Proof.
  intros Hn Hn'.
  destruct (step_project detect net op j n Hn) as (lops & Hl & _).
  rewrite Hn' in Hl. injection Hl as ->.
  destruct (local_run_trans detect lops n) as (_ & _ & -> & _). set_solver.
Qed.

Lemma mesh_process_keeps_complete net a j :
  genuine net → complete j net → complete j (step detect net (Process a)).1.
Proof.
  intros Hgen Hc i o' n' t Ho' Hn' Hin.
  assert (∃ o, net !! i = Some o) as [o Ho].
  { destruct (net !! i) as [o|] eqn:Ho; [by eexists|].
    apply lookup_lt_Some in Ho'. apply lookup_ge_None in Ho.
    rewrite step_length in Ho'. lia. }
  assert (∃ n, net !! j = Some n) as [n Hn].
  { destruct (net !! j) as [n|] eqn:Hn; [by eexists|].
    apply lookup_lt_Some in Hn'. apply lookup_ge_None in Hn.
    rewrite step_length in Hn'. lia. }
  apply (mesh_step_seen_mono net (Process a) j n n' Hn Hn').
  eapply Hc; [done..|]. by eapply mesh_process_own.
Qed.

Lemma mesh_round (l : list nat) net :
  mesh_inv net →
  mesh_inv (run detect (Process <$> l) net).1
  ∧ (∀ j, j ∈ l → complete j (run detect (Process <$> l) net).1)
  ∧ (∀ j, complete j net → complete j (run detect (Process <$> l) net).1).
Proof.
  revert net. induction l as [|a l IH]; intros net Hinv.
  { split_and!; [done| |done]. by intros j ?%elem_of_nil. }
  rewrite fmap_cons, mesh_run_cons.
  assert (mesh_inv (step detect net (Process a)).1) as Hinv1.
  { apply (mesh_run_inv [Process a] net); [|done]. by repeat constructor. }
  destruct (IH _ Hinv1) as (Hinv2 & Hin & Hkeep). destruct Hinv as (Hg & _ & Hw).
  split_and!; [done| |].
  - intros j [->|Hj]%elem_of_cons; [|by apply Hin].
    by apply Hkeep, mesh_process_complete.
  - intros j Hc. by apply Hkeep, mesh_process_keeps_complete.
Qed.

(** ** When every node is complete, all nodes hold the same *)

Lemma mesh_complete_same net j j' n n' t k :
  genuine net → (∀ i, complete i net) →
  net !! j = Some n → net !! j' = Some n' →
  agg_get (agg n) t k = agg_get (agg n') t k.
Proof.
  intros (_ & G2 & G3) Hall Hn Hn'.
  assert (∀ a b na nb e,
            net !! a = Some na → net !! b = Some nb →
            agg_get (agg na) t k = Some e → agg_get (agg nb) t k = Some e) as Hone.
  { intros a b na nb e Ha Hb Hg.
    destruct (G2 a na t k e Ha Hg) as (o & Ho & Hgo).
    destruct (G3 k o Ho) as (_ & Hais & _). destruct (G3 b nb Hb) as (_ & _ & Hsia).
    assert ((t, k) ∈ seen nb) as Hin.
    { eapply (Hall b k o nb t); [done..|]. apply Hais. by rewrite Hgo. }
    destruct (Hsia t k Hin) as [e' He'].
    destruct (G2 b nb t k e' Hb He') as (o' & Ho' & Hgo'). congruence. }
  destruct (agg_get (agg n) t k) as [e|] eqn:He.
  - symmetry. by eapply (Hone j j').
  - destruct (agg_get (agg n') t k) as [e'|] eqn:He'; [|done].
    rewrite <-He. by eapply (Hone j' j).
Qed.

Lemma mesh_snapshot_lookup (a : gmap nat (gmap nat Entry)) t k :
  snapshot a t !! k = agg_get a t k.
Proof.
  unfold snapshot, agg_get. destruct (a !! t); simpl; [done|apply lookup_empty].
Qed.

Lemma mesh_same_decision n n' t q :
  (∀ k, agg_get (agg n) t k = agg_get (agg n') t k) →
  local_decision n t q = local_decision n' t q.
Proof.
  intros Hsame. unfold local_decision. rewrite !local_decision_agg_snapshot.
  f_equal. apply map_eq. intros k. by rewrite !mesh_snapshot_lookup.
Qed.

(** ** The run of [main] *)

Lemma mesh_main_net_lookup (cams : list (bool * list (bool * option Frame))) (d0 : D) i n :
  main_net cams d0 !! i = Some n →
  ∃ c, cams !! i = Some c
       ∧ n = connect (new_node i c.1 c.2 d0) (seq 0 (length cams)).
Proof.
  unfold main_net. rewrite list_lookup_imap.
  destruct (cams !! i) as [c|]; [|done]. simpl. intros [= <-]. by exists c.
Qed.

Lemma mesh_main_net_fresh (cams : list (bool * list (bool * option Frame))) (d0 : D) :
  Forall fresh (main_net cams d0) ∧ ids_are_positions (main_net cams d0).
Proof.
  split.
  - apply Forall_lookup. intros i n Hn.
    by destruct (mesh_main_net_lookup cams d0 i n Hn) as (c & _ & ->).
  - intros i n Hn. by destruct (mesh_main_net_lookup cams d0 i n Hn) as (c & _ & ->).
Qed.

Lemma mesh_main_net_inv (cams : list (bool * list (bool * option Frame))) (d0 : D) :
  mesh_inv (main_net cams d0).
Proof.
  destruct (mesh_main_net_fresh cams d0) as [Hf Hid]. split_and!.
  - by apply mesh_fresh_genuine.
  - intros i n j Hn Hj.
    destruct (mesh_main_net_lookup cams d0 i n Hn) as (c & _ & ->). simpl.
    unfold main_net in Hj. rewrite length_imap in Hj. apply elem_of_seq. lia.
  - by apply mesh_fresh_on_its_way.
Qed.

Lemma mesh_tick_ops_driver (n rounds t : nat) : Forall driver_op (tick_ops n rounds t).
Proof.
  unfold tick_ops. apply Forall_app. split.
  - apply Forall_fmap, Forall_forall. done.
  - apply Forall_join, Forall_replicate, Forall_fmap, Forall_forall. done.
Qed.

Lemma mesh_main_ops_driver (n rounds steps : nat) :
  Forall driver_op (main_ops n rounds steps).
Proof.
  unfold main_ops. apply Forall_join, Forall_fmap, Forall_forall.
  intros t _. apply mesh_tick_ops_driver.
Qed.

(** With at least one round and one tick, [main] ends on a full round. *)
Lemma mesh_main_ops_ends (n rounds steps : nat) :
  0 < rounds → 0 < steps →
  ∃ pre, main_ops n rounds steps = pre ++ (Process <$> seq 0 n)
         ∧ Forall driver_op pre.
Proof.
  intros Hr Hs. destruct rounds as [|r]; [lia|]. destruct steps as [|k]; [lia|].
  exists (main_ops n (S r) k
          ++ ((λ i, Measure i k) <$> seq 0 n)
          ++ mjoin (replicate r (Process <$> seq 0 n))).
  split.
  - unfold main_ops at 1. rewrite seq_S, fmap_app, join_app. simpl.
    rewrite (right_id_L [] (++)). unfold tick_ops at 2.
    rewrite replicate_S_end, join_app. simpl. rewrite (right_id_L [] (++)).
    by rewrite <-!(assoc_L (++)).
  - apply Forall_app. split; [apply mesh_main_ops_driver|].
    apply Forall_app. split.
    + apply Forall_fmap, Forall_forall. done.
    + apply Forall_join, Forall_replicate, Forall_fmap, Forall_forall. done.
Qed.

Lemma mesh_main_all_complete (cams : list (bool * list (bool * option Frame)))
    (d0 : D) (rounds steps : nat) :
  0 < rounds → 0 < steps →
  mesh_inv (run detect (main_ops (length cams) rounds steps) (main_net cams d0)).1
  ∧ ∀ j, complete j
           (run detect (main_ops (length cams) rounds steps) (main_net cams d0)).1.
Proof.
  intros Hr Hs.
  destruct (mesh_main_ops_ends (length cams) rounds steps Hr Hs) as (pre & -> & Hpre).
  rewrite mesh_run_app.
  pose proof (mesh_run_inv pre _ Hpre (mesh_main_net_inv cams d0)) as Hinv.
  destruct (mesh_round (seq 0 (length cams)) _ Hinv) as (Hinv' & Hin & _).
  split; [done|]. intros j.
  destruct (decide (j < length cams)) as [Hj|Hj].
  - apply Hin, elem_of_seq. lia.
  - intros i o n t _ Hn _. apply lookup_lt_Some in Hn.
    rewrite !run_length in Hn. unfold main_net in Hn. rewrite length_imap in Hn. lia.
Qed.

(** After [Measure i t] the node has recorded its own key for the tick. *)
Lemma mesh_measured (ops : list Op) net i t o :
  Forall driver_op ops → genuine net →
  Measure i t ∈ ops → (run detect ops net).1 !! i = Some o → (t, i) ∈ seen o.
Proof.
  revert net. induction ops as [|op ops IH]; intros net Hops Hgen Hin Ho.
  { by apply elem_of_nil in Hin. }
  apply Forall_cons in Hops as [Hop Hops]. rewrite mesh_run_cons in Ho.
  pose proof (mesh_step_genuine net op Hop Hgen) as Hgen1.
  apply elem_of_cons in Hin as [<-|Hin]; [|by eapply IH].
  destruct (run_lookup_inv detect ops _ i o Ho) as (n1 & Hn1 & Ht).
  destruct Ht as (_ & _ & -> & _).
  assert ((t, i) ∈ seen n1); [|set_solver].
  destruct (net !! i) as [self|] eqn:Hself.
  2:{ apply lookup_lt_Some in Hn1. apply lookup_ge_None in Hself.
      rewrite step_length in Hn1. lia. }
  assert (act net (Measure i t)
          = Some (i, self, (measure detect self t).1, (measure detect self t).2))
    as Hact by (simpl; by rewrite Hself).
  rewrite (mesh_step_lookup _ _ _ _ _ _ i self Hact Hself) in Hn1.
  rewrite decide_True in Hn1 by done. injection Hn1 as <-.
  destruct Hgen as (_ & _ & G3). destruct (G3 i self Hself) as (Hid & _).
  rewrite measure_unfold.
  destruct (acquire_fields detect self) as (Hid1 & _ & _ & Hseen & _).
  destruct (publish_cases (acquire detect self).1 t (acquire detect self).2)
    as [[-> Hk]|[-> Hk]]; simpl.
  - by rewrite Hid1, Hid in Hk.
  - rewrite Hid1, Hid. set_solver.
Qed.

Lemma mesh_main_ops_measures (n rounds steps i t : nat) :
  i < n → t < steps → Measure i t ∈ main_ops n rounds steps.
Proof.
  intros Hi Ht. unfold main_ops. apply list_elem_of_join.
  exists (tick_ops n rounds t). split.
  - unfold tick_ops. apply elem_of_app. left.
    apply (list_elem_of_fmap_2 (λ i, Measure i t)). apply elem_of_seq. lia.
  - apply list_elem_of_fmap_2. apply elem_of_seq. lia.
Qed.

(** ** Agreement *)

(** X2. In a run of the driver (nodes measure and process, nothing else
    fills an inbox) from freshly made nodes whose ids are their positions,
    whatever the peer lists are: an entry that any node holds for
    [(tick, originator)] is the entry the originator itself holds, so two
    nodes never hold different entries for the same key. *)
Theorem entries_agree (net0 : list (Node Frame D)) (ops : list Op) :
  Forall fresh net0 → ids_are_positions net0 → Forall driver_op ops →
  ∀ j n t i e,
    (run detect ops net0).1 !! j = Some n →
    agg_get (agg n) t i = Some e →
    origin_has (run detect ops net0).1 t i e
    ∧ ∀ j' n' e',
        (run detect ops net0).1 !! j' = Some n' →
        agg_get (agg n') t i = Some e' → e' = e.
Proof.
  intros Hf Hid Hops j n t i e Hn Hg.
  pose proof (mesh_run_genuine ops net0 Hops (mesh_fresh_genuine net0 Hf Hid))
    as (_ & G2 & _).
  destruct (G2 j n t i e Hn Hg) as (o & Ho & Hgo). split; [by exists o|].
  intros j' n' e' Hn' Hg'.
  destruct (G2 j' n' t i e' Hn' Hg') as (o' & Ho' & Hgo'). congruence.
Qed.

(** X3. When [main] has run (at least one tick, at least one round per
    tick), whatever the cameras delivered: every two nodes give the same
    [local_decision] for every tick and every [min_quorum]. *)
Theorem main_decisions_agree (cams : list (bool * list (bool * option Frame)))
    (d0 : D) (rounds steps : nat) :
  0 < rounds → 0 < steps →
  ∀ j j' n n' t q,
    (run detect (main_ops (length cams) rounds steps) (main_net cams d0)).1 !! j
    = Some n →
    (run detect (main_ops (length cams) rounds steps) (main_net cams d0)).1 !! j'
    = Some n' →
    local_decision n t q = local_decision n' t q.
Proof.
  intros Hr Hs j j' n n' t q Hn Hn'.
  destruct (mesh_main_all_complete cams d0 rounds steps Hr Hs) as ((Hg & _) & Hall).
  apply mesh_same_decision. intros k. by eapply mesh_complete_same.
Qed.

(** X4. When [main] has run (at least one round per tick), every node holds,
    for every tick of the run, an entry of every node of the network and of
    nobody else. *)
Theorem main_observations_everywhere (cams : list (bool * list (bool * option Frame)))
    (d0 : D) (rounds steps : nat) :
  0 < rounds →
  ∀ j n t i,
    (run detect (main_ops (length cams) rounds steps) (main_net cams d0)).1 !! j
    = Some n →
    t < steps →
    is_Some (agg_get (agg n) t i) ↔ i < length cams.
Proof.
  intros Hr j n t i Hn Ht. assert (0 < steps) as Hs by lia.
  destruct (mesh_main_all_complete cams d0 rounds steps Hr Hs)
    as ((Hg & _) & Hall).
  assert (length (run detect (main_ops (length cams) rounds steps)
                    (main_net cams d0)).1 = length cams) as Hlen.
  { rewrite run_length. unfold main_net. by rewrite length_imap. }
  split.
  - intros [e He]. destruct Hg as (_ & G2 & _).
    destruct (G2 j n t i e Hn He) as (o & Ho & _).
    apply lookup_lt_Some in Ho. lia.
  - intros Hi.
    destruct (lookup_lt_is_Some_2
                (run detect (main_ops (length cams) rounds steps)
                   (main_net cams d0)).1 i) as [o Ho]; [lia|].
    destruct Hg as (G1 & G2 & G3). destruct (G3 j n Hn) as (_ & _ & Hsia).
    apply Hsia. eapply (Hall j i o n t); [done..|].
    eapply (mesh_measured (main_ops (length cams) rounds steps) (main_net cams d0)).
    + apply mesh_main_ops_driver.
    + apply mesh_main_net_inv.
    + by apply mesh_main_ops_measures.
    + done.
Qed.

(** ** The final tally *)

Lemma mesh_winner_from (votes : list bool) (b : bool) (keys : list bool) (w : bool) :
  foldl (λ best k,
           match best with
           | None => Some k
           | Some b => if bool_decide (votes_count votes b < votes_count votes k)
                       then Some k else Some b
           end) (Some b) keys = Some w →
  (w = b ∧ ∀ k, k ∈ keys → votes_count votes k ≤ votes_count votes b)
  ∨ ∃ pre post,
      keys = pre ++ w :: post
      ∧ votes_count votes b < votes_count votes w
      ∧ (∀ k, k ∈ pre → votes_count votes k < votes_count votes w)
      ∧ (∀ k, k ∈ post → votes_count votes k ≤ votes_count votes w).
Proof.
  revert b. induction keys as [|k ks IH]; intros b; simpl.
  { intros [= ->]. left. split; [done|]. by intros k ?%elem_of_nil. }
  case_bool_decide as Hlt; intros Hw.
  - right. destruct (IH k Hw) as [[-> Hle]|(pre & post & -> & Hkw & Hpre & Hpost)].
    + exists [], ks. split_and!; [done|done| |done]. by intros k' ?%elem_of_nil.
    + exists (k :: pre), post. split_and!; [done|lia| |done].
      intros k' [->|?]%elem_of_cons; [done|by apply Hpre].
  - destruct (IH b Hw) as [[-> Hle]|(pre & post & -> & Hkw & Hpre & Hpost)].
    + left. split; [done|]. intros k' [->|?]%elem_of_cons; [lia|by apply Hle].
    + right. exists (k :: pre), post. split_and!; [done|done| |done].
      intros k' [->|?]%elem_of_cons; [lia|by apply Hpre].
Qed.

(** X5. [max(tally, key=tally.get)]: there is no winner exactly when there
    is no key; otherwise the winner is the first key, in the order in which
    the keys are gone through, whose number of votes no key exceeds: the keys
    before it have fewer votes, the keys after it have no more. *)
Theorem winner_is_first_maximum (keys votes : list bool) :
  (winner keys votes = None ↔ keys = [])
  ∧ ∀ w, winner keys votes = Some w →
      ∃ pre post,
        keys = pre ++ w :: post
        ∧ (∀ k, k ∈ pre → votes_count votes k < votes_count votes w)
        ∧ (∀ k, k ∈ post → votes_count votes k ≤ votes_count votes w).
Proof.
  unfold winner. destruct keys as [|k ks]; simpl.
  { split; [done|]. intros w [=]. }
  split.
  - split; [|done]. intros Hn. exfalso. revert Hn. generalize k.
    induction ks as [|k' ks IH]; intros b; simpl; [done|].
    case_bool_decide; apply IH.
  - intros w Hw.
    destruct (mesh_winner_from votes k ks w Hw)
      as [[-> Hle]|(pre & post & -> & Hkw & Hpre & Hpost)].
    + exists [], ks. split_and!; [done| |done]. by intros k' ?%elem_of_nil.
    + exists (k :: pre), post. split_and!; [done| |done].
      intros k' [->|?]%elem_of_cons; [done|by apply Hpre].
Qed.

Lemma mesh_omap_const {A B} (f : A → option B) (l : list A) (c : option B) :
  (∀ x, x ∈ l → f x = c) →
  omap f l = match c with Some v => replicate (length l) v | None => [] end.
Proof.
  intros Hc. induction l as [|x l IH]; csimpl; [by destruct c|].
  rewrite (Hc x) by (by apply elem_of_cons; left).
  rewrite IH by (intros y ?; apply Hc; by apply elem_of_cons; right).
  by destruct c.
Qed.

(** X6. The final consensus of [main] (at least one tick, one round per
    tick): the votes are unanimous, as many as there are nodes if node 0
    decides and none if it does not, so the winner is the decision of node 0
    whatever the order in which the tally is gone through. *)
Theorem main_final_consensus (cams : list (bool * list (bool * option Frame)))
    (d0 : D) (rounds steps : nat) (q : Z) (n0 : Node Frame D) (keys : list bool) :
  0 < rounds → 0 < steps →
  let net := (run detect (main_ops (length cams) rounds steps) (main_net cams d0)).1 in
  net !! 0 = Some n0 →
  NoDup keys → (∀ k, k ∈ keys ↔ k ∈ final_votes net (steps - 1) q) →
  final_votes net (steps - 1) q
  = match local_decision n0 (steps - 1) q with
    | Some d => replicate (length cams) (present_majority d)
    | None => []
    end
  ∧ winner keys (final_votes net (steps - 1) q)
    = present_majority <$> local_decision n0 (steps - 1) q.
Proof.
  intros Hr Hs net Hn0 Hnd Hkeys.
  assert (length net = length cams) as Hlen.
  { unfold net. rewrite run_length. unfold main_net. by rewrite length_imap. }
  assert (final_votes net (steps - 1) q
          = match present_majority <$> local_decision n0 (steps - 1) q with
            | Some v => replicate (length net) v
            | None => []
            end) as Hvotes.
  { unfold final_votes. apply mesh_omap_const. intros n Hn.
    apply list_elem_of_lookup in Hn as [j Hj]. f_equal.
    destruct (mesh_main_all_complete cams d0 rounds steps Hr Hs)
      as ((Hg & _) & Hall).
    apply mesh_same_decision. intros k. by eapply (mesh_complete_same _ j 0). }
  rewrite Hvotes in *. rewrite Hlen in *.
  destruct (local_decision n0 (steps - 1) q) as [d|]; simpl in *.
  - split; [done|].
    assert (0 < length cams) as Hpos.
    { apply lookup_lt_Some in Hn0. lia. }
    assert (keys = [present_majority d]) as ->.
    { destruct keys as [|k ks].
      - exfalso. eapply elem_of_nil, Hkeys, elem_of_replicate. split; [done|lia].
      - assert (∀ x, x ∈ k :: ks → x = present_majority d) as Hall.
        { intros x Hx. by apply Hkeys, elem_of_replicate in Hx as [-> _]. }
        rewrite (Hall k) by (by apply elem_of_cons; left).
        destruct ks as [|k2 ks]; [done|].
        apply NoDup_cons in Hnd as [Hnotin _]. destruct Hnotin.
        rewrite (Hall k), <-(Hall k2); [by apply elem_of_cons; left| |].
        + apply elem_of_cons. right. by apply elem_of_cons; left.
        + by apply elem_of_cons; left. }
    done.
  - split; [done|]. destruct keys as [|k ks]; [done|].
    exfalso. eapply elem_of_nil, Hkeys. by apply elem_of_cons; left.
Qed.

End Runs.

(** ** The theorems at work on the two-node network *)

Definition two_cams : list (bool * list (bool * option nat)) :=
  [(true, [(true, Some 2); (true, Some 0)]);
   (true, [(true, Some 1); (false, None)])].

Lemma gossip_exact_witness :
  ∃ self n,
    two_nodes !! 0 = Some self ∧ two_nodes !! 1 = Some n
    ∧ gossip_with node_id peers receive 0 two_nodes echo !! 1
      = Some (foldl receive n (replicate (copies node_id peers self 1 n) echo))
    ∧ copies node_id peers self 0 self = 0.
Proof.
  eexists _, _. split; [reflexivity|]. split; [reflexivity|].
  apply (gossip_exact node_id peers receive (λ _ _, eq_refl) 0 two_nodes echo);
    reflexivity.
Defined.

Lemma entries_agree_witness :
  ∃ n, (run count_people (tick_ops 2 2 0) two_nodes).1 !! 1 = Some n
       ∧ agg_get (agg n) 0 0 = Some (true, 2, true)
       ∧ origin_has (run count_people (tick_ops 2 2 0) two_nodes).1 0 0 (true, 2, true).
Proof.
  eexists. split; [by vm_compute|]. split; [by vm_compute|].
  eapply (entries_agree count_people two_nodes (tick_ops 2 2 0)
            two_nodes_fresh (proj2 (mesh_main_net_fresh two_cams ()))
            (mesh_tick_ops_driver 2 2 0) 1 _ 0 0 (true, 2, true));
    by vm_compute.
Defined.

Lemma main_decisions_agree_witness :
  ∃ n n',
    (run count_people (main_ops 2 1 2) two_nodes).1 !! 0 = Some n
    ∧ (run count_people (main_ops 2 1 2) two_nodes).1 !! 1 = Some n'
    ∧ local_decision n 1 1 = local_decision n' 1 1.
Proof.
  eexists _, _. split; [by vm_compute|]. split; [by vm_compute|].
  apply (main_decisions_agree count_people two_cams () 1 2 ltac:(lia) ltac:(lia) 0 1);
    by vm_compute.
Defined.

Lemma main_observations_everywhere_witness :
  ∃ n, (run count_people (main_ops 2 1 2) two_nodes).1 !! 1 = Some n
       ∧ is_Some (agg_get (agg n) 1 0).
Proof.
  eexists. split; [by vm_compute|].
  apply (main_observations_everywhere count_people two_cams () 1 2 ltac:(lia) 1);
    [by vm_compute|lia|simpl; lia].
Defined.

Lemma winner_is_first_maximum_witness :
  ∃ pre post,
    [true; false] = pre ++ true :: post
    ∧ (∀ k, k ∈ pre → votes_count [false; true] k < votes_count [false; true] true)
    ∧ (∀ k, k ∈ post → votes_count [false; true] k ≤ votes_count [false; true] true).
Proof.
  by apply (proj2 (winner_is_first_maximum [true; false] [false; true]) true).
Defined.

Lemma main_final_consensus_witness :
  ∃ n0 : Node nat unit,
    final_votes (run count_people (main_ops 2 1 2) two_nodes).1 (2 - 1) 1
    = match local_decision n0 (2 - 1) 1 with
      | Some d => replicate 2 (present_majority d)
      | None => []
      end
    ∧ winner [false] (final_votes (run count_people (main_ops 2 1 2) two_nodes).1 (2 - 1) 1)
      = present_majority <$> local_decision n0 (2 - 1) 1.
Proof.
  eexists.
  apply (main_final_consensus count_people two_cams () 1 2 1 _ [false]
           ltac:(lia) ltac:(lia)).
  - by vm_compute.
  - apply NoDup_singleton.
  - intros k.
    replace (final_votes (run count_people (main_ops (length two_cams) 1 2)
                            (main_net two_cams ())).1 (2 - 1) 1)
      with [false; false] by (by vm_compute).
    rewrite !elem_of_cons, elem_of_nil. tauto.
Defined.

End CameraRuns.

(** * The motion detector over successive frames

    [measure_and_broadcast] calls [detect_motion] once per tick on the frame
    it has read; the detector keeps the previous gray image and the
    accumulator between the calls. *)

Module MotionRuns.

Import PeopleDetection.

Section Frames.

Context {Frame Gray : Type}.
Variable cvtColor : Frame → Gray.
Variable motion_pixels : Gray → Gray → nat.

(** The [(present, count)] pairs that [detect_motion] returns on the frames
    in turn, and the detector's state after the last one. *)
Fixpoint detections (d : MotionState) (frames : list Frame)
  : list (bool * nat) * MotionState (Gray := Gray) :=
  match frames with
  | [] => ([], d)
  | f :: fs =>
      let r := detect_motion cvtColor motion_pixels d f in
      let rest := detections r.2 fs in
      (r.1 :: rest.1, rest.2)
  end.

(** The motion pixels between each frame and the one before it, the frame
    before the first one being [prev] if there is one. *)
Fixpoint motion_between (prev : option Gray) (frames : list Frame) : nat :=
  match frames with
  | [] => 0
  | f :: fs =>
      match prev with
      | Some g => motion_pixels (cvtColor f) g
      | None => 0
      end + motion_between (Some (cvtColor f)) fs
  end.

(** The state [__init__] sets up. *)
Definition initial : MotionState (Gray := Gray) := (None, 0).

(** X7. Started with an accumulator below the threshold (as [__init__]
    leaves it), the detector never ends a call with the accumulator at or
    above the threshold, and every result is either "present" with a count of
    at least the threshold or "absent" with count 0; the first frame ever
    seen reports absent. *)
Theorem motion_reports_bounded (d : MotionState) (frames : list Frame) :
  d.2 < motion_threshold →
  (detections d frames).2.2 < motion_threshold
  ∧ Forall (λ r : bool * nat, if r.1 then motion_threshold ≤ r.2 else r.2 = 0)
           (detections d frames).1
  ∧ (d.1 = None → ∀ r, (detections d frames).1 !! 0 = Some r → r = (false, 0)).
Proof.
  intros Hd. split_and!.
  - revert d Hd. induction frames as [|f fs IH]; intros [prev acc] Hd; [done|].
    simpl. apply IH. unfold detect_motion. simpl in *.
    destruct prev as [g|]; [|done]. case_bool_decide; simpl; lia.
  - revert d Hd. induction frames as [|f fs IH]; intros [prev acc] Hd;
      [by constructor|].
    simpl in *. constructor.
    + unfold detect_motion. simpl. destruct prev as [g|]; [|done].
      by case_bool_decide.
    + apply IH. unfold detect_motion. simpl.
      destruct prev as [g|]; [|done]. case_bool_decide; simpl; lia.
  - intros Hnone r. destruct d as [prev acc]. simpl in Hnone. subst prev.
    destruct frames as [|f fs]; [done|]. simpl. by intros [= <-].
Qed.

(** X8. No motion is lost or counted twice: the counts reported over a
    sequence of frames plus the accumulator left at the end are the
    accumulator at the start plus all motion pixels between successive
    frames. After at least one frame the detector remembers the gray image
    of the last frame. *)
Theorem motion_is_conserved (d : MotionState) (frames : list Frame) :
  sum_list ((detections d frames).1.*2) + (detections d frames).2.2
  = d.2 + motion_between d.1 frames
  ∧ (detections d frames).2.1 = last (d.1 :: (Some ∘ cvtColor <$> frames)) ≫= id.
Proof.
  revert d. induction frames as [|f fs IH]; intros [prev acc].
  - simpl. split; [lia|done].
  - cbn [detections]. unfold detect_motion. cbn [fst snd].
    destruct prev as [g|].
    + case_bool_decide.
      * destruct (IH (Some (cvtColor f), 0)) as [IH1 IH2].
        cbn [fst snd] in *. split.
        -- rewrite fmap_cons. cbn [sum_list snd motion_between]. unfold id in *. lia.
        -- rewrite IH2. by destruct fs.
      * destruct (IH (Some (cvtColor f), acc + motion_pixels (cvtColor f) g))
          as [IH1 IH2].
        cbn [fst snd] in *. split.
        -- rewrite fmap_cons. cbn [sum_list snd motion_between]. unfold id in *. lia.
        -- rewrite IH2. by destruct fs.
    + destruct (IH (Some (cvtColor f), acc)) as [IH1 IH2].
      cbn [fst snd] in *. split.
      -- rewrite fmap_cons. cbn [sum_list snd motion_between]. unfold id in *. lia.
      -- rewrite IH2. by destruct fs.
Qed.

(** X9. Slow motion is reported in the end: once the accumulator at the
    start and the motion pixels between the frames add up to the threshold,
    one of the calls has reported "present". *)
Theorem motion_is_reported (d : MotionState) (frames : list Frame) :
  d.2 < motion_threshold →
  motion_threshold ≤ d.2 + motion_between d.1 frames →
  ∃ c, (true, c) ∈ (detections d frames).1.
Proof.
  revert d. induction frames as [|f fs IH]; intros [prev acc] Hd Hsum.
  - simpl in *. lia.
  - simpl in *. unfold detect_motion at 1. simpl.
    destruct prev as [g|]; simpl.
    + case_bool_decide as Hacc; simpl.
      * eexists. by left.
      * destruct (IH (Some (cvtColor f), acc + motion_pixels (cvtColor f) g))
          as [c Hc]; simpl; [lia|lia|].
        exists c. right. revert Hc. unfold detect_motion. simpl.
        by rewrite bool_decide_eq_false_2.
    + destruct (IH (Some (cvtColor f), acc)) as [c Hc]; simpl; [lia|lia|].
      exists c. by right.
Qed.

End Frames.

(** Gray images as numbers, motion as their distance. *)
Definition gap (a b : nat) : nat := (a - b) + (b - a).

Lemma motion_reports_bounded_witness :
  (detections id gap initial [0; 3000; 100; 4000]).2.2 < motion_threshold
  ∧ Forall (λ r : bool * nat, if r.1 then motion_threshold ≤ r.2 else r.2 = 0)
           (detections id gap initial [0; 3000; 100; 4000]).1
  ∧ ((initial (Gray := nat)).1 = None →
     ∀ r, (detections id gap initial [0; 3000; 100; 4000]).1 !! 0 = Some r →
          r = (false, 0)).
Proof.
  apply (motion_reports_bounded id gap initial [0; 3000; 100; 4000]).
  unfold motion_threshold. simpl. lia.
Defined.

Lemma motion_is_reported_witness :
  ∃ c, (true, c) ∈ (detections id gap initial [0; 3000; 100; 4000]).1.
Proof.
  apply (motion_is_reported id gap initial [0; 3000; 100; 4000]).
  - unfold motion_threshold. simpl. lia.
  - apply Nat.leb_le. by vm_compute.
Defined.

End MotionRuns.

(** * Runs of the keyword search: tidy aggregates, the loop, the flood *)

Module KeywordRuns.

Import KeywordSearch.

(** ['PRESENT'] or ['RARE/ABSENT']. *)
Inductive Verdict := PRESENT | RARE_ABSENT.

(** The dictionary [local_decision] returns. *)
Record Decision := mkDecision {
  d_contributors : nat;
  d_hit_nodes : nat;
  d_hit_ratio : float;
  d_total_hits : nat;
  d_decision : Verdict
}.

(** [local_decision(self, query_id, min_contributors, hit_ratio_threshold)].
    [self.aggregates.get] does not create an entry, and an entry, a
    dictionary of four keys, is never falsy. *)
Definition local_decision (self : Node) (query_id : string) (min_contributors : Z)
    (hit_ratio_threshold : float) : option Decision :=
  match aggregates self !! query_id with
  | None => None
  | Some agg =>
      let total := size (contributors agg) in
      if bool_decide (Z.of_nat total < min_contributors)%Z then None
      else
        let hit_nodes := size (nodes_hit agg) in
        let hit_ratio := py_truediv hit_nodes (max 1 total) in
        Some (mkDecision total hit_nodes hit_ratio (hit_count agg)
                (if PrimFloat.leb hit_ratio_threshold hit_ratio
                 then PRESENT else RARE_ABSENT))
  end.

(** The sets and the dictionary as [__init__] leaves them. *)
Definition untouched (n : Node) : Prop :=
  seen_queries n = ∅ ∧ rebroadcasted_results n = ∅ ∧ aggregates n = ∅.

(** The node after the loop of [process_messages] has handled the messages
    [ms] one after the other. *)
Definition handled (n : Node) (ms : list Message) : Node :=
  foldl (λ n m, (dispatch n m).1) n ms.

(** What holds of a node's books at any time: in every aggregate
    [nodes_total] is [contributors] and the hits are among them; the
    contributors of a query are the ones whose result the node has relayed,
    and the node itself once it has seen the query. *)
Definition tidy (n : Node) : Prop :=
  (∀ q a, aggregates n !! q = Some a →
          nodes_total a = contributors a ∧ nodes_hit a ⊆ contributors a)
  ∧ (∀ q c, c ∈ contributors (aggregate_of n q)
            ↔ (q, c) ∈ rebroadcasted_results n
              ∨ (c = node_id n ∧ q ∈ seen_queries n)).

(** ** One node *)

Lemma kr_aggregate_of_insert n q a q' :
  aggregate_of (set_aggregates n (<[q := a]> (aggregates n))) q'
  = if decide (q' = q) then a else aggregate_of n q'.
Proof.
  unfold aggregate_of. simpl. destruct (decide (q' = q)) as [->|Hq].
  - by rewrite lookup_insert_eq.
  - by rewrite lookup_insert_ne.
Qed.

Lemma kr_aggregate_of_tidy n q :
  (∀ q a, aggregates n !! q = Some a →
          nodes_total a = contributors a ∧ nodes_hit a ⊆ contributors a) →
  nodes_total (aggregate_of n q) = contributors (aggregate_of n q)
  ∧ nodes_hit (aggregate_of n q) ⊆ contributors (aggregate_of n q).
Proof.
  intros H. unfold aggregate_of.
  destruct (aggregates n !! q) as [a|] eqn:Ha; simpl; [by eapply H|done].
Qed.

Lemma kr_tally_tidy a c h k :
  nodes_total a = contributors a ∧ nodes_hit a ⊆ contributors a →
  nodes_total (tally a c h k) = contributors (tally a c h k)
  ∧ nodes_hit (tally a c h k) ⊆ contributors (tally a c h k).
Proof.
  intros [Ht Hh]. unfold tally. simpl. rewrite Ht. split; [done|].
  destruct h; set_solver.
Qed.

Lemma kr_handle_query_tidy n q term : tidy n → tidy (handle_query n q term).1.
Proof.
  intros [T1 T2]. unfold handle_query.
  destruct (decide (q ∈ seen_queries n)) as [Hq|Hq]; [done|].
  destruct (local_keyword_stats _ term) as [h k]. split.
  - intros q' a. simpl. destruct (decide (q' = q)) as [->|Hne].
    + rewrite lookup_insert_eq. intros [= <-].
      apply kr_tally_tidy. by apply (kr_aggregate_of_tidy n q).
    + rewrite lookup_insert_ne by done. apply T1.
  - intros q' c.
    pose proof (kr_aggregate_of_insert
                  (set_seen_queries n ({[q]} ∪ seen_queries n)) q
                  (tally (aggregate_of (set_seen_queries n ({[q]} ∪ seen_queries n)) q)
                     (node_id n) h k) q') as Hins.
    simpl in *. rewrite Hins. clear Hins.
    specialize (T2 q' c).
    change (aggregate_of (set_seen_queries n ({[q]} ∪ seen_queries n)))
      with (aggregate_of n) in *.
    destruct (decide (q' = q)) as [->|Hne].
    + unfold tally. simpl. rewrite elem_of_union, elem_of_singleton, T2.
      rewrite elem_of_union, elem_of_singleton. tauto.
    + rewrite T2, elem_of_union, elem_of_singleton. tauto.
Qed.

Lemma kr_handle_result_tidy n q c h k : tidy n → tidy (handle_result n q c h k).1.
Proof.
  intros [T1 T2]. unfold handle_result.
  destruct (decide (c ∈ contributors (aggregate_of n q))) as [Hc|Hc].
  { split.
    - intros q' a. simpl. destruct (decide (q' = q)) as [->|Hne].
      + rewrite lookup_insert_eq. intros [= <-]. by apply kr_aggregate_of_tidy.
      + rewrite lookup_insert_ne by done. apply T1.
    - intros q' c'. cbn [fst]. rewrite kr_aggregate_of_insert.
      destruct (decide (q' = q)) as [->|Hne]; apply T2. }
  assert ((q, c) ∉ rebroadcasted_results n) as Hr.
  { intros Hin. apply Hc, T2. by left. }
  simpl. rewrite decide_False by done. split.
  - intros q' a. simpl. destruct (decide (q' = q)) as [->|Hne].
    + rewrite lookup_insert_eq. intros [= <-].
      apply kr_tally_tidy. by apply kr_aggregate_of_tidy.
    + rewrite lookup_insert_ne by done. apply T1.
  - intros q' c'.
    pose proof (kr_aggregate_of_insert n q (tally (aggregate_of n q) c h k) q') as Hins.
    unfold aggregate_of in *. simpl in *. rewrite Hins. clear Hins.
    specialize (T2 q' c'). unfold aggregate_of in T2.
    destruct (decide (q' = q)) as [->|Hne].
    + unfold tally. simpl. rewrite !elem_of_union, !elem_of_singleton, T2.
      split; [|intros [[[= ->]|?]|?]; tauto].
      intros [->|[?|?]]; tauto.
    + rewrite T2, elem_of_union, elem_of_singleton.
      split; [tauto|]. intros [[[= ? ?]|?]|?]; [congruence|tauto..].
Qed.

Lemma kr_dispatch_tidy n m : tidy n → tidy (dispatch n m).1.
Proof.
  destruct m as [q term|q c h k|kd]; simpl;
    [apply kr_handle_query_tidy|apply kr_handle_result_tidy|done].
Qed.

Lemma kr_local_step_tidy n a : tidy n → tidy (local_step n a).1.
Proof.
  intros Ht. destruct a as [|m]; simpl; [|done].
  destruct (inbox n) as [|m rest]; [done|]. simpl. by apply kr_dispatch_tidy.
Qed.

Lemma kr_local_run_tidy (l : list LocalOp) n : tidy n → tidy (local_run l n).1.
Proof.
  revert n. induction l as [|a l IH]; intros n Ht; simpl; [done|].
  pose proof (kr_local_step_tidy n a Ht) as H1.
  destruct (local_step n a) as [n1 tr1]. specialize (IH n1 H1).
  by destruct (local_run l n1) as [n2 tr2].
Qed.

Lemma kr_untouched_tidy n : untouched n → tidy n.
Proof.
  intros (Hs & Hr & Ha). split.
  - intros q a. by rewrite Ha, lookup_empty.
  - intros q c. unfold aggregate_of. rewrite Ha, lookup_empty, Hs, Hr. simpl.
    set_solver.
Qed.

Lemma kr_run_tidy (net0 : list Node) (ops : list Op) i n :
  Forall untouched net0 → (run ops net0).1 !! i = Some n → tidy n.
Proof.
  intros Hf Hn. destruct (net0 !! i) as [n0|] eqn:Hn0.
  - destruct (ks_run_project ops net0 i n0 Hn0) as (lops & Hl & _).
    rewrite Hn in Hl. injection Hl as ->.
    apply kr_local_run_tidy, kr_untouched_tidy.
    by eapply (proj1 (Forall_lookup _ _) Hf).
  - destruct (ks_run_none ops net0 i Hn0) as [Hnone _]. congruence.
Qed.

(** ** The books stay tidy *)

(** X10. In every run from nodes as [__init__] leaves them, whatever is put
    into the inboxes from outside: in every aggregate of every node
    [nodes_total] equals [contributors] and [nodes_hit] is a subset of it, and
    the contributors of a query are exactly the ones whose result the node
    has relayed, plus the node itself once it has seen the query. *)
Theorem aggregates_stay_tidy (net0 : list Node) (ops : list Op) (i : nat) (n : Node) :
  Forall untouched net0 →
  (run ops net0).1 !! i = Some n →
  (∀ q a, aggregates n !! q = Some a →
          nodes_total a = contributors a ∧ nodes_hit a ⊆ contributors a)
  ∧ (∀ q c, c ∈ contributors (aggregate_of n q)
            ↔ (q, c) ∈ rebroadcasted_results n
              ∨ (c = node_id n ∧ q ∈ seen_queries n)).
Proof. intros Hf Hn. exact (kr_run_tidy net0 ops i n Hf Hn). Qed.

(** X11. On such a node the second gate of [handle_result] never closes:
    a RESULT is relayed exactly when its contributor is new, and is then
    relayed unchanged. *)
Theorem relay_iff_new_contributor (net0 : list Node) (ops : list Op) (i : nat)
    (n : Node) (q : string) (c : nat) (h : bool) (k : nat) :
  Forall untouched net0 →
  (run ops net0).1 !! i = Some n →
  (handle_result n q c h k).2
  = if decide (c ∈ contributors (aggregate_of n q)) then [] else [RESULT q c h k].
Proof.
  intros Hf Hn. destruct (kr_run_tidy net0 ops i n Hf Hn) as [_ T2].
  unfold handle_result.
  destruct (decide (c ∈ contributors (aggregate_of n q))) as [Hc|Hc]; [done|].
  simpl. rewrite decide_False; [done|]. intros Hin. apply Hc, T2. by left.
Qed.

(** ** The loop of [process_messages] *)

Lemma kr_set_inbox_inbox n : set_inbox n (inbox n) = n.
Proof. by destruct n. Qed.

Lemma kr_set_inbox_twice n x y : set_inbox (set_inbox n x) y = set_inbox n y.
Proof. done. Qed.

Lemma kr_dispatch_set_inbox n x m :
  dispatch (set_inbox n x) m = (set_inbox (dispatch n m).1 x, (dispatch n m).2).
Proof.
  destruct n as [id ps ib sq rr ds fl ag].
  destruct m as [q term|q c h k|kd]; simpl; [| |done].
  - unfold handle_query, local_keyword_stats. simpl.
    by destruct (decide (q ∈ sq)).
  - unfold handle_result, aggregate_of. simpl.
    destruct (decide (c ∈ contributors (default empty_aggregate (ag !! q)))); [done|].
    simpl. by destruct (decide ((q, c) ∈ rr)).
Qed.

Lemma kr_handled_inbox n ms : inbox (handled n ms) = inbox n.
Proof.
  revert n. induction ms as [|m ms IH]; intros n; [done|].
  simpl. change (inbox (handled (dispatch n m).1 ms) = inbox n).
  by rewrite IH, ks_dispatch_inbox.
Qed.

Lemma kr_turns_fold (k : nat) net i self :
  net !! i = Some self →
  (turns k i net).1 !! i
  = Some (set_inbox (handled (set_inbox self []) (take k (inbox self)))
            (drop k (inbox self))).
Proof.
  revert net self. induction k as [|k IH]; intros net self Hself.
  { simpl. by rewrite drop_0, kr_set_inbox_twice, kr_set_inbox_inbox. }
  simpl. unfold pop_one. rewrite Hself.
  destruct (inbox self) as [|m rest] eqn:Hin.
  - pose proof (IH net self Hself) as Hk. rewrite Hin in Hk.
    destruct (turns k i net) as [net2 tr2]. simpl in *.
    by rewrite Hk, take_nil, drop_nil.
  - pose proof (kr_dispatch_set_inbox (set_inbox self []) rest m) as Hd.
    rewrite kr_set_inbox_twice in Hd.
    destruct (dispatch (set_inbox self rest) m) as [self1 out].
    injection Hd as -> ->.
    set (d := dispatch (set_inbox self []) m) in *.
    destruct (gossips_lookup node_id peers receive i d.2
                (<[i := set_inbox d.1 rest]> net) i (set_inbox d.1 rest))
      as (ms & Hl & Hi).
    { apply list_lookup_insert_eq. by eapply lookup_lt_Some. }
    rewrite (Hi eq_refl) in Hl. simpl in Hl.
    pose proof (IH _ _ Hl) as Hk. unfold gossip.
    destruct (turns k i (for_each (gossip_with node_id peers receive i) d.2
                           (<[i := set_inbox d.1 rest]> net))) as [net2 tr2].
    simpl in *. rewrite Hk. f_equal.
    rewrite kr_set_inbox_twice.
    assert (set_inbox d.1 [] = d.1) as ->; [|done].
    rewrite <-(kr_set_inbox_inbox d.1) at 2. f_equal.
    unfold d. by rewrite ks_dispatch_inbox.
Qed.

(** X12. [process_messages] handles exactly the messages that are in the
    inbox when it starts, in their order, and ends with the inbox empty:
    what the node gossips in the loop does not come back to it during the
    loop. *)
Theorem process_messages_drains (net : list Node) (i : nat) (self : Node) :
  net !! i = Some self →
  (process_messages i net).1 !! i = Some (handled (set_inbox self []) (inbox self))
  ∧ inbox (handled (set_inbox self []) (inbox self)) = [].
Proof.
  intros Hself. split; [|by rewrite kr_handled_inbox].
  unfold process_messages. rewrite Hself.
  rewrite (kr_turns_fold _ net i self Hself), firstn_all, drop_all.
  rewrite <-(kr_handled_inbox (set_inbox self []) (inbox self)) at 2.
  by rewrite kr_set_inbox_inbox.
Qed.

(** ** One query flooding a full mesh

    [q] and [term] are the query of the run, [st] lists for every position
    what [local_keyword_stats] gives there for [term]. *)

Section Flood.

Variables (q term : string) (st : list (bool * nat)).

(** The node has seen the query. *)
Definition saw (n : Node) : Prop := q ∈ seen_queries n.

(** The node has tallied the result of [c]. *)
Definition knows (n : Node) (c : nat) : Prop := c ∈ contributors (aggregate_of n q).

(** The occurrences a contributor adds to [hit_count]. *)
Definition weight (s : bool * nat) : nat := if s.1 then s.2 else 0.

Definition hits (X : gset nat) : nat :=
  sum_list (imap (λ j s, if decide (j ∈ X) then weight s else 0) st).

(** [m] is the RESULT of node [j] for the query. *)
Definition result_of (j : nat) (m : Message) : Prop :=
  ∃ h k, st !! j = Some (h, k) ∧ m = RESULT q j h k.

(** The aggregate holds what its contributors have reported. *)
Definition wf_agg (a : Aggregate) : Prop :=
  nodes_total a = contributors a
  ∧ (∀ c, c ∈ nodes_hit a ↔ c ∈ contributors a ∧ ∃ k, st !! c = Some (true, k))
  ∧ hit_count a = hits (contributors a).

Lemma kr_sum_imap_change {A} (F G : nat → A → nat) (l : list A) c x d :
  l !! c = Some x → (∀ j y, j ≠ c → F j y = G j y) → F c x = G c x + d →
  sum_list (imap F l) = sum_list (imap G l) + d.
Proof.
  revert F G c. induction l as [|x0 l IH]; intros F G c Hc Hne Heq; [done|].
  simpl. destruct c as [|c].
  - injection Hc as ->.
    rewrite (imap_ext (F ∘ S) (G ∘ S) l).
    + rewrite Heq. lia.
    + intros j y _. simpl. by apply Hne.
  - rewrite (IH (F ∘ S) (G ∘ S) c Hc).
    + rewrite (Hne 0) by done. lia.
    + intros j y Hj. simpl. apply Hne. lia.
    + done.
Qed.

Lemma kr_sum_imap_fmap {A} (F : nat → A → nat) (g : A → nat) (l : list A) :
  (∀ j y, l !! j = Some y → F j y = g y) →
  sum_list (imap F l) = sum_list (g <$> l).
Proof.
  revert F. induction l as [|x0 l IH]; intros F HF; [done|].
  csimpl. rewrite (HF 0 x0) by done. f_equal.
  apply IH. intros j y Hj. by apply (HF (S j)).
Qed.

Lemma kr_hits_add (X : gset nat) c h k :
  c ∉ X → st !! c = Some (h, k) → hits ({[c]} ∪ X) = hits X + weight (h, k).
Proof.
  intros Hc Hst. unfold hits. apply (kr_sum_imap_change _ _ st c (h, k)); [done| |].
  - intros j y Hj. destruct (decide (j ∈ X)) as [Hin|Hin].
    + rewrite decide_True; [done|]. apply elem_of_union. by right.
    + rewrite decide_False; [done|].
      intros [Hs%elem_of_singleton|?]%elem_of_union; done.
  - rewrite decide_True by (apply elem_of_union; left; by apply elem_of_singleton).
    by rewrite decide_False.
Qed.

Lemma kr_hits_empty : hits ∅ = 0.
Proof.
  unfold hits. rewrite (kr_sum_imap_fmap _ (λ _, 0)).
  - induction st as [|s l IH]; [done|]. csimpl. by rewrite IH.
  - intros j y _. rewrite decide_False; [done|]. apply not_elem_of_empty.
Qed.

Lemma kr_hits_all (X : gset nat) :
  (∀ j, j < length st → j ∈ X) → hits X = sum_list (weight <$> st).
Proof.
  intros HX. unfold hits. apply kr_sum_imap_fmap.
  intros j y Hj. rewrite decide_True; [done|]. apply HX. by eapply lookup_lt_Some.
Qed.

Lemma kr_wf_empty : wf_agg empty_aggregate.
Proof.
  split_and!; simpl; [done| |by rewrite kr_hits_empty].
  intros c. split; [by intros ?%elem_of_empty|]. by intros [?%elem_of_empty _].
Qed.

Lemma kr_wf_tally a c h k :
  wf_agg a → c ∉ contributors a → st !! c = Some (h, k) → wf_agg (tally a c h k).
Proof.
  intros (Ht & Hh & Hc) Hnew Hst. unfold tally. split_and!; simpl.
  - by rewrite Ht.
  - intros c'. destruct h.
    + rewrite !elem_of_union, !elem_of_singleton, Hh. split.
      * intros [->|[? ?]]; [|tauto]. split; [by left|by exists k].
      * intros [[->|?] ?]; tauto.
    + rewrite Hh, elem_of_union, elem_of_singleton. split; [tauto|].
      intros [[->|?] [k' Hk']]; [congruence|]. split; [done|by exists k'].
  - rewrite (kr_hits_add _ c h k) by done. rewrite Hc. unfold weight. simpl.
    by destruct h; lia.
Qed.

Lemma kr_result_of_inj j m c h k : result_of j m → m = RESULT q c h k → j = c.
Proof. intros (h' & k' & _ & ->) [= ->]. done. Qed.

(** What handling one message of the flood does to a node. *)
Lemma kr_dispatch_flood s m :
  st !! node_id s = Some (local_keyword_stats s term) →
  (m = QUERY q term ∨ ∃ j, result_of j m) →
  wf_agg (aggregate_of s q) →
  (knows s (node_id s) ↔ saw s) →
  node_id (dispatch s m).1 = node_id s
  ∧ peers (dispatch s m).1 = peers s
  ∧ local_keyword_stats (dispatch s m).1 term = local_keyword_stats s term
  ∧ (saw (dispatch s m).1 ↔ saw s ∨ m = QUERY q term)
  ∧ (∀ c, knows (dispatch s m).1 c
          ↔ knows s c ∨ result_of c m
            ∨ (c = node_id s ∧ m = QUERY q term ∧ ¬ saw s))
  ∧ wf_agg (aggregate_of (dispatch s m).1 q)
  ∧ (∀ x, x ∈ (dispatch s m).2 →
          x = m ∨ (m = QUERY q term ∧ ¬ saw s ∧ result_of (node_id s) x))
  ∧ (m = QUERY q term → ¬ saw s →
     QUERY q term ∈ (dispatch s m).2
     ∧ ∃ x, result_of (node_id s) x ∧ x ∈ (dispatch s m).2).
Proof.
  intros Hst Hm Hwf Hself. unfold saw, knows in *.
  destruct Hm as [->|(j & h & k & Hj & ->)]; simpl.
  - unfold handle_query.
    destruct (decide (q ∈ seen_queries s)) as [Hq|Hq].
    { simpl. split_and!; [done|done|done| | |done| |].
      - tauto.
      - intros c. split; [tauto|].
        intros [?|[(? & ? & _ & [=])|(_ & _ & ?)]]; done.
      - by intros x ?%elem_of_nil.
      - done. }
    change (local_keyword_stats (set_seen_queries s ({[q]} ∪ seen_queries s)) term)
      with (local_keyword_stats s term).
    destruct (local_keyword_stats s term) as [h k] eqn:Hlk.
    assert (node_id s ∉ contributors (aggregate_of s q)) as Hnew by tauto.
    assert (∀ a, aggregate_of
                   (set_aggregates (set_seen_queries s ({[q]} ∪ seen_queries s))
                      (<[q := a]> (aggregates s))) q = a) as Hagg.
    { intros a. unfold aggregate_of. simpl. by rewrite lookup_insert_eq. }
    cbn [fst snd]. rewrite Hagg.
    change (aggregate_of (set_seen_queries s ({[q]} ∪ seen_queries s)) q)
      with (aggregate_of s q).
    split_and!; [done|done|done| | | | |].
    + split; [by right|]. intros _. simpl. apply elem_of_union. left.
      by apply elem_of_singleton.
    + intros c. simpl. rewrite elem_of_union, elem_of_singleton. split.
      * intros [->|?]; [|by left]. right. right. done.
      * intros [?|[(? & ? & _ & [=])|(-> & _ & _)]]; [by right|by left].
    + by apply kr_wf_tally.
    + intros x [->|[->|[]%elem_of_nil]%elem_of_cons]%elem_of_cons.
      * right. split_and!; [done..|]. by exists h, k.
      * by left.
    + intros _ _. split.
      * apply elem_of_cons. right. apply elem_of_cons. by left.
      * exists (RESULT q (node_id s) h k). split; [by exists h, k|].
        apply elem_of_cons. by left.
  - unfold handle_result.
    destruct (decide (j ∈ contributors (aggregate_of s q))) as [Hc|Hc].
    { cbn [fst snd]. rewrite kr_aggregate_of_insert, decide_True by done.
      split_and!; [done|done|done| | |done| |].
      - simpl. split; [by left|]. by intros [?|[=]].
      - intros c. split; [by left|].
        intros [?|[Hr|(_ & [=] & _)]]; [done|].
        by rewrite (kr_result_of_inj c _ j h k Hr eq_refl).
      - by intros x ?%elem_of_nil.
      - by intros [=]. }
    cbn zeta.
    set (n1 := set_aggregates s
                 (<[q := tally (aggregate_of s q) j h k]> (aggregates s))).
    assert (aggregate_of n1 q = tally (aggregate_of s q) j h k) as Hagg.
    { unfold n1. by rewrite kr_aggregate_of_insert, decide_True. }
    assert (∀ X, aggregate_of (set_rebroadcasted_results n1 X) q
                 = tally (aggregate_of s q) j h k) as Hagg'.
    { intros X. exact Hagg. }
    destruct (decide ((q, j) ∈ rebroadcasted_results n1)) as [Hr|Hr];
      cbn [fst snd]; rewrite ?Hagg, ?Hagg'.
    + split_and!; [done|done|done| | | | |].
      * simpl. split; [by left|]. by intros [?|[=]].
      * intros c. simpl. rewrite elem_of_union, elem_of_singleton. split.
        -- intros [->|?]; [|by left]. right. left. by exists h, k.
        -- intros [?|[Hres|(_ & [=] & _)]]; [by right|]. left.
           by rewrite (kr_result_of_inj c _ j h k Hres eq_refl).
      * by apply kr_wf_tally.
      * by intros x ?%elem_of_nil.
      * by intros [=].
    + split_and!; [done|done|done| | | | |].
      * simpl. split; [by left|]. by intros [?|[=]].
      * intros c. simpl. rewrite elem_of_union, elem_of_singleton. split.
        -- intros [->|?]; [|by left]. right. left. by exists h, k.
        -- intros [?|[Hres|(_ & [=] & _)]]; [by right|]. left.
           by rewrite (kr_result_of_inj c _ j h k Hres eq_refl).
      * by apply kr_wf_tally.
      * intros x ->%list_elem_of_singleton. by left.
      * by intros [=].
Qed.

(** *** The network *)

(** A message of the flood: the query, or the result of a node that has
    seen the query. *)
Definition genuine_msg (net : list Node) (m : Message) : Prop :=
  m = QUERY q term ∨ ∃ j o, result_of j m ∧ net !! j = Some o ∧ saw o.

Definition node_ok (net : list Node) (i : nat) (n : Node) : Prop :=
  node_id n = i
  ∧ (∀ j, j < length net → j ∈ peers n)
  ∧ st !! i = Some (local_keyword_stats n term)
  ∧ (∀ m, m ∈ inbox n → genuine_msg net m)
  ∧ (∀ c, knows n c → ∃ o, net !! c = Some o ∧ saw o)
  ∧ (knows n i ↔ saw n)
  ∧ wf_agg (aggregate_of n q)
  ∧ (∀ j o, net !! j = Some o → saw o →
       (saw n ∨ QUERY q term ∈ inbox n)
       ∧ (i ≠ j → knows n j ∨ ∃ m, result_of j m ∧ m ∈ inbox n)).

Definition flood_inv (net : list Node) : Prop :=
  length st = length net ∧ ∀ i n, net !! i = Some n → node_ok net i n.

Lemma kr_foldl_receive n ms : foldl receive n ms = set_inbox n (inbox n ++ ms).
Proof.
  revert n. induction ms as [|m ms IH]; intros n; simpl.
  - by rewrite (right_id_L [] (++)), kr_set_inbox_inbox.
  - rewrite IH. unfold receive. simpl. by rewrite <-(assoc_L (++)).
Qed.

(** One turn of the loop of node [a] in a full mesh: the node handles the
    message, every other node gets what it sends. *)
Lemma kr_pop_shape net a self m rest :
  (∀ i n, net !! i = Some n → node_id n = i ∧ ∀ j, j < length net → j ∈ peers n) →
  net !! a = Some self → inbox self = m :: rest →
  node_id (dispatch (set_inbox self rest) m).1 = node_id self →
  peers (dispatch (set_inbox self rest) m).1 = peers self →
  length (pop_one a net).1 = length net
  ∧ (pop_one a net).1 !! a = Some (dispatch (set_inbox self rest) m).1
  ∧ ∀ p n, p ≠ a → net !! p = Some n →
      ∃ extra, (pop_one a net).1 !! p = Some (set_inbox n (inbox n ++ extra))
               ∧ ∀ x, x ∈ extra ↔ x ∈ (dispatch (set_inbox self rest) m).2.
Proof.
  intros Hmesh Hself Hin Hid Hps. unfold pop_one. rewrite Hself, Hin.
  destruct (dispatch (set_inbox self rest) m) as [self' out]. simpl in *.
  assert (<[a := self']> net !! a = Some self') as Ha.
  { apply list_lookup_insert_eq. by eapply lookup_lt_Some. }
  unfold gossip. split_and!.
  - by rewrite gossips_length, length_insert.
  - exact (proj2 (gossips_exact node_id peers receive (λ _ _, eq_refl) a out
                    _ self' a self' Ha Ha)).
  - intros p n Hp Hn.
    assert (<[a := self']> net !! p = Some n) as Hn'.
    { by rewrite list_lookup_insert_ne. }
    pose proof (proj1 (gossips_exact node_id peers receive (λ _ _, eq_refl) a out
                         _ self' p n Ha Hn')) as Hl.
    rewrite kr_foldl_receive in Hl. eexists. split; [exact Hl|].
    intros x. rewrite list_elem_of_bind. split.
    + intros (y & [-> _]%elem_of_replicate & Hy). done.
    + intros Hx. exists x. split; [|done]. apply elem_of_replicate. split; [done|].
      unfold copies. destruct (Hmesh p n Hn) as [Hidn _].
      destruct (Hmesh a self Hself) as [Hida Hpeers].
      rewrite decide_True by congruence.
      assert (p ∈ filter (λ x, x = p) (peers self')) as Hf.
      { apply list_elem_of_filter. split; [done|]. rewrite Hps. apply Hpeers.
        by eapply lookup_lt_Some. }
      destruct (filter (λ x, x = p) (peers self')); [by apply elem_of_nil in Hf|done].
Qed.

Lemma kr_flood_mesh net :
  flood_inv net →
  ∀ i n, net !! i = Some n → node_id n = i ∧ ∀ j, j < length net → j ∈ peers n.
Proof. intros [_ H] i n Hn. by destruct (H i n Hn) as (? & ? & _). Qed.

(** The invariant is kept by every turn of every node's loop. *)
Lemma kr_pop_inv net a : flood_inv net → flood_inv (pop_one a net).1.
Proof.
  intros Hinv.
  destruct (net !! a) as [self|] eqn:Hself;
    [|by unfold pop_one; rewrite Hself].
  destruct (inbox self) as [|m rest] eqn:Hin;
    [by unfold pop_one; rewrite Hself, Hin|].
  pose proof (kr_flood_mesh net Hinv) as Hmesh.
  destruct Hinv as [Hlen Hinv].
  destruct (Hinv a self Hself) as (Hid & Hpeers & Hst & Hgen & Hkn & Hown & Hwf & Hcross).
  assert (genuine_msg net m) as Hm by (apply Hgen; rewrite Hin; by left).
  set (s := set_inbox self rest).
  destruct (kr_dispatch_flood s m) as (D1 & D2 & D3 & D4 & D5 & D6 & D7 & D8).
  { simpl. by rewrite Hid. }
  { destruct Hm as [->|(j & o & Hr & _)]; [by left|right; by exists j]. }
  { exact Hwf. }
  { simpl. by rewrite Hid. }
  simpl in D1, D2. rewrite Hid in D1.
  destruct (kr_pop_shape net a self m rest Hmesh Hself Hin) as (Slen & Sa & Sp).
  { fold s. by rewrite D1. }
  { by fold s. }
  fold s in Sa, Sp.
  set (net' := (pop_one a net).1) in *.
  set (self' := (dispatch s m).1) in *.
  set (out := (dispatch s m).2) in *.
  change (saw s) with (saw self) in *.
  change (knows s) with (knows self) in *.
  change (local_keyword_stats s term) with (local_keyword_stats self term) in *.
  change (node_id s) with (node_id self) in *.
  rewrite Hid in D5, D7, D8.
  (* who has seen the query, before and after *)
  assert (∀ j o, net !! j = Some o → saw o → ∃ o', net' !! j = Some o' ∧ saw o')
    as Hmono.
  { intros j o Hj Ho. destruct (decide (j = a)) as [->|Hja].
    - exists self'. split; [done|]. apply D4. left. congruence.
    - destruct (Sp j o Hja Hj) as (extra & Hl & _). eexists. split; [done|]. done. }
  assert (∀ j o', net' !! j = Some o' → saw o' →
                  (∃ o, net !! j = Some o ∧ saw o)
                  ∨ (j = a ∧ m = QUERY q term ∧ ¬ saw self)) as Hback.
  { intros j o' Hj Ho'. destruct (decide (j = a)) as [->|Hja].
    - rewrite Sa in Hj. injection Hj as <-.
      destruct (decide (saw self)) as [Hs|Hs]; [left; by exists self|].
      right. apply D4 in Ho'. destruct Ho' as [?|?]; done.
    - assert (∃ o, net !! j = Some o) as [o Ho].
      { apply lookup_lt_is_Some. rewrite <-Slen. by eapply lookup_lt_Some. }
      destruct (Sp j o Hja Ho) as (extra & Hl & _).
      rewrite Hl in Hj. injection Hj as <-. left. by exists o. }
  assert (∀ x, genuine_msg net x → genuine_msg net' x) as Hgm.
  { intros x [->|(j & o & Hr & Hj & Ho)]; [by left|].
    destruct (Hmono j o Hj Ho) as (o' & Hj' & Ho'). right. by exists j, o'. }
  assert (∀ x, x ∈ out → genuine_msg net' x) as Hout.
  { intros x Hx. destruct (D7 x Hx) as [->|(-> & Hns & Hr)]; [by apply Hgm|].
    right. exists a, self'. split_and!; [done|done|]. apply D4. by right. }
  split; [by rewrite Slen|].
  intros i n' Hn'. destruct (decide (i = a)) as [->|Hia].
  - (* the node that took the turn *)
    rewrite Sa in Hn'. injection Hn' as <-.
    assert (inbox self' = rest) as Hrest.
    { unfold self'. by rewrite ks_dispatch_inbox. }
    split_and!.
    + done.
    + intros j Hj. rewrite D2. apply Hpeers. by rewrite <-Slen.
    + by rewrite D3.
    + intros x Hx. apply Hgm, Hgen. rewrite Hin. right. by rewrite <-Hrest.
    + intros c Hc. apply D5 in Hc. destruct Hc as [Hc|[Hc|(-> & Hq & Hns)]].
      * destruct (Hkn c Hc) as (o & Ho & Hso). by eapply Hmono.
      * destruct Hm as [->|(j & o & Hr & Hj & Ho)].
        { by destruct Hc as (? & ? & _ & [=]). }
        destruct Hr as (h & k & _ & ->).
        rewrite <-(kr_result_of_inj c _ j h k Hc eq_refl) in Hj. by eapply Hmono.
      * exists self'. split; [done|]. apply D4. by right.
    + rewrite D5, D4. split.
      * intros [Hc|[Hc|(_ & Hq & _)]]; [left; by apply Hown| |by right].
        destruct Hm as [->|(j & o & Hr & Hj & Ho)].
        { by destruct Hc as (? & ? & _ & [=]). }
        destruct Hr as (h & k & _ & ->).
        rewrite <-(kr_result_of_inj a _ j h k Hc eq_refl) in Hj.
        left. congruence.
      * intros [Hs|Hq]; [left; by apply Hown|].
        destruct (decide (saw self)) as [Hs|Hs]; [left; by apply Hown|].
        right. right. done.
    + done.
    + intros j o' Hj Ho'. rewrite Hrest. split.
      * destruct (Hback j o' Hj Ho') as [(o & Hjo & Hso)|(-> & Hq & Hns)].
        -- destruct (proj1 (Hcross j o Hjo Hso)) as [Hs|Hqi].
           ++ left. apply D4. by left.
           ++ rewrite Hin in Hqi. apply elem_of_cons in Hqi as [<-|Hqi]; [|by right].
              left. apply D4. by right.
        -- left. apply D4. by right.
      * intros Hne.
        destruct (Hback j o' Hj Ho') as [(o & Hjo & Hso)|(-> & _)]; [|done].
        destruct (proj2 (Hcross j o Hjo Hso) Hne) as [Hk|(x & Hr & Hx)].
        -- left. apply D5. by left.
        -- rewrite Hin in Hx. apply elem_of_cons in Hx as [->|Hx].
           ++ left. apply D5. right. by left.
           ++ right. by exists x.
  - (* another node *)
    assert (∃ n, net !! i = Some n) as [n Hn].
    { apply lookup_lt_is_Some. rewrite <-Slen. by eapply lookup_lt_Some. }
    destruct (Sp i n Hia Hn) as (extra & Hl & Hextra).
    rewrite Hl in Hn'. injection Hn' as <-.
    destruct (Hinv i n Hn) as (Hid' & Hpeers' & Hst' & Hgen' & Hkn' & Hown' & Hwf' & Hcross').
    split_and!.
    + done.
    + intros j Hj. apply Hpeers'. by rewrite <-Slen.
    + done.
    + intros x. simpl. intros [Hx|Hx]%elem_of_app.
      * by apply Hgm, Hgen'.
      * by apply Hout, Hextra.
    + intros c Hc. destruct (Hkn' c Hc) as (o & Ho & Hso). by eapply Hmono.
    + done.
    + done.
    + intros j o' Hj Ho'. simpl.
      destruct (Hback j o' Hj Ho') as [(o & Hjo & Hso)|(-> & Hq & Hns)].
      * destruct (Hcross' j o Hjo Hso) as [H1 H2]. split.
        -- destruct H1 as [?|?]; [by left|]. right. apply elem_of_app. by left.
        -- intros Hne. destruct (H2 Hne) as [?|(x & Hr & Hx)]; [by left|].
           right. exists x. split; [done|]. apply elem_of_app. by left.
      * destruct (D8 Hq Hns) as (Hqo & x & Hr & Hx). split.
        -- right. apply elem_of_app. right. by apply Hextra.
        -- intros _. right. exists x. split; [done|].
           apply elem_of_app. right. by apply Hextra.
Qed.

Lemma kr_turns_inv (k : nat) net a : flood_inv net → flood_inv (turns k a net).1.
Proof.
  revert net. induction k as [|k IH]; intros net Hinv; [done|].
  simpl. pose proof (kr_pop_inv net a Hinv) as H1.
  destruct (pop_one a net) as [net1 tr1]. specialize (IH net1 H1).
  by destruct (turns k a net1) as [net2 tr2].
Qed.

Lemma kr_process_inv net a : flood_inv net → flood_inv (step net (Process a)).1.
Proof.
  intros Hinv. simpl. unfold process_messages.
  destruct (net !! a) as [self|]; [|done]. by apply kr_turns_inv.
Qed.

Lemma kr_run_cons (op : Op) (ops : list Op) net :
  (run (op :: ops) net).1 = (run ops (step net op).1).1.
Proof.
  simpl. destruct (step net op) as [net1 tr1]. simpl.
  by destruct (run ops net1).
Qed.

Lemma kr_run_app (l1 l2 : list Op) net :
  (run (l1 ++ l2) net).1 = (run l2 (run l1 net).1).1.
Proof.
  revert net. induction l1 as [|op l1 IH]; intros net; [done|].
  change ((op :: l1) ++ l2) with (op :: (l1 ++ l2)). by rewrite !kr_run_cons, IH.
Qed.

Lemma kr_processes_inv (l : list nat) net :
  flood_inv net → flood_inv (run (Process <$> l) net).1.
Proof.
  revert net. induction l as [|a l IH]; intros net Hinv; [done|].
  rewrite fmap_cons, kr_run_cons. by apply IH, kr_process_inv.
Qed.

(** *** What a node has seen and tallied only grows *)

Lemma kr_dispatch_mono n m c :
  (saw n → saw (dispatch n m).1) ∧ (knows n c → knows (dispatch n m).1 c).
Proof.
  unfold saw, knows. destruct m as [q' t|q' j h k|kd]; simpl; [| |done].
  - unfold handle_query. destruct (decide (q' ∈ seen_queries n)); [done|].
    change (local_keyword_stats (set_seen_queries n ({[q']} ∪ seen_queries n)) t)
      with (local_keyword_stats n t).
    destruct (local_keyword_stats n t) as [h k]. cbn [fst]. split.
    + intros Hs. simpl. apply elem_of_union. by right.
    + unfold aggregate_of. simpl.
      destruct (decide (q = q')) as [->|Hq];
        [rewrite lookup_insert_eq|by rewrite lookup_insert_ne].
      intros Hc. simpl. apply elem_of_union. by right.
  - unfold handle_result.
    destruct (decide (j ∈ contributors (aggregate_of n q'))) as [Hj|Hj].
    { cbn [fst]. rewrite kr_aggregate_of_insert.
      by destruct (decide (q = q')) as [->|Hq]. }
    cbn zeta.
    set (n1 := set_aggregates n
                 (<[q' := tally (aggregate_of n q') j h k]> (aggregates n))).
    assert (knows n c → knows n1 c) as Hk.
    { unfold knows, n1. rewrite kr_aggregate_of_insert.
      destruct (decide (q = q')) as [->|Hq]; [|done].
      intros Hc. simpl. apply elem_of_union. by right. }
    by destruct (decide ((q', j) ∈ rebroadcasted_results n1)).
Qed.

Lemma kr_local_run_mono (l : list LocalOp) n c :
  (saw n → saw (local_run l n).1) ∧ (knows n c → knows (local_run l n).1 c).
Proof.
  revert n. induction l as [|a l IH]; intros n; simpl; [done|].
  assert ((saw n → saw (local_step n a).1)
          ∧ (knows n c → knows (local_step n a).1 c)) as [H1 H2].
  { destruct a as [|m]; simpl; [|done].
    destruct (inbox n) as [|m rest]; [done|]. simpl.
    apply (kr_dispatch_mono (set_inbox n rest) m c). }
  destruct (local_step n a) as [n1 tr1]. destruct (IH n1) as [H3 H4].
  destruct (local_run l n1) as [n2 tr2]. simpl in *. split; tauto.
Qed.

Lemma kr_run_mono (ops : list Op) net i n n' c :
  net !! i = Some n → (run ops net).1 !! i = Some n' →
  (saw n → saw n') ∧ (knows n c → knows n' c).
Proof.
  intros Hn Hn'. destruct (ks_run_project ops net i n Hn) as (lops & Hl & _).
  rewrite Hn' in Hl. injection Hl as ->. apply kr_local_run_mono.
Qed.

Lemma kr_run_length (ops : list Op) net : length (run ops net).1 = length net.
Proof.
  destruct (decide (length (run ops net).1 = length net)) as [|Hne]; [done|].
  exfalso.
  destruct (decide (length (run ops net).1 < length net)) as [Hlt|Hge].
  - destruct (lookup_lt_is_Some_2 net (length (run ops net).1) Hlt) as [n Hn].
    destruct (ks_run_project ops net _ n Hn) as (lops & Hl & _).
    apply lookup_lt_Some in Hl. lia.
  - assert (net !! length net = None) as Hnone by (by apply lookup_ge_None).
    destruct (ks_run_none ops net _ Hnone) as [Hl _].
    apply lookup_ge_None in Hl. lia.
Qed.

Lemma kr_run_lookup (ops : list Op) net i n' :
  (run ops net).1 !! i = Some n' → ∃ n, net !! i = Some n.
Proof.
  intros Hn'. apply lookup_lt_is_Some. rewrite <-(kr_run_length ops net).
  by eapply lookup_lt_Some.
Qed.

Lemma kr_step_as_run net op : (step net op).1 = (run [op] net).1.
Proof. simpl. by destruct (step net op). Qed.

Lemma kr_step_mono (op : Op) net i n n' c :
  net !! i = Some n → (step net op).1 !! i = Some n' →
  (saw n → saw n') ∧ (knows n c → knows n' c).
Proof. rewrite kr_step_as_run. apply kr_run_mono. Qed.

Lemma kr_step_length (op : Op) net : length (step net op).1 = length net.
Proof. rewrite kr_step_as_run. apply kr_run_length. Qed.

Lemma kr_step_lookup (op : Op) net i n' :
  (step net op).1 !! i = Some n' → ∃ n, net !! i = Some n.
Proof. rewrite kr_step_as_run. apply kr_run_lookup. Qed.

(** *** What one call of [process_messages] achieves *)

Lemma kr_handled_mono (l : list Message) n c :
  (saw n → saw (handled n l)) ∧ (knows n c → knows (handled n l) c).
Proof.
  revert n. induction l as [|m l IH]; intros n; [done|].
  change (handled n (m :: l)) with (handled (dispatch n m).1 l).
  destruct (kr_dispatch_mono n m c). destruct (IH (dispatch n m).1). split; tauto.
Qed.

Lemma kr_handled_query (l : list Message) n :
  QUERY q term ∈ l → saw (handled n l).
Proof.
  revert n. induction l as [|m l IH]; intros n; [by intros ?%elem_of_nil|].
  change (handled n (m :: l)) with (handled (dispatch n m).1 l).
  intros [<-|Hin]%elem_of_cons; [|by apply IH].
  apply kr_handled_mono; [exact 0|]. unfold saw. simpl. unfold handle_query.
  destruct (decide (q ∈ seen_queries n)); [done|].
  destruct (local_keyword_stats _ term). simpl. apply elem_of_union. left.
  by apply elem_of_singleton.
Qed.

Lemma kr_handled_result (l : list Message) n j h k :
  RESULT q j h k ∈ l → knows (handled n l) j.
Proof.
  revert n. induction l as [|m l IH]; intros n; [by intros ?%elem_of_nil|].
  change (handled n (m :: l)) with (handled (dispatch n m).1 l).
  intros [<-|Hin]%elem_of_cons; [|by apply IH].
  apply kr_handled_mono. unfold knows. simpl.
  by destruct (ks_handle_result_cases n q j h k) as (_ & _ & ? & _).
Qed.

Lemma kr_process_self net i self :
  net !! i = Some self →
  (step net (Process i)).1 !! i = Some (handled (set_inbox self []) (inbox self)).
Proof.
  intros Hself. simpl. unfold process_messages. rewrite Hself.
  rewrite (kr_turns_fold _ net i self Hself), firstn_all, drop_all.
  rewrite <-(kr_handled_inbox (set_inbox self []) (inbox self)) at 2.
  by rewrite kr_set_inbox_inbox.
Qed.

Lemma kr_process_saw net i n :
  net !! i = Some n → saw n ∨ QUERY q term ∈ inbox n →
  ∃ n', (step net (Process i)).1 !! i = Some n' ∧ saw n'.
Proof.
  intros Hn Hs. eexists. split; [by apply kr_process_self|].
  destruct Hs as [Hs|Hq]; [|by apply kr_handled_query].
  by apply kr_handled_mono; [exact 0|].
Qed.

Lemma kr_process_knows net i n j :
  net !! i = Some n → knows n j ∨ (∃ m, result_of j m ∧ m ∈ inbox n) →
  ∃ n', (step net (Process i)).1 !! i = Some n' ∧ knows n' j.
Proof.
  intros Hn Hk. eexists. split; [by apply kr_process_self|].
  destruct Hk as [Hk|(m & (h & k & _ & ->) & Hm)]; [|by eapply kr_handled_result].
  by apply kr_handled_mono.
Qed.

(** *** Rounds *)

(** Once some node has seen the query, a round brings it to every node that
    takes its turn. *)
Lemma kr_round_saw (l : list nat) net :
  flood_inv net → (∃ j o, net !! j = Some o ∧ saw o) →
  ∀ i n', i ∈ l → (run (Process <$> l) net).1 !! i = Some n' → saw n'.
Proof.
  revert net. induction l as [|a l IH]; intros net Hinv (j & o & Hj & Ho) i n' Hi Hn';
    [by apply elem_of_nil in Hi|].
  rewrite fmap_cons, kr_run_cons in Hn'.
  pose proof (kr_process_inv net a Hinv) as Hinv1.
  assert (∃ o1, (step net (Process a)).1 !! j = Some o1 ∧ saw o1) as (o1 & Hj1 & Ho1).
  { assert (∃ o1, (step net (Process a)).1 !! j = Some o1) as [o1 Hj1].
    { apply lookup_lt_is_Some.
      rewrite kr_step_length. by eapply lookup_lt_Some. }
    exists o1. split; [done|].
    by apply (kr_step_mono (Process a) net j o o1 0 Hj Hj1). }
  destruct (decide (i ∈ l)) as [Hil|Hil]; [by eapply (IH _ Hinv1); eauto|].
  apply elem_of_cons in Hi as [->|?]; [|done].
  destruct (kr_run_lookup _ _ _ _ Hn') as [n1 Hn1].
  destruct (kr_step_lookup (Process a) net a n1 Hn1) as [n Hn].
  destruct Hinv as [_ Hok].
  destruct (Hok a n Hn) as (_ & _ & _ & _ & _ & _ & _ & Hcross).
  destruct (kr_process_saw net a n Hn (proj1 (Hcross j o Hj Ho))) as (n1' & Hn1' & Hs).
  rewrite Hn1 in Hn1'. injection Hn1' as <-.
  by apply (kr_run_mono (Process <$> l) _ a n1 n' 0 Hn1 Hn').
Qed.

(** Once every node has seen the query, a round brings every result to
    every node that takes its turn. *)
Lemma kr_round_knows (l : list nat) net :
  flood_inv net → (∀ j o, net !! j = Some o → saw o) →
  ∀ i n' j, i ∈ l → (run (Process <$> l) net).1 !! i = Some n' →
            j < length net → knows n' j.
Proof.
  revert net. induction l as [|a l IH]; intros net Hinv Hall i n' j Hi Hn' Hj;
    [by apply elem_of_nil in Hi|].
  rewrite fmap_cons, kr_run_cons in Hn'.
  pose proof (kr_process_inv net a Hinv) as Hinv1.
  assert (∀ j o, (step net (Process a)).1 !! j = Some o → saw o) as Hall1.
  { intros j' o1 Hj1. destruct (kr_step_lookup (Process a) net j' o1 Hj1) as [o Ho].
    apply (kr_step_mono (Process a) net j' o o1 0 Ho Hj1). by eapply Hall. }
  destruct (decide (i ∈ l)) as [Hil|Hil].
  { eapply (IH _ Hinv1 Hall1); eauto. by rewrite kr_step_length. }
  apply elem_of_cons in Hi as [->|?]; [|done].
  destruct (kr_run_lookup _ _ _ _ Hn') as [n1 Hn1].
  destruct (kr_step_lookup (Process a) net a n1 Hn1) as [n Hn].
  destruct (lookup_lt_is_Some_2 net j Hj) as [o Ho].
  destruct Hinv as [_ Hok].
  destruct (Hok a n Hn) as (_ & _ & _ & _ & _ & Hown & _ & Hcross).
  assert (knows n j ∨ (∃ m, result_of j m ∧ m ∈ inbox n)) as Hk.
  { destruct (decide (a = j)) as [<-|Hne].
    - left. apply Hown. by eapply Hall.
    - apply (proj2 (Hcross j o Ho (Hall j o Ho)) Hne). }
  destruct (kr_process_knows net a n j Hn Hk) as (n1' & Hn1' & Hs).
  rewrite Hn1 in Hn1'. injection Hn1' as <-.
  by apply (kr_run_mono (Process <$> l) _ a n1 n' j Hn1 Hn').
Qed.

End Flood.


(** ** The run of [simulate] *)

(** The nodes as [simulate] connects them: the id of a node is its position
    in [nodes], and every node has all of [nodes] as peers. *)
Definition mesh (net : list Node) : Prop :=
  ∀ i n, net !! i = Some n → node_id n = i ∧ ∀ j, j < length net → j ∈ peers n.

(** A node before the run: nothing received, nothing recorded. *)
Definition pristine (n : Node) : Prop := untouched n ∧ inbox n = [].

(** The initiator [nodes[0]] receives the query, then [steps] times every
    node in turn runs [process_messages]. *)
Definition simulate_ops (num_nodes steps : nat) (query_id query_term : string)
  : list Op :=
  Deliver 0 (QUERY query_id query_term)
  :: mjoin (replicate steps (Process <$> seq 0 num_nodes)).

(** What [local_keyword_stats] gives at each position. *)
Definition stats_of (net : list Node) (term : string) : list (bool * nat) :=
  (λ n, local_keyword_stats n term) <$> net.

Definition has_at (st : list (bool * nat)) (c : nat) : bool :=
  match st !! c with
  | Some (true, _) => true
  | _ => false
  end.

(** The aggregate that holds the result of every node, each once. *)
Definition summary (net : list Node) (term : string) : Aggregate :=
  let everyone : gset nat := set_seq 0 (length net) in
  mkAggregate everyone
    (filter (λ c, has_at (stats_of net term) c = true) everyone)
    (sum_list (weight <$> stats_of net term))
    everyone.

Lemma kr_rounds_inv q term st (k : nat) (l : list nat) net :
  flood_inv q term st net →
  flood_inv q term st (run (mjoin (replicate k (Process <$> l))) net).1.
Proof.
  revert net. induction k as [|k IH]; intros net Hinv; [done|].
  simpl. rewrite kr_run_app. by apply IH, kr_processes_inv.
Qed.

Lemma kr_initial q term (net0 : list Node) n0 :
  net0 !! 0 = Some n0 → mesh net0 → Forall pristine net0 →
  (step net0 (Deliver 0 (QUERY q term))).1 = <[0 := receive n0 (QUERY q term)]> net0
  ∧ flood_inv q term (stats_of net0 term)
      (<[0 := receive n0 (QUERY q term)]> net0).
Proof.
  intros H0 Hmesh Hpr. split; [by simpl; rewrite H0|].
  assert (∀ i n, <[0 := receive n0 (QUERY q term)]> net0 !! i = Some n →
                 ∃ o, net0 !! i = Some o
                      ∧ n = set_inbox o (if decide (i = 0) then [QUERY q term] else [])) as Hlk.
  { intros i n Hn. destruct (decide (i = 0)) as [->|Hi].
    - rewrite list_lookup_insert_eq in Hn by (by eapply lookup_lt_Some).
      injection Hn as <-. exists n0. split; [done|].
      destruct (proj1 (Forall_lookup _ _) Hpr 0 n0 H0) as [_ Hin].
      unfold receive. by rewrite Hin.
    - rewrite list_lookup_insert_ne in Hn by done. exists n. split; [done|].
      destruct (proj1 (Forall_lookup _ _) Hpr i n Hn) as [_ Hin].
      by rewrite <-Hin, kr_set_inbox_inbox. }
  assert (∀ i n, <[0 := receive n0 (QUERY q term)]> net0 !! i = Some n →
                 ¬ saw q n) as Hnone.
  { intros i n Hn. destruct (Hlk i n Hn) as (o & Ho & ->).
    destruct (proj1 (Forall_lookup _ _) Hpr i o Ho) as [(Hs & _) _].
    unfold saw. simpl. rewrite Hs. apply not_elem_of_empty. }
  split.
  { unfold stats_of. by rewrite length_fmap, length_insert. }
  intros i n Hn. destruct (Hlk i n Hn) as (o & Ho & ->).
  destruct (proj1 (Forall_lookup _ _) Hpr i o Ho) as [(Hs & Hr & Ha) Hin].
  destruct (Hmesh i o Ho) as [Hid Hpeers].
  assert (aggregate_of
            (set_inbox o (if decide (i = 0) then [QUERY q term] else [])) q
          = empty_aggregate) as Hagg.
  { unfold aggregate_of. simpl. by rewrite Ha, lookup_empty. }
  unfold node_ok, knows. rewrite Hagg. split_and!.
  - done.
  - intros j Hj. apply Hpeers. by rewrite length_insert in Hj.
  - unfold stats_of. by rewrite list_lookup_fmap, Ho.
  - intros m. simpl. destruct (decide (i = 0)); [|by intros ?%elem_of_nil].
    intros ->%list_elem_of_singleton. by left.
  - by intros c ?%elem_of_empty.
  - split; [by intros ?%elem_of_empty|]. intros Hsaw. by destruct (Hnone i _ Hn).
  - apply kr_wf_empty.
  - intros j o' Hj Ho'. by destruct (Hnone j o' Hj).
Qed.

(** After two rounds every node has tallied every node. *)
Lemma kr_search_final q term (net0 : list Node) (steps : nat) i n :
  0 < length net0 → mesh net0 → Forall pristine net0 → 2 ≤ steps →
  (run (simulate_ops (length net0) steps q term) net0).1 !! i = Some n →
  node_ok q term (stats_of net0 term)
    (run (simulate_ops (length net0) steps q term) net0).1 i n
  ∧ length (run (simulate_ops (length net0) steps q term) net0).1 = length net0
  ∧ ∀ j, j < length net0 → knows q n j.
Proof.
  intros Hpos Hmesh Hpr Hsteps.
  destruct (lookup_lt_is_Some_2 net0 0 Hpos) as [n0 H0].
  destruct (kr_initial q term net0 n0 H0 Hmesh Hpr) as [Hstep Hinv1].
  set (st := stats_of net0 term) in *.
  unfold simulate_ops. rewrite kr_run_cons, Hstep.
  set (net1 := <[0 := receive n0 (QUERY q term)]> net0) in *.
  assert (length net1 = length net0) as Hlen1 by apply length_insert.
  destruct steps as [|[|k]]; [lia..|]. clear Hsteps.
  change (mjoin (replicate (S (S k)) (Process <$> seq 0 (length net0))))
    with ((Process <$> seq 0 (length net0))
          ++ (Process <$> seq 0 (length net0))
          ++ mjoin (replicate k (Process <$> seq 0 (length net0)))).
  rewrite !kr_run_app.
  destruct (length net0) as [|N'] eqn:HN; [lia|].
  set (R := Process <$> seq 0 (S N')).
  (* first round *)
  set (net2 := (run R net1).1).
  assert (flood_inv q term st net2) as Hinv2 by (by apply kr_processes_inv).
  assert (length net2 = S N') as Hlen2.
  { unfold net2. by rewrite kr_run_length. }
  assert (∀ j o, net2 !! j = Some o → saw q o) as Hall2.
  { intros j o Hj. unfold net2, R in Hj.
    change (seq 0 (S N')) with (0 :: seq 1 N') in Hj.
    rewrite fmap_cons, kr_run_cons in Hj.
    destruct (kr_process_saw q term net1 0 (receive n0 (QUERY q term)))
      as (o1 & Ho1 & Hs1).
    { apply list_lookup_insert_eq. by eapply lookup_lt_Some. }
    { right. unfold receive. simpl. apply elem_of_app. right.
      by apply list_elem_of_singleton. }
    destruct (decide (j = 0)) as [->|Hj0].
    - by apply (kr_run_mono q (Process <$> seq 1 N') _ 0 o1 o 0 Ho1 Hj).
    - eapply (kr_round_saw q term st (seq 1 N')); [|by eauto| |exact Hj].
      + by apply kr_process_inv.
      + apply elem_of_seq. apply lookup_lt_Some in Hj.
        rewrite kr_run_length, kr_step_length, Hlen1 in Hj. lia. }
  (* second round *)
  set (net3 := (run R net2).1).
  assert (flood_inv q term st net3) as Hinv3 by (by apply kr_processes_inv).
  assert (∀ i n j, net3 !! i = Some n → j < S N' → knows q n j) as Hall3.
  { intros i' n' j Hi Hj.
    eapply (kr_round_knows q term st (seq 0 (S N')) net2 Hinv2 Hall2 i' n' j);
      [|exact Hi|lia].
    apply elem_of_seq. apply lookup_lt_Some in Hi.
    unfold net3 in Hi. rewrite kr_run_length in Hi. lia. }
  (* the rounds that follow *)
  intros Hn.
  pose proof (kr_rounds_inv q term st k (seq 0 (S N')) net3 Hinv3) as Hinv4.
  fold R in Hinv4, Hn.
  split_and!.
  - by apply Hinv4.
  - rewrite kr_run_length. unfold net3. by rewrite kr_run_length.
  - intros j Hj. destruct (kr_run_lookup _ _ _ _ Hn) as [n3 Hn3].
    apply (kr_run_mono q _ net3 i n3 n j Hn3 Hn). by eapply Hall3.
Qed.

Lemma kr_search_aggregate q term (net0 : list Node) (steps : nat) i n :
  0 < length net0 → mesh net0 → Forall pristine net0 → 2 ≤ steps →
  (run (simulate_ops (length net0) steps q term) net0).1 !! i = Some n →
  aggregates n !! q = Some (summary net0 term).
Proof.
  intros Hpos Hmesh Hpr Hsteps Hn.
  destruct (kr_search_final q term net0 steps i n Hpos Hmesh Hpr Hsteps Hn)
    as ((_ & _ & _ & _ & Hkn & _ & (Ht & Hh & Hc) & _) & Hlen & Hall).
  unfold knows in *.
  assert (contributors (aggregate_of n q) = set_seq 0 (length net0)) as Hcon.
  { apply set_eq. intros c. rewrite elem_of_set_seq. split.
    - intros Hin. destruct (Hkn c Hin) as (o & Ho & _).
      apply lookup_lt_Some in Ho. lia.
    - intros [_ Hlt]. apply Hall. lia. }
  assert (hit_count (aggregate_of n q) = sum_list (weight <$> stats_of net0 term))
    as Hcount.
  { rewrite Hc. apply kr_hits_all. intros j Hj. rewrite Hcon.
    apply elem_of_set_seq. unfold stats_of in Hj. rewrite length_fmap in Hj. lia. }
  assert (nodes_hit (aggregate_of n q)
          = filter (λ c, has_at (stats_of net0 term) c = true)
              (set_seq 0 (length net0) : gset nat)) as Hhit.
  { apply set_eq. intros c. rewrite Hh, elem_of_filter, Hcon. unfold has_at.
    split.
    - intros [Hin [k ->]]. done.
    - intros [Hhas Hin]. split; [done|].
      destruct (stats_of net0 term !! c) as [[[|] k]|]; [by exists k|done..]. }
  unfold aggregate_of in *.
  destruct (aggregates n !! q) as [a|]; simpl in *.
  - f_equal. destruct a as [nt nh hc co]. simpl in *. unfold summary.
    by rewrite Ht, Hcon, Hhit, Hcount.
  - assert (0 ∈ (∅ : gset nat)) as Hin; [|by apply elem_of_empty in Hin].
    rewrite Hcon. apply elem_of_set_seq. lia.
Qed.

(** ** The flood reaches everyone, and all decide alike *)

(** X13. [simulate] on a full mesh of [num_nodes >= 1] nodes with at least
    two steps: at the end every node holds, for the query, the same
    aggregate; its contributors are all the nodes, its hit nodes are the
    nodes whose [local_keyword_stats] reports the term, and its hit count is
    the sum of the counts they report, each counted once. *)
Theorem search_reaches_everyone (q term : string) (net0 : list Node) (steps : nat)
    (i : nat) (n : Node) :
  0 < length net0 → mesh net0 → Forall pristine net0 → 2 ≤ steps →
  (run (simulate_ops (length net0) steps q term) net0).1 !! i = Some n →
  aggregates n !! q = Some (summary net0 term).
Proof. apply kr_search_aggregate. Qed.

(** X14. After such a run all nodes take the same local decision, whatever
    the thresholds; it is "no decision" exactly when the number of nodes is
    below [min_contributors], and otherwise it reports all nodes as
    contributors. *)
Theorem search_decisions_agree (q term : string) (net0 : list Node) (steps : nat)
    (i j : nat) (n n' : Node) (min_contributors : Z) (threshold : float) :
  0 < length net0 → mesh net0 → Forall pristine net0 → 2 ≤ steps →
  (run (simulate_ops (length net0) steps q term) net0).1 !! i = Some n →
  (run (simulate_ops (length net0) steps q term) net0).1 !! j = Some n' →
  local_decision n q min_contributors threshold
  = local_decision n' q min_contributors threshold
  ∧ (local_decision n q min_contributors threshold = None
     ↔ (Z.of_nat (length net0) < min_contributors)%Z)
  ∧ ∀ d, local_decision n q min_contributors threshold = Some d →
         d_contributors d = length net0
         ∧ d_hit_nodes d
           = length (filter (λ s : bool * nat, s.1 = true) (stats_of net0 term))
         ∧ d_total_hits d = sum_list (weight <$> stats_of net0 term).
Proof.
  intros Hpos Hmesh Hpr Hsteps Hn Hn'.
  pose proof (kr_search_aggregate q term net0 steps i n Hpos Hmesh Hpr Hsteps Hn) as Ha.
  pose proof (kr_search_aggregate q term net0 steps j n' Hpos Hmesh Hpr Hsteps Hn') as Ha'.
  unfold local_decision. rewrite Ha, Ha'. split; [done|].
  assert (size (contributors (summary net0 term)) = length net0) as Hsize.
  { unfold summary. simpl. apply size_set_seq. }
  rewrite Hsize. split.
  - case_bool_decide; [done|]. split; [done|]. intros ?. lia.
  - intros d. case_bool_decide; [done|]. intros [= <-]. simpl.
    split_and!; [done| |done].
    unfold stats_of. generalize (λ n, local_keyword_stats n term). intros f.
    clear. unfold has_at. induction net0 as [|o l IH] using rev_ind.
    + done.
    + rewrite length_app, fmap_app. simpl. rewrite Nat.add_1_r, set_seq_S_end_union_L.
      rewrite filter_union_L, size_union.
      * rewrite filter_app, length_app, (Nat.add_comm (length _) (length _)). f_equal.
        -- rewrite (filter_singleton_L (C := gset nat)), Nat.add_0_l.
           rewrite lookup_app_r by (by rewrite length_fmap).
           rewrite length_fmap, Nat.sub_diag.
           change ([f o] !! 0) with (Some (f o)).
           rewrite filter_cons, filter_nil.
           destruct (f o) as [[|] k]; cbn [fst].
           ++ rewrite !decide_True by done. apply size_singleton.
           ++ rewrite !decide_False by done. apply size_empty.
           ++ apply _.
        -- rewrite <-IH. f_equal. apply set_eq. intros c.
           rewrite !elem_of_filter, elem_of_set_seq.
           split; intros [Hc [? ?]]; (split; [|done]).
           ++ by rewrite lookup_app_l in Hc by (rewrite length_fmap; lia).
           ++ by rewrite lookup_app_l by (rewrite length_fmap; lia).
      * intros c [_ Hc1]%elem_of_filter [_ Hc2]%elem_of_filter.
        apply elem_of_set_seq in Hc2. apply elem_of_singleton in Hc1. lia.
      * apply _.
Qed.


(** ** The theorems at work on the three-node search *)

Lemma three_nodes_mesh : mesh three_nodes.
Proof.
  intros i n Hn. destruct i as [|[|[|i]]]; [injection Hn as <-..|done];
    (split; [done|]); intros j Hj; simpl in Hj;
    destruct j as [|[|[|j]]]; first [lia | by_compute].
Qed.

Lemma three_nodes_pristine : Forall pristine three_nodes.
Proof. repeat constructor. Qed.

Lemma three_nodes_untouched : Forall untouched three_nodes.
Proof. repeat constructor. Qed.

Lemma aggregates_stay_tidy_witness :
  ∃ n, (run search_ops three_nodes).1 !! 1 = Some n
       ∧ (∀ q a, aggregates n !! q = Some a →
                 nodes_total a = contributors a ∧ nodes_hit a ⊆ contributors a)
       ∧ (∀ q c, c ∈ contributors (aggregate_of n q)
                 ↔ (q, c) ∈ rebroadcasted_results n
                   ∨ (c = node_id n ∧ q ∈ seen_queries n)).
Proof.
  eexists. split; [by vm_compute|].
  apply (aggregates_stay_tidy three_nodes search_ops 1);
    [exact three_nodes_untouched|by vm_compute].
Defined.

Lemma relay_iff_new_contributor_witness :
  ∃ n, (run search_ops three_nodes).1 !! 1 = Some n
       ∧ (handle_result n "q1" 7 true 4).2
         = if decide (7 ∈ contributors (aggregate_of n "q1"))
           then [] else [RESULT "q1" 7 true 4].
Proof.
  eexists. split; [by vm_compute|].
  apply (relay_iff_new_contributor three_nodes search_ops 1);
    [exact three_nodes_untouched|by vm_compute].
Defined.

Lemma process_messages_drains_witness :
  ∃ self,
    (run [Deliver 0 (QUERY "q1" "gossip")] three_nodes).1 !! 0 = Some self
    ∧ (process_messages 0 (run [Deliver 0 (QUERY "q1" "gossip")] three_nodes).1).1 !! 0
      = Some (handled (set_inbox self []) (inbox self))
    ∧ inbox (handled (set_inbox self []) (inbox self)) = [].
Proof.
  eexists. split; [by vm_compute|].
  apply (process_messages_drains _ 0). by vm_compute.
Defined.

Lemma search_reaches_everyone_witness :
  ∃ n, (run (simulate_ops 3 2 "q1" "gossip") three_nodes).1 !! 2 = Some n
       ∧ aggregates n !! "q1"%string = Some (summary three_nodes "gossip").
Proof.
  eexists. split; [by vm_compute|].
  apply (search_reaches_everyone "q1" "gossip" three_nodes 2 2);
    [simpl; lia|exact three_nodes_mesh|exact three_nodes_pristine|lia|by vm_compute].
Defined.

Lemma search_decisions_agree_witness :
  ∃ n n',
    (run (simulate_ops 3 2 "q1" "gossip") three_nodes).1 !! 0 = Some n
    ∧ (run (simulate_ops 3 2 "q1" "gossip") three_nodes).1 !! 2 = Some n'
    ∧ local_decision n "q1" 3 0.3 = local_decision n' "q1" 3 0.3.
Proof.
  eexists _, _. split; [by vm_compute|]. split; [by vm_compute|].
  apply (search_decisions_agree "q1" "gossip" three_nodes 2 0 2);
    [simpl; lia|exact three_nodes_mesh|exact three_nodes_pristine|lia
    |by vm_compute|by vm_compute].
Defined.

End KeywordRuns.

(** * The voting demos: every vote reaches every node

    The [Node] classes of the voting demos have the same plumbing: a value
    is stored under a key and gossiped ([vote]), and [process_messages]
    appends every value of the inbox to the list of its key.  The section
    is over any node type with these operations; [b i] is the value the
    node at position [i] casts. *)

Section VoteFlood.

Context {Nd K V : Type} `{Countable K}.
Variables (node_id : Nd → nat) (peers : Nd → list nat).
Variables (inbox : Nd → list (K * V)) (known : Nd → gmap K (list V)).
Variables (receive : Nd → K * V → Nd) (store : Nd → K → V → Nd) (process : Nd → Nd).

(** [known.setdefault(k, []).append(v)] *)
Definition appended (kn : gmap K (list V)) (m : K * V) : gmap K (list V) :=
  <[m.1 := default [] (kn !! m.1) ++ [m.2]]> kn.

Hypothesis receive_spec : ∀ n m,
  node_id (receive n m) = node_id n ∧ peers (receive n m) = peers n
  ∧ inbox (receive n m) = inbox n ++ [m] ∧ known (receive n m) = known n.
Hypothesis store_spec : ∀ n k v,
  node_id (store n k v) = node_id n ∧ peers (store n k v) = peers n
  ∧ inbox (store n k v) = inbox n ∧ known (store n k v) = appended (known n) (k, v).
Hypothesis process_spec : ∀ n,
  node_id (process n) = node_id n ∧ peers (process n) = peers n
  ∧ inbox (process n) = [] ∧ known (process n) = foldl appended (known n) (inbox n).

(** The node at position [i] stores its value and gossips it. *)
Definition cast (i : nat) (net : list Nd) (k : K) (v : V) : list Nd :=
  match net !! i with
  | Some self => gossip_with node_id peers receive i (<[i := store self k v]> net) (k, v)
  | None => net
  end.

(** The node at position [i] runs [process_messages]. *)
Definition process_at (i : nat) (net : list Nd) : list Nd :=
  match net !! i with
  | Some self => <[i := process self]> net
  | None => net
  end.

(** [simulate]: every node casts its value, then [rounds] times every node
    processes its inbox. *)
Definition demo (N : nat) (net : list Nd) (k : K) (b : nat → V) (rounds : nat)
  : list Nd :=
  Nat.iter rounds (λ net, for_each (λ net i, process_at i net) (seq 0 N) net)
    (for_each (λ net i, cast i net k (b i)) (seq 0 N) net).

(** The nodes as [simulate] makes them: numbered by position, each with all
    nodes as peers, nothing received, nothing known about [k]. *)
Definition at_start (N : nat) (net : list Nd) (k : K) : Prop :=
  length net = N
  ∧ ∀ i n, net !! i = Some n →
           node_id n = i ∧ peers n = seq 0 N ∧ inbox n = [] ∧ known n !! k = None.

(** After the first [c] nodes have cast. *)
Definition after_casts (N : nat) (k : K) (b : nat → V) (c : nat) (net : list Nd) : Prop :=
  length net = N
  ∧ ∀ j n, net !! j = Some n →
           node_id n = j ∧ peers n = seq 0 N
           ∧ inbox n = (λ i, (k, b i)) <$> filter (λ i, i ≠ j) (seq 0 c)
           ∧ known n !! k = if decide (j < c) then Some [b j] else None.

(** The votes a node holds in the end: its own, then the others' in the
    order in which they were cast. *)
Definition ballots (N : nat) (b : nat → V) (j : nat) : list V :=
  b j :: (b <$> filter (λ i, i ≠ j) (seq 0 N)).

Definition settled (N : nat) (k : K) (b : nat → V) (net : list Nd) : Prop :=
  length net = N
  ∧ ∀ j n, net !! j = Some n →
           node_id n = j ∧ inbox n = [] ∧ known n !! k = Some (ballots N b j).

Lemma vf_filter_eq_seq (N p : nat) :
  length (filter (λ x, x = p) (seq 0 N)) = if decide (p < N) then 1 else 0.
Proof.
  induction N as [|N IH]; [done|].
  rewrite seq_S, filter_app, length_app, IH. simpl.
  rewrite filter_cons, filter_nil.
  destruct (decide (N = p)) as [->|Hne]; simpl.
  - rewrite decide_False by lia. by rewrite decide_True by lia.
  - destruct (decide (p < N)).
    + by rewrite decide_True by lia.
    + by rewrite decide_False by lia.
Qed.

Lemma vf_receive_id : ∀ n m, node_id (receive n m) = node_id n.
Proof. intros n m. by destruct (receive_spec n m). Qed.

Lemma vf_cast_step (N : nat) (k : K) (b : nat → V) (c : nat) net :
  c < N → after_casts N k b c net → after_casts N k b (S c) (cast c net k (b c)).
Proof.
  intros Hc [Hlen Hinv]. unfold cast.
  destruct (lookup_lt_is_Some_2 net c) as [self Hself]; [lia|]. rewrite Hself.
  destruct (Hinv c self Hself) as (Hid & Hps & Hin & Hkn).
  destruct (store_spec self k (b c)) as (Sid & Sps & Sin & Skn).
  assert (<[c := store self k (b c)]> net !! c = Some (store self k (b c))) as Hc'.
  { apply list_lookup_insert_eq. lia. }
  split.
  { by rewrite gossip_length, length_insert. }
  intros j n' Hn'.
  assert (∃ n, net !! j = Some n) as [n Hn].
  { apply lookup_lt_is_Some. apply lookup_lt_Some in Hn'.
    by rewrite gossip_length, length_insert in Hn'. }
  rewrite seq_S, filter_app. simpl. rewrite filter_cons, filter_nil.
  destruct (decide (j = c)) as [->|Hjc].
  - assert (n = self) as -> by congruence.
    pose proof (proj2 (gossips_exact node_id peers receive vf_receive_id c [(k, b c)]
                         _ _ c _ Hc' Hc')) as Hl.
    unfold for_each in Hl. simpl in Hl. rewrite Hl in Hn'. injection Hn' as <-.
    rewrite decide_False by (by intros ?). rewrite (right_id_L [] (++)).
    rewrite Sid, Sps, Sin, Skn. split_and!; [done..|].
    rewrite decide_True by lia. unfold appended. simpl.
    rewrite lookup_insert_eq. rewrite decide_False in Hkn by lia. by rewrite Hkn.
  - assert (<[c := store self k (b c)]> net !! j = Some n) as Hj'.
    { by rewrite list_lookup_insert_ne. }
    pose proof (proj1 (gossips_exact node_id peers receive vf_receive_id c [(k, b c)]
                         _ _ j n Hc' Hj')) as Hl.
    unfold for_each in Hl. simpl in Hl. rewrite Hl in Hn'. injection Hn' as <-.
    destruct (Hinv j n Hn) as (Hidj & Hpsj & Hinj & Hknj).
    assert (copies node_id peers (store self k (b c)) j n = 1) as ->.
    { unfold copies. rewrite decide_True by congruence.
      rewrite Sps, Hps, vf_filter_eq_seq. apply lookup_lt_Some in Hn.
      by rewrite decide_True by lia. }
    simpl. destruct (receive_spec n (k, b c)) as (Rid & Rps & Rin & Rkn).
    rewrite Rid, Rps, Rin, Rkn, Hinj. rewrite decide_True by lia.
    rewrite fmap_app. split_and!; [done..|].
    rewrite Hknj. destruct (decide (j < c)).
    + by rewrite decide_True by lia.
    + by rewrite decide_False by lia.
Qed.

Lemma vf_casts (N : nat) (k : K) (b : nat → V) (c : nat) net :
  c ≤ N → at_start N net k →
  after_casts N k b c (for_each (λ net i, cast i net k (b i)) (seq 0 c) net).
Proof.
  intros Hc [Hlen Hst]. induction c as [|c IH].
  - split; [done|]. intros j n Hn. destruct (Hst j n Hn) as (? & ? & ? & ?).
    split_and!; [done..|]. by rewrite decide_False by lia.
  - rewrite seq_S. unfold for_each in *. rewrite foldl_app. simpl.
    apply vf_cast_step; [lia|]. apply IH. lia.
Qed.

Lemma vf_appended_fold (kn : gmap K (list V)) (k : K) (l vs : list V) :
  kn !! k = Some l →
  foldl appended kn ((λ v, (k, v)) <$> vs) !! k = Some (l ++ vs).
Proof.
  revert kn l. induction vs as [|v vs IH]; intros kn l Hl.
  - simpl. by rewrite (right_id_L [] (++)).
  - csimpl. rewrite (IH _ (l ++ [v])).
    + by rewrite <-(assoc_L (++)).
    + unfold appended. simpl. by rewrite lookup_insert_eq, Hl.
Qed.

Lemma vf_process_prefix (c : nat) net :
  c ≤ length net →
  length (for_each (λ net i, process_at i net) (seq 0 c) net) = length net
  ∧ ∀ j n, net !! j = Some n →
           for_each (λ net i, process_at i net) (seq 0 c) net !! j
           = Some (if decide (j < c) then process n else n).
Proof.
  intros Hc. induction c as [|c IH].
  - split; [done|]. intros j n Hn. by rewrite decide_False by lia.
  - destruct IH as [IHlen IH]; [lia|].
    rewrite seq_S. unfold for_each in *. rewrite foldl_app. simpl.
    destruct (lookup_lt_is_Some_2 net c) as [self Hself]; [lia|].
    unfold process_at at 1 3. rewrite (IH c self Hself), decide_False by lia.
    split; [by rewrite length_insert|].
    intros j n Hn. destruct (decide (j = c)) as [->|Hjc].
    + rewrite list_lookup_insert_eq by lia.
      rewrite decide_True by lia. congruence.
    + rewrite list_lookup_insert_ne by done. rewrite (IH j n Hn).
      destruct (decide (j < c)).
      * by rewrite decide_True by lia.
      * by rewrite decide_False by lia.
Qed.

Lemma vf_first_round (N : nat) (k : K) (b : nat → V) net :
  after_casts N k b N net →
  settled N k b (for_each (λ net i, process_at i net) (seq 0 N) net).
Proof.
  intros [Hlen Hinv].
  destruct (vf_process_prefix N net) as [Plen Pl]; [lia|].
  split; [lia|]. intros j n' Hn'.
  assert (∃ n, net !! j = Some n) as [n Hn].
  { apply lookup_lt_is_Some. apply lookup_lt_Some in Hn'. lia. }
  rewrite (Pl j n Hn) in Hn'. apply lookup_lt_Some in Hn as Hj.
  rewrite decide_True in Hn' by lia. injection Hn' as <-.
  destruct (Hinv j n Hn) as (Hid & Hps & Hin & Hkn).
  destruct (process_spec n) as (Pid & Pps & Pin & Pkn).
  rewrite Pid, Pin, Pkn, Hin. split_and!; [done..|].
  rewrite decide_True in Hkn by lia.
  change ((λ i, (k, b i)) <$> ?l) with (((λ v, (k, v)) ∘ b) <$> l).
  rewrite list_fmap_compose. by rewrite (vf_appended_fold _ k [b j]).
Qed.

Lemma vf_later_round (N : nat) (k : K) (b : nat → V) net :
  settled N k b net →
  settled N k b (for_each (λ net i, process_at i net) (seq 0 N) net).
Proof.
  intros [Hlen Hinv].
  destruct (vf_process_prefix N net) as [Plen Pl]; [lia|].
  split; [lia|]. intros j n' Hn'.
  assert (∃ n, net !! j = Some n) as [n Hn].
  { apply lookup_lt_is_Some. apply lookup_lt_Some in Hn'. lia. }
  rewrite (Pl j n Hn) in Hn'. apply lookup_lt_Some in Hn as Hj.
  rewrite decide_True in Hn' by lia. injection Hn' as <-.
  destruct (Hinv j n Hn) as (Hid & Hin & Hkn).
  destruct (process_spec n) as (Pid & Pps & Pin & Pkn).
  rewrite Pid, Pin, Pkn, Hin. done.
Qed.

(** After the casts and at least one round every node holds every vote. *)
Lemma vf_demo (N : nat) (k : K) (b : nat → V) (rounds : nat) net :
  at_start N net k → 0 < rounds → settled N k b (demo N net k b rounds).
Proof.
  intros Hst Hr. unfold demo. destruct rounds as [|r]; [lia|]. clear Hr.
  induction r as [|r IH].
  - simpl. apply vf_first_round. by apply vf_casts.
  - change (Nat.iter (S (S r)) ?f ?x) with (f (Nat.iter (S r) f x)).
    by apply vf_later_round.
Qed.

Lemma vf_filter_all (N : nat) : filter (λ i, i ≠ N) (seq 0 N) = seq 0 N.
Proof.
  assert (∀ l : list nat, Forall (λ i, i ≠ N) l → filter (λ i, i ≠ N) l = l) as Hall.
  { intros l Hl. induction Hl as [|x l Hx Hl IH]; [done|].
    by rewrite filter_cons, decide_True, IH by done. }
  apply Hall, Forall_forall. intros i Hi%elem_of_seq. lia.
Qed.

(** The votes a node holds are the votes of all nodes, each once. *)
Lemma vf_ballots_perm (N : nat) (b : nat → V) (j : nat) :
  j < N → ballots N b j ≡ₚ b <$> seq 0 N.
Proof.
  intros Hj. unfold ballots. change (b j :: ?l) with (b <$> (j :: filter (λ i, i ≠ j) (seq 0 N))).
  apply fmap_Permutation. induction N as [|N IH]; [lia|].
  rewrite seq_S, filter_app. simpl. rewrite filter_cons, filter_nil.
  destruct (decide (N ≠ j)) as [Hne|Heq].
  - rewrite app_comm_cons, IH by lia. done.
  - assert (N = j) as <- by lia. rewrite (right_id_L [] (++)), vf_filter_all.
    apply Permutation_cons_append.
Qed.

End VoteFlood.


(** * The run of the even/odd demo *)

Module SimpleRuns.

Import SimpleVersion.

(** [nodes = [Node(i, []) for i in range(N)]] and [node.peers = nodes]. *)
Definition nodes (N : nat) : list Node :=
  (λ i, mkNode i (seq 0 N) [] ∅) <$> seq 0 N.

(** The vote of every node: 1 for an even number, 0 for an odd one. *)
Definition ballot (number : nat) : nat :=
  if bool_decide (number `mod` 2 = 0) then 1 else 0.

(** [self.known_numbers.setdefault(number, []).append(vote)] *)
Definition store (self : Node) (number v : nat) : Node :=
  mkNode (node_id self) (peers self) (inbox self)
    (handle (known_numbers self) (number, v)).

Definition process_at (i : nat) (net : list Node) : list Node :=
  match net !! i with
  | Some self => <[i := process_messages self]> net
  | None => net
  end.

(** [simulate] with [N] nodes and [rounds] rounds of [process_messages]
    (the source has 5 and 3). *)
Definition simulate (N number rounds : nat) : list Node :=
  Nat.iter rounds (λ net, for_each (λ net i, process_at i net) (seq 0 N) net)
    (for_each (λ net i, vote i net number) (seq 0 N) (nodes N)).

Lemma sr_simulate_demo (N number rounds : nat) :
  simulate N number rounds
  = demo node_id peers receive store process_messages N (nodes N) number
      (λ _, ballot number) rounds.
Proof. reflexivity. Qed.

Lemma sr_nodes_at_start (N number : nat) :
  at_start node_id peers inbox known_numbers N (nodes N) number.
Proof.
  unfold nodes. split; [by rewrite length_fmap, length_seq|].
  intros i n. rewrite list_lookup_fmap.
  destruct (seq 0 N !! i) as [j|] eqn:Hj; [|done].
  apply lookup_seq in Hj as [-> _]. by intros [= <-].
Qed.

Lemma sr_count_replicate (N v a : nat) :
  length (filter (λ x, x = a) (replicate N v)) = if decide (v = a) then N else 0.
Proof.
  destruct (decide (v = a)) as [->|Hne]; induction N as [|N IH]; simpl; [done| |done|].
  - rewrite filter_cons, decide_True by done. simpl. by rewrite IH.
  - by rewrite filter_cons, decide_False.
Qed.

Lemma sr_simulate_known (N number rounds i : nat) (n : Node) :
  0 < rounds → simulate N number rounds !! i = Some n →
  inbox n = [] ∧ known_numbers n !! number = Some (replicate N (ballot number)).
Proof.
  intros Hr Hn. rewrite sr_simulate_demo in Hn.
  destruct (vf_demo node_id peers inbox known_numbers receive store process_messages
              (λ _ _, conj eq_refl (conj eq_refl (conj eq_refl eq_refl)))
              (λ _ _ _, conj eq_refl (conj eq_refl (conj eq_refl eq_refl)))
              (λ _, conj eq_refl (conj eq_refl (conj eq_refl eq_refl)))
              N number (λ _, ballot number) rounds (nodes N)
              (sr_nodes_at_start N number) Hr) as [Hlen Hs].
  destruct (Hs i n Hn) as (_ & Hin & Hkn). split; [done|]. rewrite Hkn. f_equal.
  apply lookup_lt_Some in Hn. rewrite Hlen in Hn.
  symmetry. apply replicate_Permutation.
  rewrite (vf_ballots_perm N (λ _, ballot number) i Hn).
  rewrite <-(length_seq N 0) at 1. generalize (seq 0 N). intros l.
  induction l as [|x l IH]; [done|]. csimpl. by rewrite IH.
Qed.

(** X15. The even/odd demo with any number of nodes and at least one round
    of processing: every node ends with an empty inbox and exactly one vote
    of every node, all equal, so every node whose threshold is at most the
    number of nodes answers with the parity of the number, and a node with a
    higher threshold does not answer. *)
Theorem simulate_decides_parity (N number rounds : nat) (threshold : Z)
    (i : nat) (n : Node) :
  0 < rounds → simulate N number rounds !! i = Some n →
  inbox n = []
  ∧ known_numbers n !! number = Some (replicate N (ballot number))
  ∧ check_consensus n number threshold
    = if bool_decide (threshold ≤ Z.of_nat N)%Z
      then Some (if bool_decide (number `mod` 2 = 0) then even else odd)
      else None.
Proof.
  intros Hr Hn. destruct (sr_simulate_known N number rounds i n Hr Hn) as [Hin Hkn].
  split_and!; [done..|].
  assert (0 < N) as HN.
  { apply lookup_lt_Some in Hn. rewrite sr_simulate_demo in Hn.
    destruct (vf_demo node_id peers inbox known_numbers receive store process_messages
                (λ _ _, conj eq_refl (conj eq_refl (conj eq_refl eq_refl)))
                (λ _ _ _, conj eq_refl (conj eq_refl (conj eq_refl eq_refl)))
                (λ _, conj eq_refl (conj eq_refl (conj eq_refl eq_refl)))
                N number (λ _, ballot number) rounds (nodes N)
                (sr_nodes_at_start N number) Hr) as [Hlen _]. lia. }
  unfold check_consensus. rewrite Hkn, length_replicate.
  case_bool_decide; [|done].
  rewrite !sr_count_replicate. unfold ballot.
  destruct (bool_decide (number `mod` 2 = 0)).
  - rewrite decide_False, decide_True by done. by rewrite bool_decide_true by lia.
  - rewrite decide_True, decide_False by done. by rewrite bool_decide_false by lia.
Qed.

Lemma simulate_decides_parity_witness :
  ∃ n, simulate 5 42 3 !! 4 = Some n
       ∧ inbox n = []
       ∧ known_numbers n !! 42 = Some (replicate 5 (ballot 42))
       ∧ check_consensus n 42 3 = Some even.
Proof.
  eexists. split; [by vm_compute|].
  apply (simulate_decides_parity 5 42 3 3 4); [lia|by vm_compute].
Defined.

End SimpleRuns.


(** * The noisy classification demo *)

Module NoisyVote.

(** ['LOW'], ['MEDIUM'], ['HIGH']. *)
Inductive Category := LOW | MEDIUM | HIGH.

#[global] Instance Category_eq_dec : EqDecision Category.
Proof. solve_decision. Defined.

(** A message is [(true_number, vote)]; [known_numbers] maps a number to
    the votes received for it. *)
Record Node := mkNode {
  node_id : nat;
  peers : list nat;
  inbox : list (Z * Category);
  known_numbers : gmap Z (list Category)
}.

Definition receive (self : Node) (m : Z * Category) : Node :=
  mkNode (node_id self) (peers self) (inbox self ++ [m]) (known_numbers self).

Definition gossip (i : nat) (net : list Node) (m : Z * Category) : list Node :=
  gossip_with node_id peers receive i net m.

Definition handle (known : gmap Z (list Category)) (m : Z * Category)
  : gmap Z (list Category) :=
  <[m.1 := default [] (known !! m.1) ++ [m.2]]> known.

Definition process_messages (self : Node) : Node :=
  mkNode (node_id self) (peers self) []
    (for_each handle (inbox self) (known_numbers self)).

(** The classification in [vote]: up to 33 LOW, up to 66 MEDIUM, above
    HIGH. *)
Definition classify (noisy_number : Z) : Category :=
  if bool_decide (noisy_number ≤ 33)%Z then LOW
  else if bool_decide (noisy_number ≤ 66)%Z then MEDIUM
  else HIGH.

Definition store (self : Node) (number : Z) (v : Category) : Node :=
  mkNode (node_id self) (peers self) (inbox self)
    (handle (known_numbers self) (number, v)).

(** [vote(true_number)]; [noise] is what [random.randint(-3, 3)] returns. *)
Definition vote (i : nat) (net : list Node) (true_number noise : Z) : list Node :=
  match net !! i with
  | None => net
  | Some self =>
      let noisy_number := (true_number + noise)%Z in
      let v := classify noisy_number in
      gossip i (<[i := store self true_number v]> net) (true_number, v)
  end.

(** What [check_consensus] does: no answer, a category, or the
    [ValueError] of [max] on an empty dictionary. *)
Inductive Outcome := NoAnswer | Answer (c : Category) | ValueError.

Definition votes_count (votes : list Category) (c : Category) : nat :=
  length (filter (λ v, v = c) votes).

(** [max(counts, key=counts.get)]: the first key, in the order [keys] in
    which [set(votes)] is gone through, that has the most votes. *)
Definition majority (keys votes : list Category) : option Category :=
  foldl (λ best c,
           match best with
           | None => Some c
           | Some b => if bool_decide (votes_count votes b < votes_count votes c)
                       then Some c else Some b
           end) None keys.

Definition check_consensus (keys : list Category) (self : Node) (number threshold : Z)
  : Outcome :=
  match known_numbers self !! number with
  | None => NoAnswer
  | Some votes =>
      if bool_decide (threshold ≤ Z.of_nat (length votes))%Z
      then match majority keys votes with
           | Some c => Answer c
           | None => ValueError
           end
      else NoAnswer
  end.

(** [keys] lists the elements of [set(votes)], each once, in some order. *)
Definition keys_of (votes keys : list Category) : Prop :=
  NoDup keys ∧ ∀ c, c ∈ keys ↔ c ∈ votes.

Definition nodes (N : nat) : list Node :=
  (λ i, mkNode i (seq 0 N) [] ∅) <$> seq 0 N.

Definition process_at (i : nat) (net : list Node) : list Node :=
  match net !! i with
  | Some self => <[i := process_messages self]> net
  | None => net
  end.

(** [simulate]: [noise i] is the noise the node at position [i] draws. *)
Definition simulate (N : nat) (true_number : Z) (noise : nat → Z) (rounds : nat)
  : list Node :=
  Nat.iter rounds (λ net, for_each (λ net i, process_at i net) (seq 0 N) net)
    (for_each (λ net i, vote i net true_number (noise i)) (seq 0 N) (nodes N)).

(** The vote of the node at position [i]. *)
Definition vote_of (true_number : Z) (noise : nat → Z) (i : nat) : Category :=
  classify (true_number + noise i).

Lemma nv_simulate_demo (N : nat) (t : Z) (noise : nat → Z) (rounds : nat) :
  simulate N t noise rounds
  = demo node_id peers receive store process_messages N (nodes N) t
      (vote_of t noise) rounds.
Proof. reflexivity. Qed.

Lemma nv_nodes_at_start (N : nat) (t : Z) :
  at_start node_id peers inbox known_numbers N (nodes N) t.
Proof.
  unfold nodes. split; [by rewrite length_fmap, length_seq|].
  intros i n. rewrite list_lookup_fmap.
  destruct (seq 0 N !! i) as [j|] eqn:Hj; [|done].
  apply lookup_seq in Hj as [-> _]. by intros [= <-].
Qed.

Lemma nv_simulate_settled (N : nat) (t : Z) (noise : nat → Z) (rounds : nat) :
  0 < rounds →
  settled node_id inbox known_numbers N t (vote_of t noise) (simulate N t noise rounds).
Proof.
  intros Hr. rewrite nv_simulate_demo.
  apply (vf_demo node_id peers inbox known_numbers receive store process_messages
           (λ _ _, conj eq_refl (conj eq_refl (conj eq_refl eq_refl)))
           (λ _ _ _, conj eq_refl (conj eq_refl (conj eq_refl eq_refl)))
           (λ _, conj eq_refl (conj eq_refl (conj eq_refl eq_refl)))
           N t (vote_of t noise) rounds (nodes N) (nv_nodes_at_start N t) Hr).
Qed.

(** X16. The noise of at most 3 either way never changes the category of a
    number exactly when the number is not within 3 of a boundary, that is
    not in 31..36 and not in 64..69. *)
Theorem classification_tolerates_noise (n : Z) :
  (∀ d, (-3 ≤ d ≤ 3)%Z → classify (n + d) = classify n)
  ↔ ¬ (31 ≤ n ≤ 36)%Z ∧ ¬ (64 ≤ n ≤ 69)%Z.
Proof.
  split.
  - intros Hd.
    pose proof (Hd 3%Z ltac:(lia)) as Hup. pose proof (Hd (-3)%Z ltac:(lia)) as Hdown.
    unfold classify in Hup, Hdown. repeat case_bool_decide; try done; lia.
  - intros [H1 H2] d Hd. unfold classify. repeat case_bool_decide; try done; lia.
Qed.

(** X17. After the votes and at least one round of processing every node
    has an empty inbox and holds its own vote followed by the votes of the
    others in the order of voting: the votes of all nodes, each once. *)
Theorem noisy_votes_reach_everyone (N : nat) (t : Z) (noise : nat → Z)
    (rounds i : nat) (n : Node) :
  0 < rounds → simulate N t noise rounds !! i = Some n →
  inbox n = []
  ∧ known_numbers n !! t
    = Some (vote_of t noise i
            :: (vote_of t noise <$> filter (λ j, j ≠ i) (seq 0 N)))
  ∧ ∀ votes, known_numbers n !! t = Some votes →
             votes ≡ₚ vote_of t noise <$> seq 0 N.
Proof.
  intros Hr Hn. destruct (nv_simulate_settled N t noise rounds Hr) as [Hlen Hs].
  destruct (Hs i n Hn) as (_ & Hin & Hkn). split_and!; [done..|].
  intros votes. rewrite Hkn. intros [= <-].
  apply vf_ballots_perm. apply lookup_lt_Some in Hn. lia.
Qed.

(** X18. If the true number is not within 3 of a boundary and every node
    draws a noise of at most 3 either way, then after the votes and at least
    one round every node whose threshold is at most the number of nodes
    answers with the category of the true number, in whatever order the set
    of its votes is gone through; a node with a higher threshold does not
    answer. *)
Theorem noisy_demo_agrees (N : nat) (t : Z) (noise : nat → Z) (rounds i : nat)
    (n : Node) (votes keys : list Category) (threshold : Z) :
  0 < rounds →
  ¬ (31 ≤ t ≤ 36)%Z → ¬ (64 ≤ t ≤ 69)%Z →
  (∀ j, j < N → (-3 ≤ noise j ≤ 3)%Z) →
  simulate N t noise rounds !! i = Some n →
  known_numbers n !! t = Some votes →
  keys_of votes keys →
  votes = replicate N (classify t)
  ∧ check_consensus keys n t threshold
    = if bool_decide (threshold ≤ Z.of_nat N)%Z then Answer (classify t) else NoAnswer.
Proof.
  intros Hr Hb1 Hb2 Hnoise Hn Hkn [Hnd Hkeys].
  destruct (nv_simulate_settled N t noise rounds Hr) as [Hlen Hs].
  destruct (Hs i n Hn) as (_ & _ & Hkn').
  apply lookup_lt_Some in Hn as Hi. rewrite Hlen in Hi.
  assert (votes = replicate N (classify t)) as ->.
  { rewrite Hkn in Hkn'. injection Hkn' as ->.
    symmetry. apply replicate_Permutation.
    rewrite (vf_ballots_perm N (vote_of t noise) i Hi).
    assert (∀ l, Forall (λ j, j < N) l →
                 replicate (length l) (classify t) = vote_of t noise <$> l) as Hall.
    { intros l Hl. induction Hl as [|j l Hj Hl IH]; [done|]. csimpl.
      rewrite IH. f_equal. unfold vote_of. symmetry.
      unfold classify. specialize (Hnoise j Hj).
      repeat case_bool_decide; try done; lia. }
    rewrite <-Hall.
    - by rewrite length_seq.
    - apply Forall_forall. intros j Hj%elem_of_seq. lia. }
  split; [done|].
  unfold check_consensus. rewrite Hkn, length_replicate.
  case_bool_decide; [|done].
  assert (keys = [classify t]) as ->.
  { assert (∀ c, c ∈ keys ↔ c = classify t) as Hone.
    { intros c. rewrite Hkeys, elem_of_replicate. split; [tauto|]. intros ->.
      split; [done|lia]. }
    destruct keys as [|c1 [|c2 ks]].
    - assert (classify t ∈ ([] : list Category)) as Hin by (by apply Hone).
      by apply elem_of_nil in Hin.
    - f_equal. apply Hone. by left.
    - assert (c1 = classify t) as -> by (apply Hone; by left).
      assert (c2 = classify t) as -> by (apply Hone; right; by left).
      apply NoDup_cons in Hnd as [Hnin _]. exfalso. apply Hnin. by left. }
  done.
Qed.

Lemma noisy_votes_reach_everyone_witness :
  ∃ n, simulate 4 42 (λ i, Z.of_nat i - 2)%Z 1 !! 1 = Some n
       ∧ inbox n = []
       ∧ known_numbers n !! 42%Z = Some [MEDIUM; MEDIUM; MEDIUM; MEDIUM].
Proof.
  eexists. split; [by vm_compute|].
  destruct (noisy_votes_reach_everyone 4 42 (λ i, Z.of_nat i - 2)%Z 1 1 _
              ltac:(lia) ltac:(by vm_compute)) as (Hin & Hkn & _).
  split; [exact Hin|exact Hkn].
Defined.

Lemma noisy_demo_agrees_witness :
  ∃ n, simulate 4 42 (λ i, Z.of_nat i - 2)%Z 1 !! 1 = Some n
       ∧ check_consensus [MEDIUM] n 42 3 = Answer MEDIUM.
Proof.
  eexists. split; [by vm_compute|].
  refine (proj2 (noisy_demo_agrees 4 42 (λ i, Z.of_nat i - 2)%Z 1 1 _
                   (replicate 4 MEDIUM) [MEDIUM] 3 _ _ _ _ _ _ _)).
  - lia.
  - lia.
  - lia.
  - intros j Hj. lia.
  - by vm_compute.
  - by vm_compute.
  - split; [apply NoDup_singleton|]. intros c.
    rewrite list_elem_of_singleton, elem_of_replicate. split; [by intros ->|tauto].
Defined.

End NoisyVote.


(** * The temperature demo *)

Module Temperature.

(** A message is [(reading_id, value)]; a faulty node reports 20 degrees too
    much. *)
Record Node := mkNode {
  node_id : nat;
  peers : list nat;
  inbox : list (string * Z);
  known_measurements : gmap string (list Z);
  faulty : bool
}.

Definition receive (self : Node) (m : string * Z) : Node :=
  mkNode (node_id self) (peers self) (inbox self ++ [m]) (known_measurements self)
    (faulty self).

Definition gossip (i : nat) (net : list Node) (m : string * Z) : list Node :=
  gossip_with node_id peers receive i net m.

Definition handle (known : gmap string (list Z)) (m : string * Z)
  : gmap string (list Z) :=
  <[m.1 := default [] (known !! m.1) ++ [m.2]]> known.

Definition process_messages (self : Node) : Node :=
  mkNode (node_id self) (peers self) []
    (for_each handle (inbox self) (known_measurements self)) (faulty self).

Definition store (self : Node) (reading_id : string) (v : Z) : Node :=
  mkNode (node_id self) (peers self) (inbox self)
    (handle (known_measurements self) (reading_id, v)) (faulty self).

(** The value a node measures; [noise] is what [random.randint(-3, 3)]
    returns (it is drawn only by a node that is not faulty). *)
Definition noisy_temp (self : Node) (true_temp noise : Z) : Z :=
  if faulty self then (true_temp + 20)%Z else (true_temp + noise)%Z.

(** [measure(reading_id, true_temp)] *)
Definition measure (i : nat) (net : list Node) (reading_id : string)
    (true_temp noise : Z) : list Node :=
  match net !! i with
  | None => net
  | Some self =>
      let v := noisy_temp self true_temp noise in
      gossip i (<[i := store self reading_id v]> net) (reading_id, v)
  end.

(** The float of an int, exact below [2^53] in absolute value (see
    [py_truediv]). *)
Definition float_of_int (z : Z) : float :=
  if bool_decide (z < 0)%Z
  then PrimFloat.opp (float_of_nat (Z.to_nat (- z)))
  else float_of_nat (Z.to_nat z).

Definition sum (values : list Z) : Z := foldr Z.add 0%Z values.

(** What [check_consensus] does: no answer, one of the two texts (each
    determined by the average it shows), or the [ZeroDivisionError] of the
    average of no values. *)
Inductive Outcome :=
  | NoAnswer
  | HEAT_ALERT (avg_temp : float)
  | OK (avg_temp : float)
  | ZeroDivisionError.

Definition check_consensus (self : Node) (reading_id : string) (threshold : Z)
  : Outcome :=
  match known_measurements self !! reading_id with
  | None => NoAnswer
  | Some values =>
      if bool_decide (threshold ≤ Z.of_nat (length values))%Z
      then
        if bool_decide (length values = 0) then ZeroDivisionError
        else
          let avg_temp :=
            PrimFloat.div (float_of_int (sum values)) (float_of_nat (length values)) in
          if PrimFloat.leb 30 avg_temp then HEAT_ALERT avg_temp else OK avg_temp
      else NoAnswer
  end.

(** [nodes.append(Node(i, [], faulty=...))] and [node.peers = nodes];
    [flags i] tells whether node [i] is faulty. *)
Definition nodes (N : nat) (flags : nat → bool) : list Node :=
  (λ i, mkNode i (seq 0 N) [] ∅ (flags i)) <$> seq 0 N.

Definition process_at (i : nat) (net : list Node) : list Node :=
  match net !! i with
  | Some self => <[i := process_messages self]> net
  | None => net
  end.

(** [simulate]: [noise i] is the noise the node at position [i] draws. *)
Definition simulate (N : nat) (flags : nat → bool) (reading_id : string)
    (true_temp : Z) (noise : nat → Z) (rounds : nat) : list Node :=
  Nat.iter rounds (λ net, for_each (λ net i, process_at i net) (seq 0 N) net)
    (for_each (λ net i, measure i net reading_id true_temp (noise i)) (seq 0 N)
       (nodes N flags)).

(** The value the node at position [i] reports. *)
Definition reading (flags : nat → bool) (true_temp : Z) (noise : nat → Z) (i : nat) : Z :=
  if flags i then (true_temp + 20)%Z else (true_temp + noise i)%Z.

Lemma tp_receives_faulty (ms : list (string * Z)) n :
  faulty (foldl receive n ms) = faulty n.
Proof. revert n. induction ms as [|m ms IH]; intros n; [done|]. simpl. by rewrite IH. Qed.

(** Measuring goes by the flag the node was made with. *)
Lemma tp_measures (N : nat) flags rid t noise (c : nat) :
  for_each (λ net i, measure i net rid t (noise i)) (seq 0 c) (nodes N flags)
  = for_each (λ net i, cast node_id peers receive store i net rid (reading flags t noise i))
      (seq 0 c) (nodes N flags)
  ∧ ∀ j n, for_each (λ net i, measure i net rid t (noise i)) (seq 0 c) (nodes N flags)
           !! j = Some n → faulty n = flags j.
Proof.
  induction c as [|c [IH1 IH2]].
  - split; [done|]. intros j n. unfold nodes. simpl. rewrite list_lookup_fmap.
    destruct (seq 0 N !! j) as [j'|] eqn:Hj; [|done].
    apply lookup_seq in Hj as [-> _]. by intros [= <-].
  - rewrite seq_S. unfold for_each in *. rewrite !foldl_app. simpl.
    rewrite <-IH1.
    set (net := foldl (λ net i, measure i net rid t (noise i)) (nodes N flags) (seq 0 c)) in *.
    assert (measure c net rid t (noise c)
            = cast node_id peers receive store c net rid (reading flags t noise c)) as Heq.
    { unfold measure, cast. destruct (net !! c) as [self|] eqn:Hself; [|done].
      unfold noisy_temp, reading. by rewrite (IH2 c self Hself). }
    split; [done|].
    intros j n. unfold measure. destruct (net !! c) as [self|] eqn:Hself; [|apply IH2].
    simpl. intros Hn.
    assert (∃ o, <[c := store self rid (noisy_temp self t (noise c))]> net !! j = Some o)
      as [o Ho].
    { apply lookup_lt_is_Some. apply lookup_lt_Some in Hn.
      unfold gossip in Hn. by rewrite gossip_length in Hn. }
    destruct (gossip_lookup node_id peers receive c _ (rid, noisy_temp self t (noise c))
                j o Ho) as (ms & Hl & _).
    unfold gossip in Hn. rewrite Hn in Hl. injection Hl as ->.
    rewrite tp_receives_faulty.
    destruct (decide (j = c)) as [->|Hjc].
    + rewrite list_lookup_insert_eq in Ho by (by eapply lookup_lt_Some).
      injection Ho as <-. simpl. by apply IH2.
    + rewrite list_lookup_insert_ne in Ho by done. by apply IH2.
Qed.

Lemma tp_simulate_demo (N : nat) flags rid t noise rounds :
  simulate N flags rid t noise rounds
  = demo node_id peers receive store process_messages N (nodes N flags) rid
      (reading flags t noise) rounds.
Proof. unfold simulate, demo. by rewrite (proj1 (tp_measures N flags rid t noise N)). Qed.

Lemma tp_nodes_at_start (N : nat) flags rid :
  at_start node_id peers inbox known_measurements N (nodes N flags) rid.
Proof.
  unfold nodes. split; [by rewrite length_fmap, length_seq|].
  intros i n. rewrite list_lookup_fmap.
  destruct (seq 0 N !! i) as [j|] eqn:Hj; [|done].
  apply lookup_seq in Hj as [-> _]. by intros [= <-].
Qed.

Lemma tp_simulate_settled (N : nat) flags rid t noise rounds :
  0 < rounds →
  settled node_id inbox known_measurements N rid (reading flags t noise)
    (simulate N flags rid t noise rounds).
Proof.
  intros Hr. rewrite tp_simulate_demo.
  apply (vf_demo node_id peers inbox known_measurements receive store process_messages
           (λ _ _, conj eq_refl (conj eq_refl (conj eq_refl eq_refl)))
           (λ _ _ _, conj eq_refl (conj eq_refl (conj eq_refl eq_refl)))
           (λ _, conj eq_refl (conj eq_refl (conj eq_refl eq_refl)))
           N rid (reading flags t noise) rounds (nodes N flags)
           (tp_nodes_at_start N flags rid) Hr).
Qed.

Lemma tp_sum_perm (l l' : list Z) : l ≡ₚ l' → sum l = sum l'.
Proof.
  unfold sum. induction 1 as [|x l l' _ IH|x y l|l l' l'' _ IH1 _ IH2]; simpl; lia.
Qed.

(** X19. After the measurements and at least one round of processing every
    node holds the readings of all nodes, each once; so all nodes compute the
    same sum over the same number of values and give the same answer, and a
    node answers exactly when its threshold is at most the number of nodes. *)
Theorem temperature_nodes_agree (N : nat) (flags : nat → bool) (rid : string)
    (t : Z) (noise : nat → Z) (rounds i j : nat) (n n' : Node) (threshold : Z) :
  0 < rounds →
  simulate N flags rid t noise rounds !! i = Some n →
  simulate N flags rid t noise rounds !! j = Some n' →
  (∃ values, known_measurements n !! rid = Some values
             ∧ values ≡ₚ reading flags t noise <$> seq 0 N
             ∧ sum values = sum (reading flags t noise <$> seq 0 N))
  ∧ check_consensus n rid threshold = check_consensus n' rid threshold
  ∧ (check_consensus n rid threshold = NoAnswer ↔ (Z.of_nat N < threshold)%Z).
Proof.
  intros Hr Hn Hn'.
  destruct (tp_simulate_settled N flags rid t noise rounds Hr) as [Hlen Hs].
  destruct (Hs i n Hn) as (_ & _ & Hkn). destruct (Hs j n' Hn') as (_ & _ & Hkn').
  apply lookup_lt_Some in Hn as Hi. apply lookup_lt_Some in Hn' as Hj.
  rewrite Hlen in Hi, Hj.
  pose proof (vf_ballots_perm N (reading flags t noise) i Hi) as Hp.
  pose proof (vf_ballots_perm N (reading flags t noise) j Hj) as Hp'.
  split_and!.
  - eexists. split; [done|]. split; [done|]. by apply tp_sum_perm.
  - unfold check_consensus. rewrite Hkn, Hkn'.
    rewrite (tp_sum_perm _ _ Hp), (tp_sum_perm _ _ Hp').
    by rewrite (Permutation_length Hp), (Permutation_length Hp').
  - unfold check_consensus. rewrite Hkn.
    rewrite (Permutation_length Hp), length_fmap, length_seq.
    case_bool_decide as Ht.
    + rewrite bool_decide_false by lia. split; [|lia].
      by destruct (PrimFloat.leb _ _).
    + split; [lia|done].
Qed.

Lemma temperature_nodes_agree_witness :
  ∃ n n',
    simulate 3 (λ i, bool_decide (i `mod` 7 = 0)) "temp_001" 28 (λ _, 1%Z) 1 !! 0 = Some n
    ∧ simulate 3 (λ i, bool_decide (i `mod` 7 = 0)) "temp_001" 28 (λ _, 1%Z) 1 !! 2
      = Some n'
    ∧ check_consensus n "temp_001" 3 = check_consensus n' "temp_001" 3.
Proof.
  eexists _, _. split; [by vm_compute|]. split; [by vm_compute|].
  apply (temperature_nodes_agree 3 (λ i, bool_decide (i `mod` 7 = 0)) "temp_001" 28
           (λ _, 1%Z) 1 0 2 _ _ 3 ltac:(lia)); by vm_compute.
Defined.

End Temperature.


(** * The word search with the shared [seen_queries] set

    The second search program keeps one set, [seen_queries], for the query
    terms a node has handled (strings) and for the results it has tallied
    (pairs of term and sender), and one number per term in [results]. *)

Module WordTest.

(** The Python values that meet in [seen_queries] and in the test
    [message not in peer.seen_queries]: strings, ints and tuples of two or
    three values. *)
Inductive Py :=
  | PStr (s : string)
  | PInt (n : nat)
  | PPair (a b : Py)
  | PTriple (a b c : Py).

#[global] Instance Py_eq_dec : EqDecision Py.
Proof. solve_decision. Defined.

(** [("QUERY", query_term)] and [("RESULT", (query_term, sender_id, count))]. *)
Inductive Message :=
  | QUERY (query_term : string)
  | RESULT (query_term : string) (sender_id count : nat).

(** The tuple that a message is. *)
Definition py_of (m : Message) : Py :=
  match m with
  | QUERY t => PPair (PStr "QUERY") (PStr t)
  | RESULT t s c => PPair (PStr "RESULT") (PTriple (PStr t) (PInt s) (PInt c))
  end.

(** [seen_queries] is used through [add] and [in] only; it is kept as the
    list of what was added, latest first. *)
Record Node := mkNode {
  node_id : nat;
  peers : list nat;
  inbox : list Message;
  seen_queries : list Py;
  results : gmap string nat;
  faulty : bool;
  local_doc : list string
}.

Definition set_inbox (n : Node) (q : list Message) : Node :=
  mkNode (node_id n) (peers n) q (seen_queries n) (results n) (faulty n) (local_doc n).

Definition receive (self : Node) (m : Message) : Node :=
  set_inbox self (inbox self ++ [m]).

(** [gossip]: a peer with another id gets the message unless the message
    is in the peer's [seen_queries]. *)
Definition gossip (i : nat) (net : list Node) (m : Message) : list Node :=
  match net !! i with
  | None => net
  | Some self =>
      for_each (λ (net : list Node) (p : nat),
                  match net !! p with
                  | Some peer =>
                      if decide (node_id peer ≠ node_id self)
                      then if decide (py_of m ∈ seen_queries peer) then net
                           else <[p := receive peer m]> net
                      else net
                  | None => net
                  end) (peers self) net
  end.

(** [self.local_doc.count(query_term)], plus 3 on a faulty node. *)
Definition count_of (self : Node) (query_term : string) : nat :=
  let count := length (filter (λ w, w = query_term) (local_doc self)) in
  if faulty self then count + 3 else count.

(** The body of the loop of [process_messages]: the node and [outbox]. *)
Definition handle (st : Node * list Message) (m : Message) : Node * list Message :=
  let self := st.1 in
  match m with
  | QUERY t =>
      if decide (PStr t ∈ seen_queries self) then st
      else
        let count := count_of self t in
        (mkNode (node_id self) (peers self) (inbox self)
           (PStr t :: seen_queries self) (<[t := count]> (results self))
           (faulty self) (local_doc self),
         st.2 ++ [RESULT t (node_id self) count; QUERY t])
  | RESULT t s c =>
      if decide (PPair (PStr t) (PInt s) ∈ seen_queries self) then st
      else
        (mkNode (node_id self) (peers self) (inbox self)
           (PPair (PStr t) (PInt s) :: seen_queries self)
           (<[t := default 0 (results self !! t) + c]> (results self))
           (faulty self) (local_doc self),
         st.2 ++ [RESULT t s c])
  end.

(** [process_messages]: the inbox is emptied, then the outbox is
    gossiped. *)
Definition process_messages (i : nat) (net : list Node) : list Node :=
  match net !! i with
  | None => net
  | Some self =>
      let st := for_each handle (inbox self) (set_inbox self [], []) in
      for_each (gossip i) st.2 (<[i := st.1]> net)
  end.

Inductive Op :=
  | Process (i : nat)
  | Deliver (i : nat) (m : Message).

Definition step (net : list Node) (op : Op) : list Node :=
  match op with
  | Process i => process_messages i net
  | Deliver i m =>
      match net !! i with
      | Some self => <[i := receive self m]> net
      | None => net
      end
  end.

Definition run (ops : list Op) (net : list Node) : list Node := for_each step ops net.

(** [Node(i, [], faulty)], [node.peers = nodes] and [node.set_doc(doc)]. *)
Definition nodes (N : nat) (flags : nat → bool) (docs : nat → list string) : list Node :=
  (λ i, mkNode i (seq 0 N) [] [] ∅ (flags i) (docs i)) <$> seq 0 N.

(** [simulate]: the query is put into the inbox of node 0, then [steps]
    times every node in turn runs [process_messages]. *)
Definition simulate_ops (N : nat) (query_term : string) (steps : nat) : list Op :=
  Deliver 0 (QUERY query_term) :: mjoin (replicate steps (Process <$> seq 0 N)).

Definition simulate (N : nat) (flags : nat → bool) (docs : nat → list string)
    (query_term : string) (steps : nat) : list Node :=
  run (simulate_ops N query_term steps) (nodes N flags docs).

(** ** The test in [gossip] *)

(** What [process_messages] adds to [seen_queries]: a term, or a pair of a
    term and a sender id. *)
Definition typed (n : Node) : Prop :=
  ∀ x, x ∈ seen_queries n →
       (∃ t, x = PStr t) ∨ (∃ t s, x = PPair (PStr t) (PInt s)).

Lemma wt_typed_not_message n m : typed n → py_of m ∉ seen_queries n.
Proof.
  intros Ht Hin. destruct (Ht _ Hin) as [[t Hx]|(t & s & Hx)]; by destruct m.
Qed.

Lemma wt_receives_fields (ms : list Message) n :
  foldl receive n ms = set_inbox n (inbox n ++ ms).
Proof.
  revert n. induction ms as [|m ms IH]; intros n; simpl.
  - rewrite (right_id_L [] (++)). by destruct n.
  - rewrite IH. unfold receive. simpl. by rewrite <-(assoc_L (++)).
Qed.

(** With every [seen_queries] typed, the loop of [gossip] is the loop
    without the test. *)
Lemma wt_gossip_plain i net m :
  Forall typed net → gossip i net m = gossip_with node_id peers receive i net m.
Proof.
  intros Hty. unfold gossip, gossip_with. destruct (net !! i) as [self|]; [|done].
  generalize (peers self). intros ps. revert net Hty.
  induction ps as [|p ps IH]; intros net Hty; [done|].
  unfold for_each in *. simpl.
  destruct (net !! p) as [peer|] eqn:Hp; [|by apply IH].
  destruct (decide (node_id peer ≠ node_id self)); [|by apply IH].
  rewrite decide_False.
  - apply IH. apply Forall_insert; [done|].
    intros x Hx. by apply (proj1 (Forall_lookup _ _) Hty p peer Hp).
  - apply wt_typed_not_message. by apply (proj1 (Forall_lookup _ _) Hty p peer Hp).
Qed.

Lemma wt_handle_typed st m : typed st.1 → typed (handle st m).1.
Proof.
  intros Ht. destruct st as [n out]. destruct m as [t|t s c]; simpl.
  - destruct (decide (PStr t ∈ seen_queries n)); [done|].
    intros x [->|Hx]%elem_of_cons; [left; by exists t|by apply Ht].
  - destruct (decide (PPair (PStr t) (PInt s) ∈ seen_queries n)); [done|].
    intros x [->|Hx]%elem_of_cons; [right; by exists t, s|by apply Ht].
Qed.

Lemma wt_handles_typed (l : list Message) st :
  typed st.1 → typed (for_each handle l st).1.
Proof.
  revert st. induction l as [|m l IH]; intros st Ht; [done|].
  apply IH. by apply wt_handle_typed.
Qed.

Lemma wt_gossip_typed i net m : Forall typed net → Forall typed (gossip i net m).
Proof.
  intros Hty. unfold gossip. destruct (net !! i) as [self|]; [|done].
  generalize (peers self). intros ps. revert net Hty.
  induction ps as [|p ps IH]; intros net Hty; [done|].
  unfold for_each in *. simpl.
  destruct (net !! p) as [peer|] eqn:Hp; [|by apply IH].
  destruct (decide (node_id peer ≠ node_id self)); [|by apply IH].
  destruct (decide (py_of m ∈ seen_queries peer)); [by apply IH|].
  apply IH. apply Forall_insert; [done|].
  intros x Hx. by apply (proj1 (Forall_lookup _ _) Hty p peer Hp).
Qed.

Lemma wt_gossips_typed i (out : list Message) net :
  Forall typed net → Forall typed (for_each (gossip i) out net).
Proof.
  revert net. induction out as [|m out IH]; intros net Hty; [done|].
  apply IH. by apply wt_gossip_typed.
Qed.

Lemma wt_step_typed net op : Forall typed net → Forall typed (step net op).
Proof.
  intros Hty. destruct op as [i|i m]; simpl.
  - unfold process_messages. destruct (net !! i) as [self|] eqn:Hself; [|done].
    apply wt_gossips_typed. apply Forall_insert; [done|].
    apply wt_handles_typed. intros x Hx.
    by apply (proj1 (Forall_lookup _ _) Hty i self Hself).
  - destruct (net !! i) as [self|] eqn:Hself; [|done].
    apply Forall_insert; [done|]. intros x Hx.
    by apply (proj1 (Forall_lookup _ _) Hty i self Hself).
Qed.

Lemma wt_run_typed (ops : list Op) net : Forall typed net → Forall typed (run ops net).
Proof.
  revert net. induction ops as [|op ops IH]; intros net Hty; [done|].
  apply IH. by apply wt_step_typed.
Qed.

(** X20. The test [message not in peer.seen_queries] in [gossip] never
    holds a message back: in every run from nodes whose [seen_queries] is
    empty, whatever messages are put into the inboxes, [gossip] hands the
    message to every peer with another id, as the [gossip] without the test
    does.  (A message is a tuple that starts with ["QUERY"] or ["RESULT"];
    the set holds terms and (term, sender) pairs.) *)
Theorem seen_test_never_blocks (net0 : list Node) (ops : list Op) (i : nat) (m : Message) :
  Forall (λ n, seen_queries n = []) net0 →
  gossip i (run ops net0) m = gossip_with node_id peers receive i (run ops net0) m.
Proof.
  intros Hf. apply wt_gossip_plain, wt_run_typed.
  eapply Forall_impl; [exact Hf|]. intros n Hn x. rewrite Hn. by intros ?%elem_of_nil.
Qed.

(** ** What one call of [process_messages] does to the network *)

(** Every node but the one at position [a] gets the messages [out]. *)
Definition deliver_all (a : nat) (out : list Message) (net : list Node) : list Node :=
  imap (λ p n, if decide (p = a) then n else set_inbox n (inbox n ++ out)) net.

(** The nodes as [simulate] connects them. *)
Definition mesh (net : list Node) : Prop :=
  ∀ i n, net !! i = Some n → node_id n = i ∧ peers n = seq 0 (length net).

Lemma wt_gossips_plain i (out : list Message) net :
  Forall typed net →
  for_each (gossip i) out net
  = for_each (gossip_with node_id peers receive i) out net.
Proof.
  revert net. induction out as [|m out IH]; intros net Hty; [done|].
  unfold for_each in *. simpl. rewrite <-(wt_gossip_plain i net m Hty).
  apply IH. by apply wt_gossip_typed.
Qed.

Lemma wt_bind_once (out : list Message) : out ≫= replicate 1 = out.
Proof. induction out as [|m out IH]; [done|]. csimpl. f_equal. exact IH. Qed.

Lemma wt_deliver_lookup a out net p :
  deliver_all a out net !! p
  = (λ n, if decide (p = a) then n else set_inbox n (inbox n ++ out)) <$> net !! p.
Proof. unfold deliver_all. by rewrite list_lookup_imap. Qed.

(** The outbox [out] gossiped by the node [s] at position [a]. *)
Lemma wt_gossips_shape a (s : Node) (out : list Message) net :
  mesh net → Forall typed net → typed s →
  a < length net → node_id s = a → peers s = seq 0 (length net) →
  for_each (gossip a) out (<[a := s]> net) = <[a := s]> (deliver_all a out net).
Proof.
  intros Hmesh Hty Hs Ha Hid Hps.
  rewrite wt_gossips_plain by (by apply Forall_insert).
  assert (<[a := s]> net !! a = Some s) as Hsa by (by apply list_lookup_insert_eq).
  apply list_eq. intros p. destruct (decide (p = a)) as [->|Hpa].
  - rewrite (proj2 (gossips_exact node_id peers receive (λ _ _, eq_refl) a out
                      _ s a s Hsa Hsa)).
    rewrite list_lookup_insert_eq; [done|].
    unfold deliver_all. by rewrite length_imap.
  - rewrite list_lookup_insert_ne, wt_deliver_lookup by done.
    destruct (net !! p) as [n|] eqn:Hn.
    + assert (<[a := s]> net !! p = Some n) as Hn' by (by rewrite list_lookup_insert_ne).
      rewrite (proj1 (gossips_exact node_id peers receive (λ _ _, eq_refl) a out
                        _ s p n Hsa Hn')).
      simpl. rewrite decide_False by done. f_equal.
      unfold copies. destruct (Hmesh p n Hn) as [Hidp _].
      rewrite decide_True by congruence.
      rewrite Hps, vf_filter_eq_seq, decide_True by (by eapply lookup_lt_Some).
      by rewrite wt_bind_once, wt_receives_fields.
    + apply lookup_ge_None. apply lookup_ge_None in Hn.
      by rewrite gossips_length, length_insert.
Qed.

Lemma wt_handle_fields st m :
  node_id (handle st m).1 = node_id st.1
  ∧ peers (handle st m).1 = peers st.1
  ∧ inbox (handle st m).1 = inbox st.1
  ∧ faulty (handle st m).1 = faulty st.1
  ∧ local_doc (handle st m).1 = local_doc st.1.
Proof.
  destruct st as [n out]. destruct m as [t|t s c]; simpl.
  - by destruct (decide (PStr t ∈ seen_queries n)).
  - by destruct (decide (PPair (PStr t) (PInt s) ∈ seen_queries n)).
Qed.

Lemma wt_handles_fields (l : list Message) st :
  node_id (for_each handle l st).1 = node_id st.1
  ∧ peers (for_each handle l st).1 = peers st.1
  ∧ inbox (for_each handle l st).1 = inbox st.1
  ∧ faulty (for_each handle l st).1 = faulty st.1
  ∧ local_doc (for_each handle l st).1 = local_doc st.1.
Proof.
  revert st. induction l as [|m l IH]; intros st; [done|].
  unfold for_each in *. simpl.
  destruct (IH (handle st m)) as (-> & -> & -> & -> & ->).
  apply wt_handle_fields.
Qed.

(** [process_messages] as one update of the network. *)
Lemma wt_process_shape a net self :
  mesh net → Forall typed net → net !! a = Some self →
  process_messages a net
  = <[a := (for_each handle (inbox self) (set_inbox self [], [])).1]>
      (deliver_all a (for_each handle (inbox self) (set_inbox self [], [])).2 net).
Proof.
  intros Hmesh Hty Hself. unfold process_messages. rewrite Hself.
  destruct (Hmesh a self Hself) as [Hid Hps].
  destruct (wt_handles_fields (inbox self) (set_inbox self [], []))
    as (Fid & Fps & _).
  apply wt_gossips_shape; [done|done| |by eapply lookup_lt_Some|by rewrite Fid|by rewrite Fps].
  apply wt_handles_typed. exact (proj1 (Forall_lookup _ _) Hty a self Hself).
Qed.

(** One turn of the loop, with what it queues delivered at once. *)
Definition vstep (a : nat) (net : list Node) : list Node :=
  match net !! a with
  | Some self =>
      match inbox self with
      | m :: rest =>
          <[a := (handle (set_inbox self rest, []) m).1]>
            (deliver_all a (handle (set_inbox self rest, []) m).2 net)
      | [] => net
      end
  | None => net
  end.

Fixpoint vsteps (k : nat) (a : nat) (net : list Node) : list Node :=
  match k with
  | 0 => net
  | S k' => vsteps k' a (vstep a net)
  end.

Lemma wt_handle_set_inbox n out x m :
  handle (set_inbox n x, out) m
  = (set_inbox (handle (n, []) m).1 x, out ++ (handle (n, []) m).2).
Proof.
  destruct m as [t|t s c]; simpl.
  - destruct (decide (PStr t ∈ seen_queries n)); simpl;
      [by rewrite (right_id_L [] (++))|done].
  - destruct (decide (PPair (PStr t) (PInt s) ∈ seen_queries n)); simpl;
      [by rewrite (right_id_L [] (++))|done].
Qed.

Lemma wt_set_inbox_own (n : Node) : set_inbox n (inbox n) = n.
Proof. by destruct n. Qed.

Lemma wt_handles_set_inbox (l : list Message) n out x :
  for_each handle l (set_inbox n x, out)
  = (set_inbox (for_each handle l (n, [])).1 x,
     out ++ (for_each handle l (n, [])).2).
Proof.
  revert n out x. induction l as [|m l IH]; intros n out x.
  { simpl. by rewrite (right_id_L [] (++)). }
  change (for_each handle (m :: l) ?st) with (for_each handle l (handle st m)).
  rewrite (wt_handle_set_inbox n out x m).
  set (h := handle (n, []) m).
  rewrite (IH h.1 (out ++ h.2) x).
  assert (for_each handle l h
          = ((for_each handle l (h.1, [])).1, h.2 ++ (for_each handle l (h.1, [])).2))
    as ->.
  { assert (h = (set_inbox h.1 (inbox h.1), h.2)) as Hh.
    { rewrite wt_set_inbox_own. by destruct h. }
    rewrite Hh at 1. rewrite (IH h.1 h.2 (inbox h.1)). f_equal.
    destruct (wt_handles_fields l (h.1, [])) as (_ & _ & Hin & _). simpl in Hin.
    by rewrite <-Hin, wt_set_inbox_own. }
  simpl. by rewrite (assoc_L (++)).
Qed.

Lemma wt_deliver_twice a (s1 s2 : Node) (o1 o2 : list Message) net :
  a < length net →
  <[a := s2]> (deliver_all a o2 (<[a := s1]> (deliver_all a o1 net)))
  = <[a := s2]> (deliver_all a (o1 ++ o2) net).
Proof.
  intros Ha. apply list_eq. intros p. destruct (decide (p = a)) as [->|Hpa].
  - rewrite !list_lookup_insert_eq; [done|..];
      unfold deliver_all; rewrite ?length_imap, ?length_insert, ?length_imap; done.
  - rewrite !list_lookup_insert_ne, !wt_deliver_lookup by done.
    rewrite list_lookup_insert_ne, wt_deliver_lookup by done.
    destruct (net !! p) as [n|]; [|done]. simpl.
    rewrite !decide_False by done. simpl. by rewrite (assoc_L (++)).
Qed.

Lemma wt_deliver_nothing a net self :
  net !! a = Some self → <[a := self]> (deliver_all a [] net) = net.
Proof.
  intros Hself. apply list_eq. intros p. destruct (decide (p = a)) as [->|Hpa].
  - rewrite list_lookup_insert_eq; [done|].
    unfold deliver_all. rewrite length_imap. by eapply lookup_lt_Some.
  - rewrite list_lookup_insert_ne, wt_deliver_lookup by done.
    destruct (net !! p) as [n|]; [|done]. simpl. rewrite decide_False by done.
    rewrite (right_id_L [] (++)). by destruct n.
Qed.

(** The turns of the loop, one after the other, give what
    [process_messages] gives. *)
Lemma wt_vsteps_shape (l : list Message) a net self :
  net !! a = Some self → inbox self = l →
  vsteps (length l) a net
  = <[a := (for_each handle l (set_inbox self [], [])).1]>
      (deliver_all a (for_each handle l (set_inbox self [], [])).2 net).
Proof.
  revert net self. induction l as [|m l IH]; intros net self Hself Hin.
  { unfold for_each. simpl.
    assert (set_inbox self [] = self) as -> by (by rewrite <-Hin, wt_set_inbox_own).
    by rewrite wt_deliver_nothing. }
  apply lookup_lt_Some in Hself as Ha.
  simpl. unfold vstep. rewrite Hself, Hin.
  set (h := handle (set_inbox self [], []) m).
  assert (handle (set_inbox self l, []) m = (set_inbox h.1 l, h.2)) as ->.
  { exact (wt_handle_set_inbox (set_inbox self []) [] l m). }
  cbn [fst snd].
  assert (<[a := set_inbox h.1 l]> (deliver_all a h.2 net) !! a
          = Some (set_inbox h.1 l)) as H1.
  { apply list_lookup_insert_eq. unfold deliver_all. by rewrite length_imap. }
  rewrite (IH _ _ H1 eq_refl), wt_deliver_twice by done.
  change (for_each handle (m :: l) ?st) with (for_each handle l (handle st m)).
  fold h.
  change (set_inbox (set_inbox h.1 l) []) with (set_inbox h.1 []).
  assert (set_inbox h.1 [] = h.1) as Hh1.
  { assert (inbox h.1 = []) as Hi.
    { unfold h. by destruct (wt_handle_fields (set_inbox self [], []) m) as (_ & _ & -> & _). }
    by rewrite <-Hi, wt_set_inbox_own. }
  rewrite Hh1.
  assert (for_each handle l h
          = ((for_each handle l (h.1, [])).1, h.2 ++ (for_each handle l (h.1, [])).2))
    as ->; [|done].
  assert (h = (set_inbox h.1 [], h.2)) as Hh.
  { rewrite Hh1. by destruct h. }
  rewrite Hh at 1. rewrite (wt_handles_set_inbox l h.1 h.2 []). f_equal.
  destruct (wt_handles_fields l (h.1, [])) as (_ & _ & Hin' & _). simpl in Hin'.
  assert (inbox h.1 = []) as Hi.
  { unfold h. by destruct (wt_handle_fields (set_inbox self [], []) m) as (_ & _ & -> & _). }
  rewrite Hi in Hin'. etrans; [|apply wt_set_inbox_own]. by rewrite Hin'.
Qed.

Lemma wt_process_vsteps a net self :
  mesh net → Forall typed net → net !! a = Some self →
  process_messages a net = vsteps (length (inbox self)) a net.
Proof.
  intros Hmesh Hty Hself.
  by rewrite (wt_process_shape a net self), (wt_vsteps_shape (inbox self) a net self).
Qed.

(** ** One query in the full mesh

    [t] is the query term; [cs] lists for every position what the node
    there counts for [t]. *)

Section Totals.

Variables (t : string) (cs : list nat).

(** The node has handled the query. *)
Definition Q (n : Node) : Prop := PStr t ∈ seen_queries n.

(** The pair that stands for the result of node [i]. *)
Definition pair_of (i : nat) : Py := PPair (PStr t) (PInt i).

(** The node has tallied the result of node [i]. *)
Definition P (n : Node) (i : nat) : Prop := pair_of i ∈ seen_queries n.

Definition cnt (i : nat) : nat := default 0 (cs !! i).

Definition the_result (i : nat) : Message := RESULT t i (cnt i).

(** The result of node 0 reaches every other node before the query does,
    and is then overwritten. *)
Definition excl (j i : nat) : Prop := j ≠ 0 ∧ i = 0.

#[global] Instance P_dec (n : Node) (i : nat) : Decision (P n i).
Proof. unfold P. apply _. Defined.

#[global] Instance excl_dec (j i : nat) : Decision (excl j i).
Proof. unfold excl. apply _. Defined.

(** What the results tallied by the node at position [j] add up to. *)
Definition tally (j : nat) (n : Node) : nat :=
  sum_list (imap (λ i c, if decide (P n i ∧ ¬ excl j i) then c else 0) cs).

(** The node at position [j]: it has handled the query, or has handled
    nothing, or (not node 0) has handled the result of node 0 only. *)
Definition kind (net : list Node) (j : nat) (n : Node) : Prop :=
  (Q n ∧ (j ≠ 0 → P n 0) ∧ results n !! t = Some (cnt j + tally j n))
  ∨ (seen_queries n = [] ∧ results n !! t = None
     ∧ ((j = 0 ∧ ∃ rest, inbox n = QUERY t :: rest)
        ∨ (j ≠ 0
           ∧ ((inbox n = [] ∧ ∀ o, net !! 0 = Some o → ¬ Q o)
              ∨ ∃ rest, inbox n = the_result 0 :: QUERY t :: rest))))
  ∨ (j ≠ 0 ∧ seen_queries n = [pair_of 0] ∧ results n !! t = Some (cnt 0)
     ∧ ∃ rest, inbox n = QUERY t :: rest).

Definition okn (net : list Node) (j : nat) (n : Node) : Prop :=
  node_id n = j ∧ peers n = seq 0 (length net) ∧ cs !! j = Some (count_of n t)
  ∧ (∀ m, m ∈ inbox n →
          m = QUERY t ∨ ∃ i o, m = the_result i ∧ net !! i = Some o ∧ Q o)
  ∧ (∀ x, x ∈ seen_queries n →
          x = PStr t ∨ ∃ i o, x = pair_of i ∧ net !! i = Some o ∧ Q o)
  ∧ kind net j n
  ∧ (∀ i o, net !! i = Some o → Q o → j ≠ i → P n i ∨ the_result i ∈ inbox n)
  ∧ (∀ p o, net !! p = Some o → p ≠ j → P o j → P n j ∨ the_result j ∈ inbox n).

Definition inv (net : list Node) : Prop :=
  length cs = length net ∧ ∀ j n, net !! j = Some n → okn net j n.

Lemma wt_inv_mesh net : inv net → mesh net.
Proof. intros [_ H] i n Hn. by destruct (H i n Hn) as (? & ? & _). Qed.

Lemma wt_inv_typed net : inv net → Forall typed net.
Proof.
  intros [_ H]. apply Forall_lookup. intros i n Hn.
  destruct (H i n Hn) as (_ & _ & _ & _ & Hs & _).
  intros x Hx. destruct (Hs x Hx) as [->|(j & o & -> & _)];
    [left; by exists t|right; by exists t, j].
Qed.

Lemma wt_tally_none j n : (∀ i, P n i → excl j i) → tally j n = 0.
Proof.
  intros Hn. unfold tally. rewrite (KeywordRuns.kr_sum_imap_fmap _ (λ _, 0)).
  - induction cs as [|c l IH]; [done|]. csimpl. by rewrite IH.
  - intros i c _. rewrite decide_False; [done|]. intros [HP Hne]. by apply Hne, Hn.
Qed.

Lemma wt_tally_add j n n' i :
  i < length cs → ¬ P n i → ¬ excl j i →
  (∀ k, P n' k ↔ P n k ∨ k = i) →
  tally j n' = tally j n + cnt i.
Proof.
  intros Hi Hnew Hex Hiff. unfold tally.
  destruct (lookup_lt_is_Some_2 cs i Hi) as [c Hc].
  apply (KeywordRuns.kr_sum_imap_change _ _ cs i c); [done| |].
  - intros k y Hk.
    destruct (decide (P n k ∧ ¬ excl j k)) as [[? ?]|Hn].
    + rewrite decide_True; [done|]. split; [|done]. apply Hiff. by left.
    + rewrite decide_False; [done|]. intros [Hk' ?]. apply Hn. split; [|done].
      apply Hiff in Hk'. by destruct Hk'.
  - rewrite decide_True by (split; [apply Hiff; by right|done]).
    rewrite decide_False by tauto. unfold cnt. by rewrite Hc.
Qed.

(** What one turn of the loop does to the node at position [j]. *)
Lemma wt_handle_flood j s m rest :
  node_id s = j → cs !! j = Some (count_of s t) →
  (m = QUERY t ∨ ∃ i, i < length cs ∧ m = the_result i) →
  (Q s ∧ (j ≠ 0 → P s 0) ∧ results s !! t = Some (cnt j + tally j s))
  ∨ (seen_queries s = [] ∧ results s !! t = None
     ∧ ((j = 0 ∧ m = QUERY t)
        ∨ (j ≠ 0 ∧ m = the_result 0 ∧ ∃ rest', rest = QUERY t :: rest')))
  ∨ (j ≠ 0 ∧ seen_queries s = [pair_of 0] ∧ results s !! t = Some (cnt 0)
     ∧ m = QUERY t) →
  (Q (handle (s, []) m).1 ↔ Q s ∨ m = QUERY t)
  ∧ (∀ i, P (handle (s, []) m).1 i ↔ P s i ∨ m = the_result i)
  ∧ (∀ x, x ∈ seen_queries (handle (s, []) m).1 →
          x ∈ seen_queries s ∨ (x = PStr t ∧ m = QUERY t)
          ∨ ∃ i, x = pair_of i ∧ m = the_result i)
  ∧ ((Q (handle (s, []) m).1 ∧ (j ≠ 0 → P (handle (s, []) m).1 0)
      ∧ results (handle (s, []) m).1 !! t
        = Some (cnt j + tally j (handle (s, []) m).1))
     ∨ (j ≠ 0 ∧ seen_queries (handle (s, []) m).1 = [pair_of 0]
        ∧ results (handle (s, []) m).1 !! t = Some (cnt 0)
        ∧ ∃ rest', rest = QUERY t :: rest'))
  ∧ (∀ x, x ∈ (handle (s, []) m).2 →
          x = m ∨ (m = QUERY t ∧ ¬ Q s ∧ x = the_result j))
  ∧ (m = QUERY t → ¬ Q s →
     QUERY t ∈ (handle (s, []) m).2 ∧ the_result j ∈ (handle (s, []) m).2)
  ∧ (∀ i, m = the_result i → ¬ P s i → the_result i ∈ (handle (s, []) m).2)
  ∧ (m = QUERY t → ¬ Q s → (handle (s, []) m).2 = [the_result j; QUERY t]).
Proof.
  intros Hid Hcs Hm Hkind. unfold Q, P, pair_of in *.
  assert (cnt j = count_of s t) as Hcj by (unfold cnt; by rewrite Hcs).
  destruct Hm as [->|(i & Hi & ->)]; unfold the_result; simpl.
  - (* the query *)
    destruct (decide (PStr t ∈ seen_queries s)) as [Hq|Hq]; simpl.
    { destruct Hkind as [Hk|[(Hs & _)|(_ & Hs & _)]];
        [|by rewrite Hs in Hq; apply elem_of_nil in Hq
         |rewrite Hs in Hq; by apply list_elem_of_singleton in Hq].
      split_and!.
      - tauto.
      - intros k. split; [tauto|]. by intros [?|[=]].
      - intros x ?. by left.
      - by left.
      - by intros x ?%elem_of_nil.
      - done.
      - by intros k [=].
      - done. }
    rewrite Hid, <-Hcj.
    split_and!.
    + split; [by right|]. intros _. by left.
    + intros k. rewrite elem_of_cons. split.
      * intros [[=]|?]. by left.
      * intros [?|[=]]. by right.
    + intros x [->|?]%elem_of_cons; [right; by left|by left].
    + left. split_and!.
      * by left.
      * intros Hj. destruct Hkind as [[? _]|[(Hs & _ & [[? _]|(_ & [=] & _)])|(_ & Hs & _)]];
          [done|done|]. rewrite Hs. right. by left.
      * rewrite lookup_insert_eq. f_equal. rewrite wt_tally_none; [lia|].
        intros k. unfold P, pair_of. simpl. rewrite elem_of_cons. intros [[=]|Hk].
        destruct Hkind as [[? _]|[(Hs & _)|(Hj & Hs & _)]]; [done|..].
        -- rewrite Hs in Hk. by apply elem_of_nil in Hk.
        -- rewrite Hs in Hk. apply list_elem_of_singleton in Hk.
           injection Hk as ->. done.
    + intros x [->|[->|[]%elem_of_nil]%elem_of_cons]%elem_of_cons.
      * right. done.
      * by left.
    + intros _ _. split; [right; by left|by left].
    + by intros k [=].
    + done.
  - (* a result *)
    destruct (decide (PPair (PStr t) (PInt i) ∈ seen_queries s)) as [Hp|Hp]; simpl.
    { split_and!.
      - split; [by left|]. by intros [?|[=]].
      - intros k. split; [by left|]. intros [?|[= ->]]; done.
      - intros x ?. by left.
      - destruct Hkind as [Hk|[(Hs & _ & [[_ [=]]|(Hj & _ & Hr)])|(_ & _ & _ & [=])]].
        + by left.
        + rewrite Hs in Hp. by apply elem_of_nil in Hp.
      - by intros x ?%elem_of_nil.
      - by intros [=].
      - intros k [= ->]. done.
      - by intros [=]. }
    split_and!.
    + rewrite elem_of_cons. split; [intros [[=]|?]; by left|].
      intros [?|[=]]. by right.
    + intros k. rewrite elem_of_cons. split.
      * intros [[= ->]|?]; [by right|by left].
      * intros [?|[= ->]]; [by right|by left].
    + intros x [->|?]%elem_of_cons; [|by left]. right. right. by exists i.
    + destruct Hkind as [(Hq & Hz & Hr)|[(Hs & Hr & [[_ [=]]|(Hj & [= Hi0 _] & Hrest)])|(_ & _ & _ & [=])]].
      * left. split_and!.
        -- by right.
        -- intros Hj. right. by apply Hz.
        -- rewrite lookup_insert_eq, Hr. simpl. f_equal.
           match goal with
           | |- _ = _ + tally j ?n' => rewrite (wt_tally_add j s n' i)
           end; [lia|done|done| |].
           ++ intros [Hj ->]. by apply Hp, Hz.
           ++ intros k. unfold P, pair_of. simpl. rewrite elem_of_cons. split.
              ** intros [[= ->]|?]; [by right|by left].
              ** intros [?| ->]; [by right|by left].
      * right. subst i. split_and!; [done| | |done].
        -- by rewrite Hs.
        -- by rewrite lookup_insert_eq, Hr.
    + intros x ->%list_elem_of_singleton. by left.
    + by intros [=].
    + intros k [= ->] _. by left.
    + by intros [=].
Qed.

Lemma wt_the_result_inj i k : the_result i = the_result k → i = k.
Proof. by intros [= ->]. Qed.

(** The invariant is kept by every turn of every node's loop. *)
Lemma wt_vstep_inv net a : inv net → inv (vstep a net).
Proof.
  intros Hinv. unfold vstep.
  destruct (net !! a) as [self|] eqn:Hself; [|done].
  destruct (inbox self) as [|m rest] eqn:Hin; [done|].
  destruct Hinv as [Hlen Hok].
  destruct (Hok a self Hself) as (Hid & Hps & Hcs & Hgen & Hseen & Hkind & HE & HF).
  apply lookup_lt_Some in Hself as Ha.
  set (s := set_inbox self rest).
  assert (m = QUERY t ∨ ∃ i o, m = the_result i ∧ net !! i = Some o ∧ Q o) as Hm.
  { apply Hgen. rewrite Hin. by left. }
  destruct (wt_handle_flood a s m rest) as (E1 & E2 & E3 & E4 & E5 & E6 & E7 & E8).
  { done. }
  { done. }
  { destruct Hm as [->|(i & o & -> & Hi & _)]; [by left|]. right. exists i.
    split; [|done]. rewrite Hlen. by eapply lookup_lt_Some. }
  { destruct Hkind as [Hk|[(Hs & Hr & Hk)|(Hj & Hs & Hr & rest' & Hi)]].
    - by left.
    - right. left. split_and!; [done..|].
      destruct Hk as [(Hj & rest' & Hi)|(Hj & [[Hi _]|(rest' & Hi)])].
      + left. split; [done|]. rewrite Hin in Hi. by injection Hi as -> _.
      + by rewrite Hin in Hi.
      + right. split; [done|]. rewrite Hin in Hi. injection Hi as -> ->.
        split; [done|by exists rest'].
    - right. right. split_and!; [done..|]. rewrite Hin in Hi. by injection Hi as -> _. }
  destruct (wt_handle_fields (s, []) m) as (Fid & Fps & Fin & Ffl & Fdoc).
  simpl in Fid, Fps, Fin, Ffl, Fdoc.
  set (s' := (handle (s, []) m).1) in *.
  set (out := (handle (s, []) m).2) in *.
  change (Q s) with (Q self) in *. change (P s) with (P self) in *.
  change (seen_queries s) with (seen_queries self) in *.
  set (net' := <[a := s']> (deliver_all a out net)).
  assert (length net' = length net) as Slen.
  { unfold net', deliver_all. by rewrite length_insert, length_imap. }
  assert (net' !! a = Some s') as Sa.
  { apply list_lookup_insert_eq. unfold deliver_all. by rewrite length_imap. }
  assert (∀ p, p ≠ a →
               net' !! p = (λ n, set_inbox n (inbox n ++ out)) <$> net !! p) as Sp.
  { intros p Hp. unfold net'. rewrite list_lookup_insert_ne, wt_deliver_lookup by done.
    destruct (net !! p); [|done]. simpl. by rewrite decide_False. }
  assert (∀ j o, net !! j = Some o → Q o → ∃ o', net' !! j = Some o' ∧ Q o') as Hmono.
  { intros j o Hj Ho. destruct (decide (j = a)) as [->|Hja].
    - exists s'. split; [done|]. apply E1. left. congruence.
    - eexists. split; [by rewrite Sp, Hj|done]. }
  assert (∀ j o', net' !! j = Some o' → Q o' →
                  (∃ o, net !! j = Some o ∧ Q o)
                  ∨ (j = a ∧ m = QUERY t ∧ ¬ Q self)) as Hback.
  { intros j o' Hj Ho'. destruct (decide (j = a)) as [->|Hja].
    - rewrite Sa in Hj. injection Hj as <-.
      destruct (decide (Q self)) as [Hs|Hs]; [left; by exists self|].
      right. apply E1 in Ho'. by destruct Ho'.
    - rewrite Sp in Hj by done. destruct (net !! j) as [o|] eqn:Ho; [|done].
      injection Hj as <-. left. by exists o. }
  assert (∀ p o' i, net' !! p = Some o' → P o' i →
                    (∃ o, net !! p = Some o ∧ P o i)
                    ∨ (p = a ∧ m = the_result i ∧ ¬ P self i)) as Pback.
  { intros p o' i Hp Ho'. destruct (decide (p = a)) as [->|Hpa].
    - rewrite Sa in Hp. injection Hp as <-.
      destruct (decide (P self i)) as [Hs|Hs]; [left; by exists self|].
      right. apply E2 in Ho'. by destruct Ho'.
    - rewrite Sp in Hp by done. destruct (net !! p) as [o|] eqn:Ho; [|done].
      injection Hp as <-. left. by exists o. }
  assert (∀ x, (x = QUERY t ∨ ∃ i o, x = the_result i ∧ net !! i = Some o ∧ Q o) →
               x = QUERY t ∨ ∃ i o, x = the_result i ∧ net' !! i = Some o ∧ Q o) as Hgm.
  { intros x [->|(i & o & -> & Hi & Ho)]; [by left|].
    destruct (Hmono i o Hi Ho) as (o' & Hi' & Ho'). right. by exists i, o'. }
  assert (¬ (∃ o, net !! 0 = Some o ∧ Q o) → a = 0 ∧ m = QUERY t ∧ ¬ Q self) as Hzero.
  { intros Hno. destruct Hkind as [(Hq & Hz & _)|[(Hs & _ & Hk)|(Hj & Hs & _)]].
    - destruct (decide (a = 0)) as [->|Hne]; [exfalso; apply Hno; by exists self|].
      exfalso. apply Hno.
      destruct (Hseen (pair_of 0) (Hz Hne)) as [[=]|(i & o & [= <-] & Ho & HQ)].
      by exists o.
    - unfold Q. rewrite Hs.
      destruct Hk as [(-> & rest' & Hi)|(Hj & [[Hi _]|(rest' & Hi)])].
      + rewrite Hin in Hi. injection Hi as -> _.
        split_and!; [done..|]. by intros ?%elem_of_nil.
      + by rewrite Hin in Hi.
      + exfalso. apply Hno.
        destruct (Hgen (the_result 0)) as [[=]|(i & o & [= <-] & Ho & HQ)];
          [rewrite Hi; by left|]. by exists o.
    - exfalso. apply Hno.
      destruct (Hseen (pair_of 0)) as [[=]|(i & o & [= <-] & Ho & HQ)];
        [rewrite Hs; by left|]. by exists o. }
  split; [by rewrite Slen|].
  intros j n' Hn'. unfold okn. rewrite Slen.
  destruct (decide (j = a)) as [->|Hja].
  - (* the node that took the turn *)
    rewrite Sa in Hn'. injection Hn' as <-.
    assert (count_of s' t = count_of self t) as Hcount.
    { unfold count_of. by rewrite Ffl, Fdoc. }
    split_and!.
    + by rewrite Fid.
    + by rewrite Fps.
    + by rewrite Hcount.
    + intros x Hx. apply Hgm, Hgen. rewrite Hin. right. by rewrite <-Fin.
    + intros x Hx. destruct (E3 x Hx) as [Hold|[[-> _]|(i & -> & ->)]].
      * destruct (Hseen x Hold) as [->|(i & o & -> & Hi & Ho)]; [by left|].
        destruct (Hmono i o Hi Ho) as (o' & Hi' & Ho'). right. by exists i, o'.
      * by left.
      * destruct Hm as [[=]|(k & o & Hk & Hi & Ho)].
        apply wt_the_result_inj in Hk as ->.
        destruct (Hmono k o Hi Ho) as (o' & Hi' & Ho'). right. by exists k, o'.
    + destruct E4 as [Hk|(Hj & Hs & Hr & rest' & Hrest)].
      * by left.
      * right. right. split_and!; [done..|]. exists rest'. by rewrite Fin.
    + intros i o' Hi Ho' Hne. rewrite Fin.
      destruct (Hback i o' Hi Ho') as [(o & Hio & Hso)|(-> & _)]; [|done].
      destruct (HE i o Hio Hso Hne) as [Hp|Hx].
      * left. apply E2. by left.
      * rewrite Hin in Hx. apply elem_of_cons in Hx as [<-|Hx]; [|by right].
        left. apply E2. by right.
    + intros p o' Hp Hne Ho'. rewrite Fin.
      destruct (Pback p o' a Hp Ho') as [(o & Hpo & Hso)|(-> & _)]; [|done].
      destruct (HF p o Hpo Hne Hso) as [Hpa|Hx].
      * left. apply E2. by left.
      * rewrite Hin in Hx. apply elem_of_cons in Hx as [<-|Hx]; [|by right].
        left. apply E2. by right.
  - (* another node *)
    rewrite Sp in Hn' by done. destruct (net !! j) as [n|] eqn:Hn; [|done].
    injection Hn' as <-.
    destruct (Hok j n Hn) as (Hid' & Hps' & Hcs' & Hgen' & Hseen' & Hkind' & HE' & HF').
    split_and!.
    + done.
    + done.
    + done.
    + intros x. simpl. intros [Hx|Hx]%elem_of_app; [by apply Hgm, Hgen'|].
      destruct (E5 x Hx) as [->|(Hq & Hns & ->)]; [by apply Hgm|].
      right. exists a, s'. split_and!; [done..|]. apply E1. by right.
    + intros x Hx. destruct (Hseen' x Hx) as [->|(i & o & -> & Hi & Ho)]; [by left|].
      destruct (Hmono i o Hi Ho) as (o' & Hi' & Ho'). right. by exists i, o'.
    + destruct Hkind' as [Hk|[(Hs & Hr & Hk)|(Hj & Hs & Hr & rest' & Hi)]].
      * by left.
      * right. left. split_and!; [done..|]. simpl.
        destruct Hk as [(Hj & rest' & Hi)|(Hj & [[Hi Hno]|(rest' & Hi)])].
        -- left. split; [done|]. exists (rest' ++ out). by rewrite Hi.
        -- right. split; [done|]. right.
           destruct Hzero as (Ha0 & Hq & Hns).
           { intros (o & Ho & HQ). by apply (Hno o). }
           rewrite Hi, (E8 Hq Hns), Ha0. by exists [].
        -- right. split; [done|]. right. exists (rest' ++ out). by rewrite Hi.
      * right. right. split_and!; [done..|]. simpl. exists (rest' ++ out). by rewrite Hi.
    + intros i o' Hi Ho' Hne. simpl.
      destruct (Hback i o' Hi Ho') as [(o & Hio & Hso)|(-> & Hq & Hns)].
      * destruct (HE' i o Hio Hso Hne) as [?|Hx]; [by left|].
        right. apply elem_of_app. by left.
      * right. apply elem_of_app. right. by apply E6.
    + intros p o' Hp Hne Ho'. simpl.
      destruct (Pback p o' j Hp Ho') as [(o & Hpo & Hso)|(-> & Hq & Hns)].
      * destruct (HF' p o Hpo Hne Hso) as [?|Hx]; [by left|].
        right. apply elem_of_app. by left.
      * right. apply elem_of_app. right. by apply E7.
Qed.

Lemma wt_vsteps_inv (k : nat) net a : inv net → inv (vsteps k a net).
Proof.
  revert net. induction k as [|k IH]; intros net Hinv; [done|].
  simpl. by apply IH, wt_vstep_inv.
Qed.

Lemma wt_process_inv net a : inv net → inv (process_messages a net).
Proof.
  intros Hinv. destruct (net !! a) as [self|] eqn:Hself.
  - rewrite (wt_process_vsteps a net self);
      [by apply wt_vsteps_inv|by apply wt_inv_mesh|by apply wt_inv_typed|done].
  - unfold process_messages. by rewrite Hself.
Qed.

Lemma wt_processes_inv (l : list nat) net :
  inv net → inv (run (Process <$> l) net).
Proof.
  revert net. induction l as [|a l IH]; intros net Hinv; [done|].
  apply IH. by apply wt_process_inv.
Qed.

(** *** What a node has seen only grows, and a call handles the inbox *)

Lemma wt_handles_seen (l : list Message) st :
  (∀ x, x ∈ seen_queries st.1 → x ∈ seen_queries (for_each handle l st).1)
  ∧ (∀ t', QUERY t' ∈ l → PStr t' ∈ seen_queries (for_each handle l st).1)
  ∧ (∀ t' i c, RESULT t' i c ∈ l →
               PPair (PStr t') (PInt i) ∈ seen_queries (for_each handle l st).1).
Proof.
  revert st. induction l as [|m l IH]; intros st.
  { split_and!; [done|by intros ? ?%elem_of_nil|by intros ? ? ? ?%elem_of_nil]. }
  change (for_each handle (m :: l) st) with (for_each handle l (handle st m)).
  destruct (IH (handle st m)) as (IH1 & IH2 & IH3).
  assert (∀ x, x ∈ seen_queries st.1 → x ∈ seen_queries (handle st m).1) as Hstep.
  { intros x Hx. destruct st as [n out]. destruct m as [t'|t' i c]; simpl in *.
    - destruct (decide (PStr t' ∈ seen_queries n)); [done|]. by right.
    - destruct (decide (PPair (PStr t') (PInt i) ∈ seen_queries n)); [done|]. by right. }
  split_and!.
  - intros x Hx. by apply IH1, Hstep.
  - intros t' [<-|Hin]%elem_of_cons; [|by apply IH2].
    apply IH1. destruct st as [n out]. simpl.
    destruct (decide (PStr t' ∈ seen_queries n)); [done|]. by left.
  - intros t' i c [<-|Hin]%elem_of_cons; [|by eapply IH3].
    apply IH1. destruct st as [n out]. simpl.
    destruct (decide (PPair (PStr t') (PInt i) ∈ seen_queries n)); [done|]. by left.
Qed.

Lemma wt_process_lookup net a j n :
  inv net → net !! j = Some n →
  ∃ n', process_messages a net !! j = Some n'
        ∧ (∀ x, x ∈ seen_queries n → x ∈ seen_queries n')
        ∧ (j = a → (∀ t', QUERY t' ∈ inbox n → PStr t' ∈ seen_queries n')
                   ∧ (∀ t' i c, RESULT t' i c ∈ inbox n →
                                PPair (PStr t') (PInt i) ∈ seen_queries n')).
Proof.
  intros Hinv Hn. destruct (net !! a) as [self|] eqn:Hself.
  - rewrite (wt_process_shape a net self);
      [|by apply wt_inv_mesh|by apply wt_inv_typed|done].
    destruct (wt_handles_seen (inbox self) (set_inbox self [], [])) as (H1 & H2 & H3).
    destruct (decide (j = a)) as [->|Hja].
    + assert (n = self) as -> by congruence. eexists. split.
      * apply list_lookup_insert_eq. unfold deliver_all. rewrite length_imap.
        by eapply lookup_lt_Some.
      * split; [apply H1|]. intros _. split; [apply H2|apply H3].
    + eexists. split.
      * rewrite list_lookup_insert_ne, wt_deliver_lookup, Hn by done. simpl.
        by rewrite decide_False.
      * split; [done|]. by intros ->.
  - unfold process_messages. rewrite Hself. exists n. split; [done|].
    split; [done|]. intros ->. congruence.
Qed.

Lemma wt_processes_lookup (l : list nat) net j n :
  inv net → net !! j = Some n →
  ∃ n', run (Process <$> l) net !! j = Some n'
        ∧ (∀ x, x ∈ seen_queries n → x ∈ seen_queries n').
Proof.
  revert net n. induction l as [|a l IH]; intros net n Hinv Hn.
  { by exists n. }
  destruct (wt_process_lookup net a j n Hinv Hn) as (n1 & Hn1 & Hm1 & _).
  destruct (IH _ n1 (wt_process_inv net a Hinv) Hn1) as (n2 & Hn2 & Hm2).
  exists n2. split; [done|]. intros x Hx. by apply Hm2, Hm1.
Qed.

Lemma wt_processes_length (l : list nat) net :
  inv net → length (run (Process <$> l) net) = length net.
Proof.
  intros Hinv. destruct (wt_processes_inv l net Hinv) as [H1 _].
  destruct Hinv as [H2 _]. congruence.
Qed.

(** *** Rounds *)

(** A round in which what is waiting in the inbox, or is there already,
    comes to be in [seen_queries] at every node of [want] that takes its
    turn. *)
Lemma wt_round (want : nat → Prop) (good : nat → Py) (l : list nat) net :
  inv net →
  (∀ net1 j n, inv net1 → (∀ i o, net !! i = Some o → ∃ o1, net1 !! i = Some o1
                                   ∧ ∀ x, x ∈ seen_queries o → x ∈ seen_queries o1) →
               j ∈ l → want j → net1 !! j = Some n →
               good j ∈ seen_queries n
               ∨ (∃ t', good j = PStr t' ∧ QUERY t' ∈ inbox n)
               ∨ (∃ t' i c, good j = PPair (PStr t') (PInt i) ∧ RESULT t' i c ∈ inbox n)) →
  ∀ j n', j ∈ l → want j → run (Process <$> l) net !! j = Some n' →
          good j ∈ seen_queries n'.
Proof.
  revert net. induction l as [|a l IH]; intros net Hinv Hready j n' Hj Hw Hn';
    [by apply elem_of_nil in Hj|].
  change (run (Process <$> a :: l) net)
    with (run (Process <$> l) (process_messages a net)) in Hn'.
  pose proof (wt_process_inv net a Hinv) as Hinv1.
  assert (∀ i o, net !! i = Some o →
                 ∃ o1, process_messages a net !! i = Some o1
                       ∧ ∀ x, x ∈ seen_queries o → x ∈ seen_queries o1) as Hgrow.
  { intros i o Hi. destruct (wt_process_lookup net a i o Hinv Hi) as (o1 & ? & ? & _).
    by exists o1. }
  destruct (decide (j ∈ l)) as [Hjl|Hjl].
  - apply (IH (process_messages a net) Hinv1); [|done..].
    intros net1 k n Hinv' Hg Hk Hwk Hn.
    apply (Hready net1 k n Hinv'); [|by right|done|done].
    intros i o Hi. destruct (Hgrow i o Hi) as (o1 & Hi1 & Hs1).
    destruct (Hg i o1 Hi1) as (o2 & Hi2 & Hs2). exists o2. split; [done|].
    intros x Hx. by apply Hs2, Hs1.
  - apply elem_of_cons in Hj as [->|?]; [|done].
    assert (∃ n, net !! a = Some n) as [n Hn].
    { apply lookup_lt_is_Some. apply lookup_lt_Some in Hn'.
      by rewrite wt_processes_length, <-(proj1 Hinv1), (proj1 Hinv) in Hn'. }
    destruct (wt_process_lookup net a a n Hinv Hn) as (n1 & Hn1 & Hm1 & Hdone).
    destruct (Hdone eq_refl) as [HdQ HdR].
    destruct (wt_processes_lookup l _ a n1 Hinv1 Hn1) as (n2 & Hn2 & Hm2).
    rewrite Hn' in Hn2. injection Hn2 as <-. apply Hm2.
    destruct (Hready net a n Hinv) as [Hg|[(t' & -> & Hq)|(t' & i & c & -> & Hr)]].
    + intros i o Hi. by exists o.
    + by left.
    + done.
    + done.
    + by apply Hm1.
    + by apply HdQ.
    + by eapply HdR.
Qed.

(** After three rounds every node has handled the query and tallied the
    result of every node. *)
Lemma wt_three_rounds (N : nat) net :
  2 ≤ N → length net = N → inv net →
  ∀ j n, run (Process <$> (seq 0 N ++ seq 0 N ++ seq 0 N)) net !! j = Some n →
         Q n ∧ ∀ i, i < N → P n i.
Proof.
  intros HN Hlen Hinv.
  assert (∀ l net0 j n, inv net0 → run (Process <$> l) net0 !! j = Some n →
                        ∃ o, net0 !! j = Some o
                             ∧ ∀ x, x ∈ seen_queries o → x ∈ seen_queries n) as Hgrow.
  { intros l net0 j n Hi Hn.
    assert (∃ o, net0 !! j = Some o) as [o Ho].
    { apply lookup_lt_is_Some. apply lookup_lt_Some in Hn.
      by rewrite wt_processes_length in Hn. }
    destruct (wt_processes_lookup l net0 j o Hi Ho) as (n' & Hn' & Hm).
    exists o. split; [done|]. rewrite Hn in Hn'. by injection Hn' as <-. }
  rewrite !fmap_app. unfold run, for_each. rewrite !foldl_app.
  fold (run (Process <$> seq 0 N) net).
  set (net1 := run (Process <$> seq 0 N) net).
  fold (run (Process <$> seq 0 N) net1).
  set (net2 := run (Process <$> seq 0 N) net1).
  fold (run (Process <$> seq 0 N) net2).
  set (net3 := run (Process <$> seq 0 N) net2).
  assert (inv net1) as Hinv1 by (by apply wt_processes_inv).
  assert (inv net2) as Hinv2 by (by apply wt_processes_inv).
  assert (length net1 = N) as Hlen1 by (unfold net1; by rewrite wt_processes_length).
  assert (length net2 = N) as Hlen2 by (unfold net2; by rewrite wt_processes_length).
  (* first round: the query *)
  assert (∀ j n, net1 !! j = Some n → Q n) as HQ1.
  { intros j n Hn. unfold net1 in Hn.
    destruct N as [|N']; [lia|]. change (seq 0 (S N')) with (0 :: seq 1 N') in Hn.
    change (run (Process <$> 0 :: seq 1 N') net)
      with (run (Process <$> seq 1 N') (run (Process <$> [0]) net)) in Hn.
    assert (inv (run (Process <$> [0]) net)) as Hinv0 by (by apply wt_processes_inv).
    assert (∀ o, run (Process <$> [0]) net !! 0 = Some o → Q o) as HQ0.
    { intros o Ho.
      apply (wt_round (λ _, True) (λ _, PStr t) [0] net Hinv) with (j := 0);
        [|by left|done|done].
      intros netx k n0 Hix _ ->%list_elem_of_singleton _ Hk.
      destruct Hix as [_ Hokx].
      destruct (Hokx 0 n0 Hk) as (_ & _ & _ & _ & _ & Hkind & _).
      destruct Hkind as [(? & _)|[(_ & _ & [(_ & rest & Hi)|(? & _)])|(? & _)]];
        [by left| |done..].
      right. left. exists t. split; [done|]. rewrite Hi. by left. }
    destruct (decide (j = 0)) as [->|Hj0].
    - destruct (Hgrow _ _ 0 n Hinv0 Hn) as (o & Ho & Hm). by apply Hm, HQ0.
    - apply (wt_round (λ _, True) (λ _, PStr t) (seq 1 N') _ Hinv0 ) with (j := j);
        [| |done|done].
      + intros netx k nk Hix Hg Hk _ Hnk.
        destruct (lookup_lt_is_Some_2 (run (Process <$> [0]) net) 0) as [o0 Ho0].
        { rewrite wt_processes_length by done. lia. }
        destruct (Hg 0 o0 Ho0) as (o1 & Ho1 & Hm1).
        assert (Q o1) as HQo1 by (by apply Hm1, HQ0).
        destruct Hix as [_ Hokx].
        destruct (Hokx k nk Hnk) as (_ & _ & _ & _ & _ & Hkind & _).
        destruct Hkind as [(? & _)|[(_ & _ & [(_ & rest & Hi)|(_ & [[_ Hno]|(rest & Hi)])])
                                   |(_ & _ & _ & rest & Hi)]].
        * by left.
        * right. left. exists t. split; [done|]. rewrite Hi. by left.
        * by destruct (Hno o1 Ho1).
        * right. left. exists t. split; [done|]. rewrite Hi. right. by left.
        * right. left. exists t. split; [done|]. rewrite Hi. by left.
      + apply elem_of_seq. apply lookup_lt_Some in Hn.
        rewrite !wt_processes_length in Hn by done. lia. }
  (* second round: the results of the others *)
  assert (∀ j n i, net2 !! j = Some n → i < N → i ≠ j → P n i) as HP2.
  { intros j n i Hn Hi Hne.
    apply (wt_round (λ k, k ≠ i) (λ _, pair_of i) (seq 0 N) net1 Hinv1) with (j := j);
      [| |done|done].
    - intros netx k nk Hix Hg Hk Hki Hnk.
      destruct (lookup_lt_is_Some_2 net1 i) as [oi Hoi]; [lia|].
      destruct (Hg i oi Hoi) as (o1 & Ho1 & Hm1).
      assert (Q o1) as HQo1 by (by apply Hm1, (HQ1 i oi)).
      destruct Hix as [_ Hokx].
      destruct (Hokx k nk Hnk) as (_ & _ & _ & _ & _ & _ & HE & _).
      destruct (HE i o1 Ho1 HQo1 Hki) as [?|Hx]; [by left|].
      right. right. by exists t, i, (cnt i).
    - apply elem_of_seq. apply lookup_lt_Some in Hn. lia. }
  (* third round: the node's own result, relayed back *)
  intros j n Hn.
  destruct (Hgrow (seq 0 N) net2 j n Hinv2 Hn) as (o2 & Ho2 & Hm2).
  destruct (Hgrow (seq 0 N) net1 j o2 Hinv1 Ho2) as (o1 & Ho1 & Hm1).
  split; [by apply Hm2, Hm1, (HQ1 j o1)|].
  intros i Hi. destruct (decide (i = j)) as [->|Hne]; [|by apply Hm2, (HP2 j o2 i)].
  apply (wt_round (λ _, True) pair_of (seq 0 N) net2 Hinv2) with (j := j);
    [| |done|done].
  - intros netx k nk Hix Hg Hk _ Hnk.
    set (p := if decide (k = 0) then 1 else 0).
    assert (p ≠ k ∧ p < N) as [Hpk HpN] by (unfold p; destruct (decide (k = 0)); lia).
    destruct (lookup_lt_is_Some_2 net2 p) as [op Hop]; [lia|].
    destruct (Hg p op Hop) as (o & Ho & Hm).
    assert (P o k) as HPo.
    { apply Hm, (HP2 p op k Hop); [|done]. apply lookup_lt_Some in Hnk.
      destruct Hix as [Hl _]. apply elem_of_seq in Hk. lia. }
    destruct Hix as [_ Hokx].
    destruct (Hokx k nk Hnk) as (_ & _ & _ & _ & _ & _ & _ & HF).
    destruct (HF p o Ho Hpk HPo) as [?|Hx]; [by left|].
    right. right. by exists t, k, (cnt k).
  - apply elem_of_seq. lia.
Qed.

End Totals.


(** ** The totals at the end of [simulate] *)

(** What the node at position [i] counts for the term. *)
Definition own_count (flags : nat → bool) (docs : nat → list string) (t : string)
    (i : nat) : nat :=
  let count := length (filter (λ w, w = t) (docs i)) in
  if flags i then count + 3 else count.

Definition counts (N : nat) (flags : nat → bool) (docs : nat → list string)
    (t : string) : list nat :=
  own_count flags docs t <$> seq 0 N.

Lemma wt_nodes_lookup N flags docs j n :
  nodes N flags docs !! j = Some n →
  j < N ∧ n = mkNode j (seq 0 N) [] [] ∅ (flags j) (docs j).
Proof.
  unfold nodes. rewrite list_lookup_fmap.
  destruct (seq 0 N !! j) as [i|] eqn:Hi; [|done].
  apply lookup_seq in Hi as [-> ?]. by intros [= <-].
Qed.

Lemma wt_initial (N : nat) flags docs t :
  0 < N →
  inv t (counts N flags docs t) (step (nodes N flags docs) (Deliver 0 (QUERY t)))
  ∧ length (step (nodes N flags docs) (Deliver 0 (QUERY t))) = N.
Proof.
  intros HN. simpl.
  assert (length (nodes N flags docs) = N) as Hlen.
  { unfold nodes. by rewrite length_fmap, length_seq. }
  destruct (lookup_lt_is_Some_2 (nodes N flags docs) 0) as [n0 H0]; [lia|].
  rewrite H0. destruct (wt_nodes_lookup _ _ _ _ _ H0) as [_ ->].
  split; [|by rewrite length_insert].
  assert (∀ j n, <[0 := receive (mkNode 0 (seq 0 N) [] [] ∅ (flags 0) (docs 0)) (QUERY t)]>
                   (nodes N flags docs) !! j = Some n →
                 j < N
                 ∧ n = mkNode j (seq 0 N) (if decide (j = 0) then [QUERY t] else [])
                         [] ∅ (flags j) (docs j)) as Hlk.
  { intros j n. destruct (decide (j = 0)) as [->|Hj].
    - rewrite list_lookup_insert_eq by lia. by intros [= <-].
    - rewrite list_lookup_insert_ne by done. apply wt_nodes_lookup. }
  split.
  { unfold counts. by rewrite length_fmap, length_seq, length_insert. }
  intros j n Hn. destruct (Hlk j n Hn) as [Hj ->].
  unfold okn. rewrite length_insert, Hlen. simpl. split_and!.
  - done.
  - done.
  - unfold counts. rewrite list_lookup_fmap, lookup_seq_lt by done. done.
  - intros m. destruct (decide (j = 0)); [|by intros ?%elem_of_nil].
    intros ->%list_elem_of_singleton. by left.
  - by intros x ?%elem_of_nil.
  - right. left. split_and!; [done..|]. simpl.
    destruct (decide (j = 0)) as [->|Hj0].
    + left. split; [done|]. by exists [].
    + right. split; [done|]. left. split; [done|].
      intros o Ho. destruct (Hlk 0 o Ho) as [_ ->]. unfold Q. simpl.
      by intros ?%elem_of_nil.
  - intros i o Hi HQ. destruct (Hlk i o Hi) as [_ ->]. unfold Q in HQ. simpl in HQ.
    by apply elem_of_nil in HQ.
  - intros p o Hp _ HP. destruct (Hlk p o Hp) as [_ ->]. unfold P in HP. simpl in HP.
    by apply elem_of_nil in HP.
Qed.

Lemma wt_rounds_join (k : nat) (l : list nat) :
  mjoin (replicate k (Process <$> l)) = Process <$> mjoin (replicate k l).
Proof.
  induction k as [|k IH]; [done|]. simpl. by rewrite IH, fmap_app.
Qed.

Lemma wt_tally_all t (c0 : nat) (cs' : list nat) j n :
  (∀ i, i < S (length cs') → P t n i) →
  tally t (c0 :: cs') j n = (if decide (j = 0) then c0 else 0) + sum_list cs'.
Proof.
  intros Hall. unfold tally. simpl. f_equal.
  - destruct (decide (j = 0)) as [->|Hj].
    + rewrite decide_True; [done|]. split; [apply Hall; lia|]. by intros [? _].
    + rewrite decide_False; [done|]. intros [_ Hne]. by apply Hne.
  - rewrite (KeywordRuns.kr_sum_imap_fmap _ (λ c, c)); [by rewrite list_fmap_id|].
    intros i c Hi. simpl. rewrite decide_True; [done|].
    split; [apply Hall; apply lookup_lt_Some in Hi; lia|]. by intros [_ ?].
Qed.

(** X21. The totals of the word search in a full mesh of at least two
    nodes after at least three steps: node 0, which starts the query, ends
    with the sum of the counts of all nodes plus its own count once more
    (its result comes back to it and is tallied again); every other node
    ends with the sum of all counts plus its own count and without the count
    of node 0 (whose result reaches it before the query and is overwritten
    when the query is handled).  So two nodes other than node 0 agree only
    if their own counts are equal, and node 0 holds the sum of the counts
    only if its own count is 0. *)
Theorem word_totals (N : nat) (flags : nat → bool) (docs : nat → list string)
    (t : string) (steps j : nat) (n : Node) :
  2 ≤ N → 3 ≤ steps →
  simulate N flags docs t steps !! j = Some n →
  ∃ r, results n !! t = Some r
       ∧ (j = 0 →
          r = sum_list (counts N flags docs t) + own_count flags docs t 0)
       ∧ (j ≠ 0 →
          r + own_count flags docs t 0
          = sum_list (counts N flags docs t) + own_count flags docs t j).
Proof.
  intros HN Hsteps Hn. unfold simulate, simulate_ops in Hn.
  change (run (?op :: ?ops) ?net) with (run ops (step net op)) in Hn.
  destruct (wt_initial N flags docs t) as [Hinv1 Hlen1]; [lia|].
  set (net1 := step (nodes N flags docs) (Deliver 0 (QUERY t))) in *.
  set (cs := counts N flags docs t) in *.
  rewrite wt_rounds_join in Hn.
  destruct steps as [|[|[|k]]]; [lia..|].
  assert (mjoin (replicate (S (S (S k))) (seq 0 N))
          = (seq 0 N ++ seq 0 N ++ seq 0 N) ++ mjoin (replicate k (seq 0 N))) as Hrounds.
  { simpl. by rewrite <-!(assoc_L (++)). }
  rewrite Hrounds in Hn. clear Hrounds.
  rewrite fmap_app in Hn. unfold run, for_each in Hn. rewrite foldl_app in Hn.
  change (foldl step (foldl step net1 ?a) ?b) with (run b (run a net1)) in Hn.
  set (net3 := run (Process <$> seq 0 N ++ seq 0 N ++ seq 0 N) net1) in *.
  assert (inv t cs net3) as Hinv3 by (by apply wt_processes_inv).
  assert (∃ o, net3 !! j = Some o) as [o Ho].
  { apply lookup_lt_is_Some. apply lookup_lt_Some in Hn.
    by rewrite (wt_processes_length t cs) in Hn. }
  destruct (wt_three_rounds t cs N net1 HN Hlen1 Hinv1 j o Ho) as [HQo HPo].
  destruct (wt_processes_lookup t cs (mjoin (replicate k (seq 0 N))) net3 j o Hinv3 Ho)
    as (n' & Hn' & Hm).
  rewrite Hn in Hn'. injection Hn' as <-.
  pose proof (wt_processes_inv t cs (mjoin (replicate k (seq 0 N))) net3 Hinv3)
    as [Hlen Hok].
  destruct (Hok j n Hn) as (_ & _ & Hcs & _ & _ & Hkind & _).
  assert (j < N) as Hj.
  { apply lookup_lt_Some in Ho. destruct Hinv3 as [Hl3 _].
    unfold cs, counts in Hl3. rewrite length_fmap, length_seq in Hl3. lia. }
  assert (Q t n) as HQ by (by apply Hm).
  destruct Hkind as [(_ & _ & Hr)|[(Hs & _)|(_ & Hs & _)]].
  2:{ unfold Q in HQ. rewrite Hs in HQ. by apply elem_of_nil in HQ. }
  2:{ unfold Q in HQ. rewrite Hs in HQ. by apply list_elem_of_singleton in HQ. }
  assert (∀ i, i < N → cnt cs i = own_count flags docs t i) as Hcnt.
  { intros i Hi. unfold cnt, cs, counts.
    by rewrite list_lookup_fmap, lookup_seq_lt. }
  eexists. split; [exact Hr|].
  assert (cs = own_count flags docs t 0 :: (own_count flags docs t <$> seq 1 (N - 1)))
    as Hcons.
  { unfold cs, counts. destruct N as [|N']; [lia|]. simpl. by rewrite Nat.sub_0_r. }
  assert (tally t cs j n
          = (if decide (j = 0) then own_count flags docs t 0 else 0)
            + sum_list (own_count flags docs t <$> seq 1 (N - 1))) as Ht.
  { rewrite Hcons. apply wt_tally_all. intros i Hi. apply Hm, HPo.
    rewrite length_fmap, length_seq in Hi. lia. }
  assert (sum_list cs
          = own_count flags docs t 0
            + sum_list (own_count flags docs t <$> seq 1 (N - 1))) as Hsum.
  { by rewrite Hcons. }
  rewrite Hcnt, Ht, Hsum by done. split.
  - intros ->. rewrite decide_True by done. lia.
  - intros Hne. rewrite decide_False by done. lia.
Qed.

Lemma word_totals_witness :
  ∃ n, simulate 3 (λ _, false) (λ i, replicate (S i) "clip"%string) "clip" 3 !! 2
       = Some n
       ∧ results n !! "clip"%string = Some 8.
Proof.
  eexists. split; [by vm_compute|].
  destruct (word_totals 3 (λ _, false) (λ i, replicate (S i) "clip"%string)
              "clip" 3 2 _ ltac:(lia) ltac:(lia) ltac:(by vm_compute))
    as (r & Hr & _ & H2).
  rewrite Hr. f_equal. specialize (H2 ltac:(lia)).
  assert (sum_list (counts 3 (λ _, false) (λ i, replicate (S i) "clip"%string) "clip")
          = 6) as Hs by (by vm_compute).
  assert (own_count (λ _, false) (λ i, replicate (S i) "clip"%string) "clip" 0 = 1)
    as H0 by (by vm_compute).
  assert (own_count (λ _, false) (λ i, replicate (S i) "clip"%string) "clip" 2 = 3)
    as H3 by (by vm_compute).
  rewrite Hs, H0, H3 in H2. lia.
Defined.

Lemma seen_test_never_blocks_witness :
  gossip 1 (run [Deliver 0 (QUERY "clip"); Process 0]
              (nodes 3 (λ _, false) (λ _, ["clip"%string])))
    (QUERY "clip")
  = gossip_with node_id peers receive 1
      (run [Deliver 0 (QUERY "clip"); Process 0]
         (nodes 3 (λ _, false) (λ _, ["clip"%string])))
      (QUERY "clip").
Proof.
  apply (seen_test_never_blocks (nodes 3 (λ _, false) (λ _, ["clip"%string]))).
  repeat constructor.
Defined.

End WordTest.
